(** * slcgen: outline synthesis for legacy-computing symbols

    A shallow embedding of [slcgen.py] (the FontForge-backed generator):
    parameter resolution ([SLCParameters]), the glyph builders of
    [GlyphProxy] (rectangles, polygons, shade patterns, diagonal fill,
    box-drawing strokes, ellipses) and the font store of [FontProxy].

    Conventions of the embedding.
    - Python numbers (int and float) are represented by their exact
      rational value in [Q]; [/] is true division, [round] is Python 3's
      round-half-to-even, [//] and [&], [^] act on integers in [Z].
      Rounding errors of floating-point arithmetic, infinities and NaN
      have no counterpart: the embedding speaks of runs on numbers in
      the range of a float, computed exactly.  The [OverflowError] and
      [ValueError] that Python raises outside that range (an integer too
      large for a float, [round] of an infinity or a NaN) are not
      modelled.
    - The functions of the [math] module are not rational-valued; they
      are taken from a record [Math], so every result holds for whatever
      these functions return.
    - FontForge is an external library.  A glyph layer is represented by
      the sequence of FontForge calls that built it (type [shape]); the
      region it fills is given by [wind], which follows the fill rules
      documented for FontForge: a point is filled by a set of contours
      when its winding number is not zero, [removeOverlap] keeps the
      filled region, [intersect] keeps the region covered at least twice.
    - Exceptions are values: fallible builders return [result]. *)

From Stdlib Require Import ZArith QArith Qround Qminmax Qabs Lia Lqa List Bool String.
From stdpp Require Import gmap.
Import ListNotations.

Open Scope Q_scope.

(* ================================================================= *)
(** ** Python numbers *)

(** [round(q)] of Python 3: nearest integer, ties to the even one. *)
Definition py_round (q : Q) : Z :=
  let f := Qfloor q in
  match Qcompare (q - inject_Z f) (1 # 2) with
  | Lt => f
  | Gt => (f + 1)%Z
  | Eq => if Z.even f then f else (f + 1)%Z
  end.

(** [range(n)] for an integer [n]: empty when [n <= 0]. *)
Definition range (n : Z) : list Z :=
  List.map Z.of_nat (seq 0 (Z.to_nat n)).

Definition Qltb (a b : Q) : bool := negb (Qle_bool b a).

(** The exceptions the program raises on numbers in the range of a
    float: a division by zero and an index out of range. *)
Inductive exn : Set :=
| ZeroDivisionError
| IndexError.

Inductive result (A : Type) : Type :=
| Ok (a : A)
| Raise (e : exn).
Arguments Ok {A} a.
Arguments Raise {A} e.

Definition rbind {A B : Type} (m : result A) (k : A -> result B) : result B :=
  match m with
  | Ok a => k a
  | Raise e => Raise e
  end.

Notation "'do' x <- m ; k" := (rbind m (fun x => k))
  (at level 10, x name, m at level 100, k at level 200).

(** [a / b] where the divisor is a run-time value. *)
Definition py_div (a b : Q) : result Q :=
  if Qeq_bool b 0 then Raise ZeroDivisionError else Ok (a / b).

(** A loop [for x in xs: s = body(x, s)] whose body may raise. *)
Fixpoint for_each {A S : Type} (xs : list A) (body : A -> S -> result S) (s : S)
  : result S :=
  match xs with
  | [] => Ok s
  | x :: rest => do s' <- body x s; for_each rest body s'
  end.

(** The functions of Python's [math] module used by the program. *)
Record Math : Type := {
  math_atan2 : Q -> Q -> Q;
  math_degrees : Q -> Q;
  math_radians : Q -> Q;
  math_sin : Q -> Q;
  math_cos : Q -> Q
}.

(** A rational stand-in for [math], exact on the axes: truncated Taylor
    series for sine and cosine, 355/113 for pi.  It is used to run the
    model on concrete inputs; no general statement below depends on it. *)
Definition approx_pi : Q := 355 # 113.

Definition approx_atan (t : Q) : Q := t / (1 + (28 # 100) * t * t).

Definition approx_atan2 (y x : Q) : Q :=
  if Qeq_bool y 0 then (if Qle_bool 0 x then 0 else approx_pi)
  else if Qle_bool (Qabs y) (Qabs x) then
    (if Qle_bool 0 x then approx_atan (y / x)
     else if Qle_bool 0 y then approx_atan (y / x) + approx_pi
     else approx_atan (y / x) - approx_pi)
  else
    (if Qle_bool 0 y then approx_pi / 2 - approx_atan (x / y)
     else - (approx_pi / 2) - approx_atan (x / y)).

Definition approx_math : Math := {|
  math_atan2 := fun y x => Qred (approx_atan2 y x);
  math_degrees := fun r => Qred (r * 180 / approx_pi);
  math_radians := fun d => Qred (d * approx_pi / 180);
  math_sin := fun x => Qred (x - x * x * x / 6 + x * x * x * x * x / 120);
  math_cos := fun x => Qred (1 - x * x / 2 + x * x * x * x / 24)
|}.

(* ================================================================= *)
(** ** Parameter resolution: class [SLCParameters] *)

(** The keyword arguments of [SLCParameters.__init__]; [None] is
    Python's [None]. *)
Record kwargs : Type := {
  kw_ascent : option Q;
  kw_descent : option Q;
  kw_width : option Q;
  kw_pixelHeight : option Z;
  kw_pixelWidth : option Z;
  kw_diagonalFillAngle : option Q;
  kw_diagonalFillWeight : option Q;
  kw_diagonalSpaceWeight : option Q;
  kw_boxLightWeight : option Q;
  kw_boxHeavyWeight : option Q;
  kw_boxDoubleGap : option Q;
  kw_boxArcRadius : option Q;
  kw_boxTickLength : option Q;
  kw_boxLineTruncate : option bool;
  kw_separationTop : option Q;
  kw_separationRight : option Q;
  kw_separationBottom : option Q;
  kw_separationLeft : option Q;
  kw_file : option string
}.

Definition no_kwargs : kwargs := {|
  kw_ascent := None; kw_descent := None; kw_width := None;
  kw_pixelHeight := None; kw_pixelWidth := None;
  kw_diagonalFillAngle := None;
  kw_diagonalFillWeight := None; kw_diagonalSpaceWeight := None;
  kw_boxLightWeight := None; kw_boxHeavyWeight := None;
  kw_boxDoubleGap := None; kw_boxArcRadius := None;
  kw_boxTickLength := None; kw_boxLineTruncate := None;
  kw_separationTop := None; kw_separationRight := None;
  kw_separationBottom := None; kw_separationLeft := None;
  kw_file := None
|}.

(** The attributes of an [SLCParameters] object. *)
Record Params : Type := {
  ascent : Q;
  descent : Q;
  height : Q;
  width : Q;
  pixelHeight : Z;
  pixelWidth : Z;
  diagonalFillAngle : Q;
  diagonalFillWeight : Q;
  diagonalSpaceWeight : Q;
  boxLightWeight : Q;
  boxHeavyWeight : Q;
  boxDoubleGap : Q;
  boxArcRadius : Q;
  boxTickLength : Q;
  boxLineTruncate : bool;
  separationTop : Q;
  separationRight : Q;
  separationBottom : Q;
  separationLeft : Q;
  file : string
}.

(** [v if v is not None else d] *)
Definition if_given {A : Type} (o : option A) (d : A) : A :=
  match o with
  | Some v => v
  | None => d
  end.

Definition given {A : Type} (o : option A) : bool :=
  match o with
  | Some _ => true
  | None => false
  end.

(** [a if a is not None and b is None else d] *)
Definition if_given_alone {A : Type} (a b : option A) (d : A) : A :=
  match a with
  | Some v => if given b then d else v
  | None => d
  end.

Section Resolver.
Variable M : Math.

Definition SLCParameters (kw : kwargs) : Params :=
  let self_ascent :=
    if_given (kw_ascent kw)
      (match kw_descent kw with Some d => d * 4 | None => 800 end) in
  let self_descent :=
    if_given (kw_descent kw)
      (match kw_ascent kw with Some a => a / 4 | None => 200 end) in
  let self_height := self_ascent + self_descent in
  let self_width := if_given (kw_width kw) self_height in
  let self_pixelHeight :=
    if_given (kw_pixelHeight kw) (if_given (kw_pixelWidth kw) 20%Z) in
  let self_pixelWidth :=
    if_given (kw_pixelWidth kw) (if_given (kw_pixelHeight kw) 20%Z) in
  let self_diagonalFillAngle :=
    if_given (kw_diagonalFillAngle kw)
      (math_degrees M (math_atan2 M self_height self_width)) in
  let self_diagonalFillWeight :=
    match kw_diagonalFillWeight kw, kw_diagonalSpaceWeight kw with
    | None, None =>
        let s := Qabs (math_sin M (math_radians M self_diagonalFillAngle)) in
        let c := Qabs (math_cos M (math_radians M self_diagonalFillAngle)) in
        (self_height * c + self_width * s) / 16
    | Some f, _ => f
    | None, Some s => s
    end in
  let self_diagonalSpaceWeight :=
    match kw_diagonalFillWeight kw, kw_diagonalSpaceWeight kw with
    | None, None => self_diagonalFillWeight
    | _, Some s => s
    | Some f, None => f
    end in
  let self_boxLightWeight :=
    match kw_boxLightWeight kw, kw_boxHeavyWeight kw with
    | None, None => self_height / 9
    | Some l, _ => l
    | None, Some h => h / 2
    end in
  let self_boxHeavyWeight :=
    match kw_boxLightWeight kw, kw_boxHeavyWeight kw with
    | None, None => self_boxLightWeight * 2
    | _, Some h => h
    | Some l, None => l * 2
    end in
  let dflt := self_height / 18 in
  let top := kw_separationTop kw in
  let right := kw_separationRight kw in
  let bottom := kw_separationBottom kw in
  let left := kw_separationLeft kw in
  {| ascent := self_ascent;
     descent := self_descent;
     height := self_height;
     width := self_width;
     pixelHeight := self_pixelHeight;
     pixelWidth := self_pixelWidth;
     diagonalFillAngle := self_diagonalFillAngle;
     diagonalFillWeight := self_diagonalFillWeight;
     diagonalSpaceWeight := self_diagonalSpaceWeight;
     boxLightWeight := self_boxLightWeight;
     boxHeavyWeight := self_boxHeavyWeight;
     boxDoubleGap := if_given (kw_boxDoubleGap kw) self_boxLightWeight;
     boxArcRadius :=
       if_given (kw_boxArcRadius kw) (Qmin self_height self_width / 2);
     boxTickLength :=
       if_given (kw_boxTickLength kw)
         (Qmin (Qmax self_height self_width / 3)
               (Qmin self_height self_width / 2));
     boxLineTruncate := if_given (kw_boxLineTruncate kw) true;
     separationTop :=
       if_given top (if_given bottom
         (if_given_alone right left (if_given_alone left right dflt)));
     separationRight :=
       if_given right (if_given left
         (if_given_alone top bottom (if_given_alone bottom top dflt)));
     separationBottom :=
       if_given bottom (if_given top
         (if_given_alone right left (if_given_alone left right dflt)));
     separationLeft :=
       if_given left (if_given right
         (if_given_alone top bottom (if_given_alone bottom top dflt)));
     file := if_given (kw_file kw) "out.sfd"%string |}.

(** The quantities [slcgen] derives from the parameters before it
    creates the font. *)
Record Offsets : Type := {
  xe : Q; ye : Q; xg : Q; yg : Q; xgd : Q; ygd : Q; ty : Q; tx : Q
}.

Definition slcgen_offsets (p : Params) : result Offsets :=
  do v_xe <- py_div (boxLightWeight p) (width p * 2);
  do v_ye <- py_div (boxLightWeight p) (height p * 2);
  do v_xg <- py_div (boxLightWeight p + boxDoubleGap p) (width p * 2);
  do v_yg <- py_div (boxLightWeight p + boxDoubleGap p) (height p * 2);
  do v_xgd <- py_div (boxLightWeight p + boxDoubleGap p)
                (math_sin M (math_atan2 M (height p) (width p)) * width p * 2);
  do v_ygd <- py_div (boxLightWeight p + boxDoubleGap p)
                (math_cos M (math_atan2 M (height p) (width p)) * height p * 2);
  do v_ty <- py_div (boxTickLength p) (height p);
  do v_tx <- py_div (boxTickLength p) (width p);
  Ok {| xe := v_xe; ye := v_ye; xg := v_xg; yg := v_yg;
        xgd := v_xgd; ygd := v_ygd; ty := v_ty; tx := v_tx |}.

End Resolver.

(* ================================================================= *)
(** ** FontForge: contours, layers, glyphs *)

Definition point : Type := (Q * Q)%type.

(** A [psMat] transformation matrix [(a, b, c, d, e, f)]:
    [x' = a x + c y + e] and [y' = b x + d y + f]. *)
Record matrix : Type := {
  m_a : Q; m_b : Q; m_c : Q; m_d : Q; m_e : Q; m_f : Q
}.

Definition psMat_scale (x y : Q) : matrix :=
  {| m_a := x; m_b := 0; m_c := 0; m_d := y; m_e := 0; m_f := 0 |}.

Definition psMat_translate (x y : Q) : matrix :=
  {| m_a := 1; m_b := 0; m_c := 0; m_d := 1; m_e := x; m_f := y |}.

Definition psMat_rotate (M : Math) (theta : Q) : matrix :=
  {| m_a := math_cos M theta; m_b := math_sin M theta;
     m_c := - math_sin M theta; m_d := math_cos M theta;
     m_e := 0; m_f := 0 |}.

Definition det (m : matrix) : Q := m_a m * m_d m - m_b m * m_c m.

(** The point that [m] sends to [q] (for an invertible [m]). *)
Definition preimage (m : matrix) (q : point) : point :=
  let u := fst q - m_e m in
  let v := snd q - m_f m in
  ((m_d m * u - m_c m * v) / det m, (m_a m * v - m_b m * u) / det m).

Inductive contour : Type :=
| Closed (pts : list point)
    (** [moveTo], [lineTo] ..., [closePath] *)
| Open (pts : list point)
    (** [moveTo], [lineTo] ..., [endPath] *)
| UnitShape (n : Z) (ts : list matrix) (reversed : bool).
    (** [fontforge.unitShape(n)], transformed by [ts] in order, then
        possibly [reverseDirection()] *)

Inductive linecap : Set := Butt | RoundCap | Square.
Inductive linejoin : Set := Miter | RoundJoin | Bevel.
Inductive nib : Set := Circular.

(** A glyph layer, as the FontForge calls that produced it. *)
Inductive shape : Type :=
| Blank
| Draw (s : shape) (c : contour)
| Simplify (s : shape)
| RemoveOverlap (s : shape)
| Intersect (s : shape)
| RoundToInt (s : shape)
| Transform (m : matrix) (s : shape)
| Stroke (n : nib) (w : Q) (cap : linecap) (join : linejoin) (s : shape)
| DrawGlyph (s : shape) (src : shape).
    (** [src.draw(pen)] for a pen on [s] that keeps the old contents *)

Record glyph : Type := {
  g_layer : shape;
  g_width : Q
}.

Definition on_layer (f : shape -> shape) (g : glyph) : glyph :=
  {| g_layer := f (g_layer g); g_width := g_width g |}.

(** *** The region a layer fills *)

Definition is_left (a b q : point) : Q :=
  (fst b - fst a) * (snd q - snd a) - (fst q - fst a) * (snd b - snd a).

(** Contribution of the edge [a -> b] to the winding number around [q],
    counted positive for clockwise contours (FontForge's outer
    direction): the edge is counted when it crosses the horizontal ray
    from [q] towards larger x. *)
Definition edge_wind (q a b : point) : Z :=
  if Qle_bool (snd a) (snd q) then
    if Qltb (snd q) (snd b) && Qltb 0 (is_left a b q) then (-1)%Z else 0%Z
  else
    if Qle_bool (snd b) (snd q) && Qltb (is_left a b q) 0 then 1%Z else 0%Z.

Fixpoint path_wind (q first : point) (pts : list point) : Z :=
  match pts with
  | [] => 0%Z
  | a :: rest =>
      match rest with
      | [] => edge_wind q a first
      | b :: _ => (edge_wind q a b + path_wind q first rest)%Z
      end
  end.

Definition poly_wind (pts : list point) (q : point) : Z :=
  match pts with
  | [] => 0%Z
  | first :: _ => path_wind q first pts
  end.

Definition Qsgn (x : Q) : Z := Z.sgn (Qnum x).

(** Winding number of the layer around [q]; [None] for layers holding
    open paths, strokes or curves, whose region is not modelled.
    [simplify] is taken to leave the region of a straight-edged layer
    unchanged. *)
Fixpoint wind (s : shape) (q : point) : option Z :=
  match s with
  | Blank => Some 0%Z
  | Draw s' (Closed pts) =>
      match wind s' q with
      | Some n => Some (n + poly_wind pts q)%Z
      | None => None
      end
  | Draw _ _ => None
  | Simplify s' => wind s' q
  | RemoveOverlap s' =>
      match wind s' q with
      | Some n => Some (if (n =? 0)%Z then 0 else 1)%Z
      | None => None
      end
  | Intersect s' =>
      match wind s' q with
      | Some n => Some (if (Z.abs n <? 2)%Z then 0 else 1)%Z
      | None => None
      end
  | RoundToInt _ => None
  | Transform m s' =>
      if Qeq_bool (det m) 0 then Some 0%Z
      else
        match wind s' (preimage m q) with
        | Some n => Some (Qsgn (det m) * n)%Z
        | None => None
        end
  | Stroke _ _ _ _ _ => None
  | DrawGlyph s' src =>
      match wind s' q, wind src q with
      | Some n, Some k => Some (n + k)%Z
      | _, _ => None
      end
  end.

(** [q] is inside the outline of the layer. *)
Definition filled (s : shape) (q : point) : Prop :=
  exists n : Z, wind s q = Some n /\ n <> 0%Z.

(** The points given to [moveTo] and [lineTo] on the way to this layer.
    A unit shape that [rawellipse] draws with [Contour.draw] brings
    points of FontForge's own, which are not among them. *)
Fixpoint pen_points (s : shape) : list point :=
  match s with
  | Blank => []
  | Draw s' (Closed pts) => pen_points s' ++ pts
  | Draw s' (Open pts) => pen_points s' ++ pts
  | Draw s' (UnitShape _ _ _) => pen_points s'
  | Simplify s' | RemoveOverlap s' | Intersect s' | RoundToInt s' => pen_points s'
  | Transform _ s' => pen_points s'
  | Stroke _ _ _ _ s' => pen_points s'
  | DrawGlyph s' src => pen_points s' ++ pen_points src
  end.

(** A layer that holds no contour: cleared, and nothing drawn since. *)
Fixpoint no_contours (s : shape) : bool :=
  match s with
  | Blank => true
  | Draw _ _ => false
  | Simplify s' | RemoveOverlap s' | Intersect s' | RoundToInt s' => no_contours s'
  | Transform _ s' => no_contours s'
  | Stroke _ _ _ _ s' => no_contours s'
  | DrawGlyph s' src => no_contours s' && no_contours src
  end.

(** What FontForge reports when the contours of a layer are read back
    ([glyph.layers[li][ci]]): for each contour its points, each with its
    [on_curve] flag. *)
Definition readback : Type := shape -> list (list (point * bool)).

(** The read-back of a layer built from closed pen polygons only, none
    of which FontForge has altered: the polygons as drawn.  It is not
    the read-back of a layer that holds a unit shape or contours that
    [removeOverlap] or [intersect] had to cut. *)
Fixpoint drawn_contours (s : shape) : list (list (point * bool)) :=
  match s with
  | Draw s' (Closed pts) => drawn_contours s' ++ [List.map (fun q => (q, true)) pts]
  | Draw s' _ => drawn_contours s'
  | Simplify s' | RemoveOverlap s' | Intersect s' | RoundToInt s' => drawn_contours s'
  | Transform _ s' => drawn_contours s'
  | Stroke _ _ _ _ s' => drawn_contours s'
  | DrawGlyph s' src => drawn_contours s' ++ drawn_contours src
  | Blank => []
  end.

(** FontForge behaviour the program observes: the contours read back
    from a layer, and the advance width of a freshly created glyph. *)
Record FontForge : Type := {
  contours_of : readback;
  new_glyph_width : Q
}.

(** FontForge as seen on layers of closed polygons that never overlap;
    a stand-in to run the model on such layers. *)
Definition plain_fontforge : FontForge :=
  {| contours_of := drawn_contours; new_glyph_width := 1000 |}.

(* ================================================================= *)
(** ** Python sequences *)

(** [l[i]], negative indices counting from the end. *)
Definition py_index {A : Type} (l : list A) (i : Z) : result A :=
  let n := Z.of_nat (length l) in
  let j := if (i <? 0)%Z then (n + i)%Z else i in
  if ((j <? 0) || (n <=? j))%Z then Raise IndexError
  else
    match nth_error l (Z.to_nat j) with
    | Some a => Ok a
    | None => Raise IndexError
    end.

(** [l[1:-1]] *)
Definition py_slice_1_m1 {A : Type} (l : list A) : list A :=
  removelast (tl l).

(** [for i in range(n): s = body(i, s)] with a body that cannot raise. *)
Definition for_range {S : Type} (n : Z) (body : Z -> S -> S) (s : S) : S :=
  fold_left (fun acc i => body i acc) (range n) s.

(* ================================================================= *)
(** ** Glyph builders: class [GlyphProxy] *)

Section GlyphProxy.
Variable M : Math.
Variable FF : FontForge.
Variable p : Params.

Definition rounded (q : point) : point :=
  (inject_Z (py_round (fst q)), inject_Z (py_round (snd q))).

Definition pen_closed (pts : list point) : glyph -> glyph :=
  on_layer (fun s => Draw s (Closed pts)).

Definition pen_open (pts : list point) : glyph -> glyph :=
  on_layer (fun s => Draw s (Open pts)).

Definition glyph_clear (g : glyph) : glyph :=
  {| g_layer := Blank; g_width := g_width g |}.

Definition set_width (w : Q) (g : glyph) : glyph :=
  {| g_layer := g_layer g; g_width := w |}.

Definition rawrect (x1 y1 x2 y2 : Q) (g : glyph) : glyph :=
  on_layer Simplify
    (pen_closed [rounded (x1, y1); rounded (x2, y1);
                 rounded (x2, y2); rounded (x1, y2)] g).

(** Unit-square coordinates to design coordinates. *)
Definition design (q : point) : point :=
  (width p * fst q, ascent p - height p * snd q).

Definition rect (x1 y1 x2 y2 : Q) (g : glyph) : glyph :=
  rawrect (width p * x1) (ascent p - height p * y1)
          (width p * x2) (ascent p - height p * y2) g.

Definition _rawrectccw (x1 y1 x2 y2 : Q) (g : glyph) : glyph :=
  on_layer Simplify
    (pen_closed [rounded (x1, y1); rounded (x1, y2);
                 rounded (x2, y2); rounded (x2, y1)] g).

Definition _rectccw (x1 y1 x2 y2 : Q) (g : glyph) : glyph :=
  _rawrectccw (width p * x1) (ascent p - height p * y1)
              (width p * x2) (ascent p - height p * y2) g.

Definition rawpoly (points : list point) (g : glyph) : result glyph :=
  match points with
  | [] => Raise IndexError
  | _ :: _ => Ok (on_layer Simplify (pen_closed (List.map rounded points) g))
  end.

Definition poly (points : list point) (g : glyph) : result glyph :=
  rawpoly (List.map design points) g.

Definition on_curve_points (c : list (point * bool)) : list point :=
  List.map fst (List.filter snd c).

Definition _stripcontrolpoints (g : glyph) : result glyph :=
  let polygons := List.map on_curve_points (contours_of FF (g_layer g)) in
  for_each polygons rawpoly (set_width (width p) (glyph_clear g)).

(** The test of [shade] and [shadepart]:
    [((x + y) & 1) ^ ((rows + cols) & 1) ^ (0 if inverse else 1)]. *)
Definition shade_bits (rows cols : Z) (inverse : bool) (x y : Z) : Z :=
  Z.lxor (Z.lxor (Z.land (x + y) 1) (Z.land (rows + cols) 1))
         (if inverse then 0 else 1).

Definition truthy (n : Z) : bool := negb (n =? 0)%Z.

Definition cell (rows cols x y : Z) (g : glyph) : glyph :=
  rect (inject_Z x / inject_Z cols) (inject_Z y / inject_Z rows)
       (inject_Z (x + 1) / inject_Z cols) (inject_Z (y + 1) / inject_Z rows) g.

Definition shade (rows cols : Z) (inverse : bool) (g : glyph) : glyph :=
  for_range rows (fun y =>
    for_range cols (fun x g' =>
      if truthy (shade_bits rows cols inverse x y)
      then cell rows cols x y g'
      else g')) g.

Definition shadepart (rows cols : Z) (inverse : bool) (points : list point)
    (union : bool) (g : glyph) : result glyph :=
  let g1 := shade rows cols inverse g in
  do g2 <- poly points g1;
  let g3 := if union then on_layer RemoveOverlap g2 else on_layer Intersect g2 in
  _stripcontrolpoints (on_layer Simplify g3).

(** The test of [ltshade] and [dkshade]:
    [((x + y) & 1) == ((rows + cols) & 1)]. *)
Definition light_bit (rows cols x y : Z) : bool :=
  (Z.land (x + y) 1 =? Z.land (rows + cols) 1)%Z.

Definition ltshade (rows cols : Z) (g : glyph) : glyph :=
  for_range (rows / 2)%Z (fun y =>
    for_range cols (fun x g' =>
      if light_bit rows cols x y
      then rect (inject_Z x / inject_Z cols) (inject_Z (y * 2) / inject_Z rows)
                (inject_Z (x + 1) / inject_Z cols)
                (inject_Z (y * 2 + 1) / inject_Z rows) g'
      else g')) g.

(** [dkshade] up to its last [simplify]; [dkshade] then strips the
    control points. *)
Definition dkshade_outline (rows cols : Z) (g : glyph) : glyph :=
  let g1 :=
    for_range (rows / 2)%Z (fun y =>
      for_range cols (fun x g' =>
        if light_bit rows cols x y
        then _rectccw (inject_Z x / inject_Z cols)
                      (inject_Z (y * 2) / inject_Z rows)
                      (inject_Z (x + 1) / inject_Z cols)
                      (inject_Z (y * 2 + 1) / inject_Z rows) g'
        else g')) g in
  let g2 := rect 0 0 1 1 g1 in
  on_layer Simplify (on_layer RemoveOverlap g2).

Definition dkshade (rows cols : Z) (g : glyph) : result glyph :=
  _stripcontrolpoints (dkshade_outline rows cols g).

(** [diagfill] up to its last [simplify]. *)
Definition diagfill_outline (angle : Q) (g : glyph) : result glyph :=
  let x := height p + width p in
  let g1 := rawrect (- x) (diagonalFillWeight p * (1 # 2))
                    x (- diagonalFillWeight p * (1 # 2)) g in
  do n <- py_div x (diagonalFillWeight p + diagonalSpaceWeight p);
  let g2 :=
    for_range (py_round n) (fun y g' =>
      let y1 := (inject_Z y + (3 # 2)) * diagonalFillWeight p
                + (inject_Z y + 1) * diagonalSpaceWeight p in
      let y2 := (inject_Z y + (1 # 2)) * diagonalFillWeight p
                + (inject_Z y + 1) * diagonalSpaceWeight p in
      rawrect (- x) (- y2) x (- y1) (rawrect (- x) y1 x y2 g')) g1 in
  let g3 := on_layer (Transform (psMat_rotate M (math_radians M angle))) g2 in
  let g4 := on_layer (Transform (psMat_translate (width p * (1 # 2))
                                   (ascent p - height p * (1 # 2)))) g3 in
  let g5 := rect 0 0 1 1 g4 in
  Ok (on_layer Simplify (on_layer Intersect g5)).

Definition diagfill (angle : Q) (g : glyph) : result glyph :=
  do g' <- diagfill_outline angle g;
  _stripcontrolpoints g'.

Definition bitmap (rows cols n : Z) (g : glyph) : result glyph :=
  let '(g1, _) :=
    for_range rows (fun y =>
      for_range cols (fun x '(g', n') =>
        ((if truthy (Z.land n' 1) then cell rows cols x y g' else g'),
         Z.shiftr n' 1))) (g, n) in
  _stripcontrolpoints (on_layer Simplify (on_layer RemoveOverlap g1)).

Definition sepmap (rows cols n : Z) (g : glyph) : glyph :=
  fst
    (for_range rows (fun y =>
      for_range cols (fun x '(g', n') =>
        ((if truthy (Z.land n' 1)
          then rawrect
                 (width p * inject_Z x / inject_Z cols + separationLeft p)
                 (ascent p - height p * inject_Z y / inject_Z rows
                  - separationTop p)
                 (width p * inject_Z (x + 1) / inject_Z cols
                  - separationRight p)
                 (ascent p - height p * inject_Z (y + 1) / inject_Z rows
                  + separationBottom p) g'
          else g'),
         Z.shiftr n' 1))) (g, n)).

Definition _extendpoints (points : list point) : result (list point) :=
  do p0 <- py_index points 0;
  do p1 <- py_index points 1;
  do p2 <- py_index points (-2);
  do p3 <- py_index points (-1);
  Ok ([(fst p0 - (fst p1 - fst p0), snd p0 - (snd p1 - snd p0))]
      ++ py_slice_1_m1 points
      ++ [(fst p3 - (fst p2 - fst p3), snd p3 - (snd p2 - snd p3))]).

Definition rawellipse (cx cy orx ory irx iry bx1 by1 bx2 by2 : Q)
    (g : glyph) : glyph :=
  let g1 :=
    if Qltb 0 orx && Qltb 0 ory
    then on_layer (fun s =>
           Draw s (UnitShape 0 [psMat_scale orx ory; psMat_translate cx cy]
                     false)) g
    else g in
  let g2 :=
    if Qltb 0 irx && Qltb 0 iry
    then on_layer (fun s =>
           Draw s (UnitShape 0 [psMat_scale irx iry; psMat_translate cx cy]
                     true)) g1
    else g1 in
  let g3 := rawrect bx1 by1 bx2 by2 g2 in
  on_layer RoundToInt (on_layer Simplify (on_layer Intersect g3)).

Definition ellipse (cx cy orx ory irx iry bx1 by1 bx2 by2 : Q)
    (g : glyph) : glyph :=
  rawellipse (width p * cx) (ascent p - height p * cy)
             (width p * orx) (height p * ory)
             (width p * irx) (height p * iry)
             (width p * bx1) (ascent p - height p * by1)
             (width p * bx2) (ascent p - height p * by2) g.

Definition boxdrawarc (dx dy : Q) (g : glyph) : glyph :=
  let w := width p in
  let a := ascent p in
  let h := height p in
  let r := boxArcRadius p in
  let l := boxLightWeight p in
  let g1 :=
    rawellipse (w / 2 + r * dx) (a - h / 2 - r * dy)
               (r + l / 2) (r + l / 2) (r - l / 2) (r - l / 2)
               (w / 2 - r) (a - h / 2 + r) (w / 2 + r) (a - h / 2 - r) g in
  let g2 :=
    if Qltb dx 0 && Qltb 0 (w / 2 - r)
    then rawrect 0 (a - h / 2 + l / 2) (w / 2 - r) (a - h / 2 - l / 2) g1
    else g1 in
  let g3 :=
    if Qltb 0 dx && Qltb (w / 2 + r) w
    then rawrect (w / 2 + r) (a - h / 2 + l / 2) w (a - h / 2 - l / 2) g2
    else g2 in
  let g4 :=
    if Qltb dy 0 && Qltb (a - h / 2 + r) a
    then rawrect (w / 2 - l / 2) a (w / 2 + l / 2) (a - h / 2 + r) g3
    else g3 in
  let g5 :=
    if Qltb 0 dy && Qltb (- descent p) (a - h / 2 - r)
    then rawrect (w / 2 - l / 2) (a - h / 2 - r) (w / 2 + l / 2) (- descent p) g4
    else g4 in
  on_layer RoundToInt (on_layer Simplify (on_layer RemoveOverlap g5)).

End GlyphProxy.

(* ================================================================= *)
(** ** The font: encoding slots holding glyphs

    A [GlyphProxy] keeps a reference to its glyph, and the glyph to its
    font; [font.createChar(32)] inside a builder returns the very glyph
    object that sits in slot 32.  The store below keeps that sharing: a
    proxy is the code point of its glyph.  Builders applied to a slot
    without a glyph leave the font as it is (the program only makes
    proxies through [mkglyph]). *)

Abbreviation font := (gmap Z glyph).

Section FontProxy.
Variable M : Math.
Variable FF : FontForge.
Variable p : Params.

Definition createChar (cp : Z) (fnt : font) : font :=
  match fnt !! cp with
  | Some _ => fnt
  | None => <[cp := {| g_layer := Blank; g_width := new_glyph_width FF |}]> fnt
  end.

Definition layer_at (cp : Z) (fnt : font) : shape :=
  match fnt !! cp with
  | Some g => g_layer g
  | None => Blank
  end.

Definition on_glyph (cp : Z) (f : glyph -> result glyph) (fnt : font)
  : result font :=
  match fnt !! cp with
  | Some g => do g' <- f g; Ok (<[cp := g']> fnt)
  | None => Ok fnt
  end.

(** [moveTo(line[0])], [lineTo] for [line[1:]], in rounded design
    coordinates. *)
Definition polyline (line : list point) : result (list point) :=
  match line with
  | [] => Raise IndexError
  | _ :: _ => Ok (List.map (fun q => rounded (design p q)) line)
  end.

Definition em_box : list point :=
  [(0, ascent p); (width p, ascent p);
   (width p, - descent p); (0, - descent p)].

Definition _boxdrawline (target : Z) (line : list point) (weight : Q)
    (truncate : bool) (fnt : font) : result font :=
  let fnt1 := createChar 32%Z fnt in
  let fnt2 := alter glyph_clear 32%Z fnt1 in
  do fnt3 <-
    (if truncate then
       do line' <- _extendpoints line;
       do path <- polyline line';
       Ok (alter (fun g =>
                    on_layer Intersect
                      (pen_closed em_box
                         (on_layer (Stroke Circular weight Square Miter)
                            (pen_open path g)))) 32%Z fnt2)
     else
       do path <- polyline line;
       Ok (alter (fun g =>
                    on_layer (Stroke Circular weight Butt Miter)
                      (pen_open path g)) 32%Z fnt2));
  let fnt4 := alter (on_layer Simplify) 32%Z fnt3 in
  let tmp := layer_at 32%Z fnt4 in
  let fnt5 := alter (on_layer (fun s => DrawGlyph s tmp)) target fnt4 in
  let fnt6 := alter glyph_clear 32%Z fnt5 in
  Ok (alter (set_width (width p)) 32%Z fnt6).

(** The common tail of the box-drawing builders. *)
Definition merge_strokes (target : Z) (fnt : font) : result font :=
  on_glyph target
    (fun g => _stripcontrolpoints FF p
                (on_layer Simplify (on_layer RemoveOverlap g))) fnt.

Definition boxdrawlight (target : Z) (lines : list (list point)) (fnt : font)
  : result font :=
  do fnt' <- for_each lines
               (fun line => _boxdrawline target line (boxLightWeight p) false) fnt;
  merge_strokes target fnt'.

Definition boxdrawheavy (target : Z) (lines : list (list point)) (fnt : font)
  : result font :=
  do fnt' <- for_each lines
               (fun line => _boxdrawline target line (boxHeavyWeight p) false) fnt;
  merge_strokes target fnt'.

Definition boxdrawmixed (target : Z) (lightLines heavyLines : list (list point))
    (fnt : font) : result font :=
  do fnt1 <- for_each lightLines
               (fun line => _boxdrawline target line (boxLightWeight p) false) fnt;
  do fnt2 <- for_each heavyLines
               (fun line => _boxdrawline target line (boxHeavyWeight p) false) fnt1;
  merge_strokes target fnt2.

Definition boxdrawdiag (target : Z) (lines : list (list point)) (fnt : font)
  : result font :=
  do fnt' <- for_each lines
               (fun line => _boxdrawline target line (boxLightWeight p)
                              (boxLineTruncate p)) fnt;
  merge_strokes target fnt'.

Definition mkglyph (name : string) (cp : Z) (fnt : font) : font :=
  alter (set_width (width p)) cp (alter glyph_clear cp (createChar cp fnt)).

(** One builder call of the glyph catalogue. *)
Inductive step : Type :=
| Rect (x1 y1 x2 y2 : Q)
| Poly (points : list point)
| Shade (rows cols : Z) (inverse : bool)
| ShadePart (rows cols : Z) (inverse : bool) (points : list point) (union : bool)
| LtShade (rows cols : Z)
| DkShade (rows cols : Z)
| DiagFill (angle : Q)
| Bitmap (rows cols n : Z)
| SepMap (rows cols n : Z)
| BoxDrawLight (lines : list (list point))
| BoxDrawHeavy (lines : list (list point))
| BoxDrawMixed (lightLines heavyLines : list (list point))
| BoxDrawDiag (lines : list (list point))
| Ellipse (cx cy orx ory irx iry bx1 by1 bx2 by2 : Q)
| BoxDrawArc (dx dy : Q).

Definition run_step (target : Z) (st : step) (fnt : font) : result font :=
  match st with
  | Rect x1 y1 x2 y2 => on_glyph target (fun g => Ok (rect p x1 y1 x2 y2 g)) fnt
  | Poly points => on_glyph target (poly p points) fnt
  | Shade rows cols inverse =>
      on_glyph target (fun g => Ok (shade p rows cols inverse g)) fnt
  | ShadePart rows cols inverse points union =>
      on_glyph target (shadepart FF p rows cols inverse points union) fnt
  | LtShade rows cols => on_glyph target (fun g => Ok (ltshade p rows cols g)) fnt
  | DkShade rows cols => on_glyph target (dkshade FF p rows cols) fnt
  | DiagFill angle => on_glyph target (diagfill M FF p angle) fnt
  | Bitmap rows cols n => on_glyph target (bitmap FF p rows cols n) fnt
  | SepMap rows cols n => on_glyph target (fun g => Ok (sepmap p rows cols n g)) fnt
  | BoxDrawLight lines => boxdrawlight target lines fnt
  | BoxDrawHeavy lines => boxdrawheavy target lines fnt
  | BoxDrawMixed lightLines heavyLines =>
      boxdrawmixed target lightLines heavyLines fnt
  | BoxDrawDiag lines => boxdrawdiag target lines fnt
  | Ellipse cx cy orx ory irx iry bx1 by1 bx2 by2 =>
      on_glyph target
        (fun g => Ok (ellipse p cx cy orx ory irx iry bx1 by1 bx2 by2 g)) fnt
  | BoxDrawArc dx dy => on_glyph target (fun g => Ok (boxdrawarc p dx dy g)) fnt
  end.

(** One line of the catalogue: [f.mkglyph(name, cp).step1(...).step2(...)]. *)
Definition entry : Type := (string * Z * list step)%type.

Definition build_entry (e : entry) (fnt : font) : result font :=
  let '(name, cp, steps) := e in
  for_each steps (run_step cp) (mkglyph name cp fnt).

End FontProxy.

(** Function [slcgen], up to [f.output()].  The glyph catalogue that
    follows the two blank glyphs is data; it is a parameter here, given
    the resolved parameters and the derived offsets. *)
Definition slcgen (M : Math) (FF : FontForge)
    (catalogue : Params -> Offsets -> list entry) (kw : kwargs) : result font :=
  let p := SLCParameters M kw in
  do o <- slcgen_offsets M p;
  let f0 : font := ∅ in
  let f1 := mkglyph FF p "space" 32%Z f0 in
  let f2 := mkglyph FF p "uni00A0" 160%Z f1 in
  for_each (catalogue p o) (build_entry M FF p) f2.

(* ================================================================= *)
(** ** Keyword-argument updates and reference definitions used in the
       statements below *)

Definition set_metrics (a d w : option Q) (kw : kwargs) : kwargs :=
  {| kw_ascent := a; kw_descent := d; kw_width := w;
     kw_pixelHeight := kw_pixelHeight kw; kw_pixelWidth := kw_pixelWidth kw;
     kw_diagonalFillAngle := kw_diagonalFillAngle kw;
     kw_diagonalFillWeight := kw_diagonalFillWeight kw;
     kw_diagonalSpaceWeight := kw_diagonalSpaceWeight kw;
     kw_boxLightWeight := kw_boxLightWeight kw;
     kw_boxHeavyWeight := kw_boxHeavyWeight kw;
     kw_boxDoubleGap := kw_boxDoubleGap kw;
     kw_boxArcRadius := kw_boxArcRadius kw;
     kw_boxTickLength := kw_boxTickLength kw;
     kw_boxLineTruncate := kw_boxLineTruncate kw;
     kw_separationTop := kw_separationTop kw;
     kw_separationRight := kw_separationRight kw;
     kw_separationBottom := kw_separationBottom kw;
     kw_separationLeft := kw_separationLeft kw;
     kw_file := kw_file kw |}.

Definition set_pixels (ph pw : option Z) (kw : kwargs) : kwargs :=
  {| kw_ascent := kw_ascent kw; kw_descent := kw_descent kw;
     kw_width := kw_width kw;
     kw_pixelHeight := ph; kw_pixelWidth := pw;
     kw_diagonalFillAngle := kw_diagonalFillAngle kw;
     kw_diagonalFillWeight := kw_diagonalFillWeight kw;
     kw_diagonalSpaceWeight := kw_diagonalSpaceWeight kw;
     kw_boxLightWeight := kw_boxLightWeight kw;
     kw_boxHeavyWeight := kw_boxHeavyWeight kw;
     kw_boxDoubleGap := kw_boxDoubleGap kw;
     kw_boxArcRadius := kw_boxArcRadius kw;
     kw_boxTickLength := kw_boxTickLength kw;
     kw_boxLineTruncate := kw_boxLineTruncate kw;
     kw_separationTop := kw_separationTop kw;
     kw_separationRight := kw_separationRight kw;
     kw_separationBottom := kw_separationBottom kw;
     kw_separationLeft := kw_separationLeft kw;
     kw_file := kw_file kw |}.

Definition set_separation (t r b l : option Q) (kw : kwargs) : kwargs :=
  {| kw_ascent := kw_ascent kw; kw_descent := kw_descent kw;
     kw_width := kw_width kw;
     kw_pixelHeight := kw_pixelHeight kw; kw_pixelWidth := kw_pixelWidth kw;
     kw_diagonalFillAngle := kw_diagonalFillAngle kw;
     kw_diagonalFillWeight := kw_diagonalFillWeight kw;
     kw_diagonalSpaceWeight := kw_diagonalSpaceWeight kw;
     kw_boxLightWeight := kw_boxLightWeight kw;
     kw_boxHeavyWeight := kw_boxHeavyWeight kw;
     kw_boxDoubleGap := kw_boxDoubleGap kw;
     kw_boxArcRadius := kw_boxArcRadius kw;
     kw_boxTickLength := kw_boxTickLength kw;
     kw_boxLineTruncate := kw_boxLineTruncate kw;
     kw_separationTop := t; kw_separationRight := r;
     kw_separationBottom := b; kw_separationLeft := l;
     kw_file := kw_file kw |}.

(** The fallback chains as the specification words them. *)
Definition spec_ascent (a d : option Q) : Q :=
  match a, d with
  | Some v, _ => v
  | None, Some v => 4 * v
  | None, None => 800
  end.

Definition spec_descent (a d : option Q) : Q :=
  match d, a with
  | Some v, _ => v
  | None, Some v => v / 4
  | None, None => 200
  end.

(** The override of an axis pair, when exactly one of the pair is given. *)
Definition exactly_one (a b : option Q) : option Q :=
  match a, b with
  | Some v, None => Some v
  | None, Some v => Some v
  | _, _ => None
  end.

Definition spec_separation (own opposite perp1 perp2 : option Q) (dflt : Q) : Q :=
  match own with
  | Some v => v
  | None =>
      match opposite with
      | Some v => v
      | None =>
          match exactly_one perp1 perp2 with
          | Some v => v
          | None => dflt
          end
      end
  end.

(** The cells of a [rows] by [cols] grid, in the order the nested loops
    visit them: [(x, y)] is column [x] of row [y]. *)
Definition grid (rows cols : Z) : list (Z * Z) :=
  flat_map (fun y => List.map (fun x => (x, y)) (range cols)) (range rows).

(** The cells [shade] paints, and those [ltshade] paints (and [dkshade]
    cuts out): the latter sit on the even rows [2y]. *)
Definition shade_cells (rows cols : Z) (inverse : bool) : list (Z * Z) :=
  List.filter (fun c => truthy (shade_bits rows cols inverse (fst c) (snd c)))
    (grid rows cols).

Definition light_cells (rows cols : Z) : list (Z * Z) :=
  List.map (fun c => (fst c, (snd c * 2)%Z))
    (List.filter (fun c => light_bit rows cols (fst c) (snd c))
       (grid (rows / 2)%Z cols)).

Definition blank_glyph (w : Q) : glyph := {| g_layer := Blank; g_width := w |}.

(** The half-open rectangle spanned by two corners. *)
Definition in_box (x1 y1 x2 y2 : Q) (q : point) : Prop :=
  Qmin x1 x2 <= fst q /\ fst q < Qmax x1 x2 /\
  Qmin y1 y2 <= snd q /\ snd q < Qmax y1 y2.

(** The em box [[0, width] x [-descent, ascent]]. *)
Definition in_em_box (p : Params) (q : point) : Prop :=
  0 <= fst q /\ fst q <= width p /\ - descent p <= snd q /\ snd q <= ascent p.

Definition is_integer (v : Q) : Prop := inject_Z (Qfloor v) == v.

(** *** Rectangles and their winding numbers *)

(** [1] when [t] lies strictly below [v], else [0]. *)
Definition below (t v : Q) : Z := if Qltb t v then 1%Z else 0%Z.

(** Signed indicator of the half-open interval between [u] and [v]:
    [1] on [[u, v)], [-1] on [[v, u)], [0] elsewhere. *)
Definition span (u v t : Q) : Z := (below t v - below t u)%Z.

(** Winding number of the contour [(x1,y1) (x2,y1) (x2,y2) (x1,y2)]. *)
Definition rect_wind (x1 y1 x2 y2 : Q) (q : point) : Z :=
  (span x1 x2 (fst q) * span y2 y1 (snd q))%Z.

(** Design coordinates of the unit-square abscissa and ordinate [t],
    as [rect] rounds them. *)
Definition Xq (p : Params) (t : Q) : Q := inject_Z (py_round (width p * t)).
Definition Yq (p : Params) (t : Q) : Q :=
  inject_Z (py_round (ascent p - height p * t)).

Definition dir (v : Q) : Z := if Qle_bool 0 v then 1%Z else (-1)%Z.

(** [c] is monotone, increasing for [s = 1] and decreasing for [s = -1]. *)
Definition monotone (s : Z) (c : Q -> Q) : Prop :=
  (s = 1%Z /\ forall u v, u <= v -> c u <= c v) \/
  (s = (-1)%Z /\ forall u v, u <= v -> c v <= c u).

Definition sum_over {A : Type} (w : A -> Z) (l : list A) : Z :=
  fold_right (fun a acc => (w a + acc)%Z) 0%Z l.

(** Winding number that painting cell [c] of the grid adds at [q]. *)
Definition cell_wind (p : Params) (rows cols : Z) (q : point) (c : Z * Z) : Z :=
  rect_wind (Xq p (inject_Z (fst c) / inject_Z cols))
            (Yq p (inject_Z (snd c) / inject_Z rows))
            (Xq p (inject_Z (fst c + 1) / inject_Z cols))
            (Yq p (inject_Z (snd c + 1) / inject_Z rows)) q.

(** [pt] lies in every closed axis-parallel box that holds the region
    of [s]. *)
Definition in_hull (s : shape) (pt : point) : Prop :=
  forall x1 y1 x2 y2 : Q,
    (forall q, filled s q ->
       x1 <= fst q /\ fst q <= x2 /\ y1 <= snd q /\ snd q <= y2) ->
    x1 <= fst pt /\ fst pt <= x2 /\ y1 <= snd pt /\ snd pt <= y2.

(** Every point read back from [s] lies in the hull of its region, and
    every contour read back has an on-curve point. *)
Definition readback_sound (FF : FontForge) (s : shape) : Prop :=
  Forall (fun c => on_curve_points c <> [] /\
                   Forall (fun pt => in_hull s pt) (on_curve_points c))
         (contours_of FF s).

(** Re-drawing the read-back of the layer of [g] gives [g'], which fills
    the same region. *)
Definition readback_exact (FF : FontForge) (p : Params) (g g' : glyph) : Prop :=
  _stripcontrolpoints FF p g = Ok g' /\
  forall q, wind (g_layer g') q = wind (g_layer g) q.

(** Adding [k] to a winding number, when there is one. *)
Definition add_wind (k : Z) (o : option Z) : option Z :=
  match o with
  | Some n => Some (n + k)%Z
  | None => None
  end.

(** The winding number of one cell where it is not zero. *)
Definition sigma (p : Params) : Z := (dir (width p) * dir (height p))%Z.

(** The glyph fills exactly the given cells of the [rows] by [cols]
    grid: a point is inside its outline when, and only when, it lies in
    one of the cells. *)
Definition fills_exactly (p : Params) (rows cols : Z) (g : glyph)
    (cells : list (Z * Z)) : Prop :=
  forall q : point,
    filled (g_layer g) q <->
    exists c, In c cells /\
      filled (g_layer (cell p rows cols (fst c) (snd c) (blank_glyph 0))) q.

(** The resolved parameters when nothing is overridden. *)
Definition default_params : Params := SLCParameters approx_math no_kwargs.

(** The counter-clockwise rectangle of cell [(x, y)], as [dkshade]
    draws it to cut the cell out. *)
Definition cut_cell (p : Params) (rows cols x y : Z) (g : glyph) : glyph :=
  _rectccw p (inject_Z x / inject_Z cols) (inject_Z y / inject_Z rows)
           (inject_Z (x + 1) / inject_Z cols) (inject_Z (y + 1) / inject_Z rows) g.

(** [round], as a rational. *)
Definition Rq (v : Q) : Q := inject_Z (py_round v).

(** Upper edge of the [k]-th band of [diagfill]: the middle stripe is
    band 0, stripe [y] of the loop lies between edge [y] plus the space
    weight and edge [y + 1]. *)
Definition stripe_edge (p : Params) (k : Z) : Q :=
  (inject_Z k + (1 # 2)) * diagonalFillWeight p + inject_Z k * diagonalSpaceWeight p.

(** The closed rectangle that [rect(0, 0, 1, 1)] draws. *)
Definition in_clip_box (p : Params) (q : point) : Prop :=
  Qmin (Xq p 0) (Xq p 1) <= fst q /\ fst q <= Qmax (Xq p 0) (Xq p 1) /\
  Qmin (Yq p 0) (Yq p 1) <= snd q /\ snd q <= Qmax (Yq p 0) (Yq p 1).

(** Keyword arguments [ascent=803, diagonalFillAngle=0,
    diagonalFillWeight=100], as the command line [-a 803 -da 0 -df 100]
    passes them. *)
Definition kwargs_803 : kwargs := {|
  kw_ascent := Some 803; kw_descent := None; kw_width := None;
  kw_pixelHeight := None; kw_pixelWidth := None;
  kw_diagonalFillAngle := Some 0;
  kw_diagonalFillWeight := Some 100; kw_diagonalSpaceWeight := None;
  kw_boxLightWeight := None; kw_boxHeavyWeight := None;
  kw_boxDoubleGap := None; kw_boxArcRadius := None;
  kw_boxTickLength := None; kw_boxLineTruncate := None;
  kw_separationTop := None; kw_separationRight := None;
  kw_separationBottom := None; kw_separationLeft := None;
  kw_file := None
|}.

(** A read-back that answers with one triangle lying inside the middle
    stripe of the default diagonal fill. *)
Definition triangle_fontforge : FontForge :=
  {| contours_of := fun _ =>
       [[((10, 300), true); ((990, 300), true); ((500, 310), true)]];
     new_glyph_width := 1000 |}.

(** The body of the loop of [diagfill]: stripe [y] above the middle
    stripe and its mirror image below. *)
Definition stripe_body (p : Params) (y : Z) (g : glyph) : glyph :=
  let x := height p + width p in
  let y1 := (inject_Z y + (3 # 2)) * diagonalFillWeight p
            + (inject_Z y + 1) * diagonalSpaceWeight p in
  let y2 := (inject_Z y + (1 # 2)) * diagonalFillWeight p
            + (inject_Z y + 1) * diagonalSpaceWeight p in
  rawrect (- x) (- y2) x (- y1) (rawrect (- x) y1 x y2 g).

(** The parameters resolved from [kwargs_803]; none of them depends on
    the [math] module. *)
Definition params_803 : Params := SLCParameters approx_math kwargs_803.

(** *** Reference definitions for strokes *)

(** The point one step before [a] on the line from [b] to [a]:
    [a - (b - a)]. *)
Definition step_back (a b : point) : point :=
  (fst a - (fst b - fst a), snd a - (snd b - snd a)).

(** A polyline with each end moved one segment-step outwards, as the
    specification describes it; [None] for fewer than two points. *)
Definition extend_ends (line : list point) : option (list point) :=
  match line, rev line with
  | a :: b :: _, d :: c :: _ =>
      Some (step_back a b :: removelast (tl line) ++ [step_back d c])
  | _, _ => None
  end.

(** The layer stroking a path leaves in the scratch glyph under the two
    policies; [path] is in unit-square coordinates. *)
Definition truncated_stroke (p : Params) (path : list point) (weight : Q) : shape :=
  Simplify
    (Intersect
       (Draw
          (Stroke Circular weight Square Miter
             (Draw Blank (Open (List.map (fun q => rounded (design p q)) path))))
          (Closed (em_box p)))).

Definition plain_stroke (p : Params) (path : list point) (weight : Q) : shape :=
  Simplify
    (Stroke Circular weight Butt Miter
       (Draw Blank (Open (List.map (fun q => rounded (design p q)) path)))).

(** What one stroked line adds to its target glyph. *)
Definition stroked_line (p : Params) (line : list point) (weight : Q)
    (truncate : bool) : result shape :=
  if truncate then
    match extend_ends line with
    | Some ext => Ok (truncated_stroke p ext weight)
    | None => Raise IndexError
    end
  else
    match line with
    | [] => Raise IndexError
    | _ :: _ => Ok (plain_stroke p line weight)
    end.

(** The space glyph is empty and has the advance width of the font. *)
Definition space_is_blank (p : Params) (fnt : font) : Prop :=
  fnt !! 32%Z = Some (blank_glyph (width p)).

(** The unit shapes [rawellipse] hands to the pen. *)
Definition ellipse_contours (cx cy orx ory irx iry : Q) : list contour :=
  (if Qltb 0 orx && Qltb 0 ory
   then [UnitShape 0 [psMat_scale orx ory; psMat_translate cx cy] false]
   else [])
  ++
  (if Qltb 0 irx && Qltb 0 iry
   then [UnitShape 0 [psMat_scale irx iry; psMat_translate cx cy] true]
   else []).

Definition draw_all (cs : list contour) (g : glyph) : glyph :=
  fold_left (fun acc c => on_layer (fun s => Draw s c) acc) cs g.

(** The contours with reversed direction drawn into a layer. *)
Fixpoint holes (s : shape) : list contour :=
  match s with
  | Blank => []
  | Draw s' (UnitShape n ts true) => holes s' ++ [UnitShape n ts true]
  | Draw s' _ => holes s'
  | Simplify s' | RemoveOverlap s' | Intersect s' | RoundToInt s' => holes s'
  | Transform _ s' => holes s'
  | Stroke _ _ _ _ s' => holes s'
  | DrawGlyph s' src => holes s' ++ holes src
  end.

(** *** Sample inputs *)

(** [pixelWidth=0], as the command line [-pw 0] passes it. *)
Definition kwargs_pw0 : kwargs := set_pixels None (Some 0%Z) no_kwargs.

(** [width=-1000], which only a direct call of [slcgen] can pass. *)
Definition kwargs_negative_width : kwargs :=
  set_metrics None None (Some (-1000)) no_kwargs.

(** The catalogue line of the medium shade glyph. *)
Definition shade_catalogue (p : Params) (o : Offsets) : list entry :=
  [("shade"%string, 0x2592%Z, [Shade (pixelHeight p) (pixelWidth p) false])].

(** The catalogue lines of the light and heavy horizontal bars and of
    the falling diagonal. *)
Definition bars_catalogue (p : Params) (o : Offsets) : list entry :=
  [("SF100000"%string, 0x2500%Z, [BoxDrawLight [[(0, 1 # 2); (1, 1 # 2)]]]);
   ("uni2501"%string, 0x2501%Z, [BoxDrawHeavy [[(0, 1 # 2); (1, 1 # 2)]]]);
   ("uni2572"%string, 0x2572%Z, [BoxDrawDiag [[(0, 0); (1, 1)]]])].

(** The catalogue lines of the light horizontal bar, of an arc, of a
    ring segment and of a half disk. *)
Definition rounds_catalogue (p : Params) (o : Offsets) : list entry :=
  [("SF100000"%string, 0x2500%Z, [BoxDrawLight [[(0, 1 # 2); (1, 1 # 2)]]]);
   ("uni256D"%string, 0x256D%Z, [BoxDrawArc 1 1]);
   ("u1FBE0"%string, 0x1FBE0%Z,
    [Ellipse (1 # 2) 0 (1 # 2) (1 # 2)
       ((1 # 2) - xe o * 2) ((1 # 2) - ye o * 2) 0 0 1 1]);
   ("u1FBE8"%string, 0x1FBE8%Z,
    [Ellipse (1 # 2) 0 (1 # 2) (1 # 2) 0 0 0 0 1 1])].

(** The code points of the glyphs [slcgen] makes after the two blank
    glyphs, in the order of the calls to [mkglyph]; the three loops of the
    catalogue appear as ranges. *)
Definition slcgen_codepoints : list Z :=
  (
  [
     0x23B8; 0x23B9; 0x23BA; 0x23BB; 0x23BC; 0x23BD; 0x2500; 0x2501;
     0x2502; 0x2503; 0x2504; 0x2505; 0x2506; 0x2507; 0x2508; 0x2509;
     0x250A; 0x250B; 0x250C; 0x250D; 0x250E; 0x250F; 0x2510; 0x2511;
     0x2512; 0x2513; 0x2514; 0x2515; 0x2516; 0x2517; 0x2518; 0x2519;
     0x251A; 0x251B; 0x251C; 0x251D; 0x251E; 0x251F; 0x2520; 0x2521;
     0x2522; 0x2523; 0x2524; 0x2525; 0x2526; 0x2527; 0x2528; 0x2529;
     0x252A; 0x252B; 0x252C; 0x252D; 0x252E; 0x252F; 0x2530; 0x2531;
     0x2532; 0x2533; 0x2534; 0x2535; 0x2536; 0x2537; 0x2538; 0x2539;
     0x253A; 0x253B; 0x253C; 0x253D; 0x253E; 0x253F; 0x2540; 0x2541;
     0x2542; 0x2543; 0x2544; 0x2545; 0x2546; 0x2547; 0x2548; 0x2549;
     0x254A; 0x254B; 0x254C; 0x254D; 0x254E; 0x254F; 0x2550; 0x2551;
     0x2552; 0x2553; 0x2554; 0x2555; 0x2556; 0x2557; 0x2558; 0x2559;
     0x255A; 0x255B; 0x255C; 0x255D; 0x255E; 0x255F; 0x2560; 0x2561;
     0x2562; 0x2563; 0x2564; 0x2565; 0x2566; 0x2567; 0x2568; 0x2569;
     0x256A; 0x256B; 0x256C; 0x256D; 0x256E; 0x256F; 0x2570; 0x2571;
     0x2572; 0x2573; 0x2574; 0x2575; 0x2576; 0x2577; 0x2578; 0x2579;
     0x257A; 0x257B; 0x257C; 0x257D; 0x257E; 0x257F; 0x2580; 0x2581;
     0x2582; 0x2583; 0x2584; 0x2585; 0x2586; 0x2587; 0x2588; 0x2589;
     0x258A; 0x258B; 0x258C; 0x258D; 0x258E; 0x258F; 0x2590; 0x2591;
     0x2592; 0x2593; 0x2594; 0x2595; 0x2596; 0x2597; 0x2598; 0x2599;
     0x259A; 0x259B; 0x259C; 0x259D; 0x259E; 0x259F; 0x25E2; 0x25E3;
     0x25E4; 0x25E5; 0x27CA; 0x1FB00; 0x1FB01; 0x1FB02; 0x1FB03; 0x1FB04;
     0x1FB05; 0x1FB06; 0x1FB07; 0x1FB08; 0x1FB09; 0x1FB0A; 0x1FB0B; 0x1FB0C;
     0x1FB0D; 0x1FB0E; 0x1FB0F; 0x1FB10; 0x1FB11; 0x1FB12; 0x1FB13; 0x1FB14;
     0x1FB15; 0x1FB16; 0x1FB17; 0x1FB18; 0x1FB19; 0x1FB1A; 0x1FB1B; 0x1FB1C;
     0x1FB1D; 0x1FB1E; 0x1FB1F; 0x1FB20; 0x1FB21; 0x1FB22; 0x1FB23; 0x1FB24;
     0x1FB25; 0x1FB26; 0x1FB27; 0x1FB28; 0x1FB29; 0x1FB2A; 0x1FB2B; 0x1FB2C;
     0x1FB2D; 0x1FB2E; 0x1FB2F; 0x1FB30; 0x1FB31; 0x1FB32; 0x1FB33; 0x1FB34;
     0x1FB35; 0x1FB36; 0x1FB37; 0x1FB38; 0x1FB39; 0x1FB3A; 0x1FB3B; 0x1FB3C;
     0x1FB3D; 0x1FB3E; 0x1FB3F; 0x1FB40; 0x1FB41; 0x1FB42; 0x1FB43; 0x1FB44;
     0x1FB45; 0x1FB46; 0x1FB47; 0x1FB48; 0x1FB49; 0x1FB4A; 0x1FB4B; 0x1FB4C;
     0x1FB4D; 0x1FB4E; 0x1FB4F; 0x1FB50; 0x1FB51; 0x1FB52; 0x1FB53; 0x1FB54;
     0x1FB55; 0x1FB56; 0x1FB57; 0x1FB58; 0x1FB59; 0x1FB5A; 0x1FB5B; 0x1FB5C;
     0x1FB5D; 0x1FB5E; 0x1FB5F; 0x1FB60; 0x1FB61; 0x1FB62; 0x1FB63; 0x1FB64;
     0x1FB65; 0x1FB66; 0x1FB67; 0x1FB68; 0x1FB69; 0x1FB6A; 0x1FB6B; 0x1FB6C;
     0x1FB6D; 0x1FB6E; 0x1FB6F; 0x1FB70; 0x1FB71; 0x1FB72; 0x1FB73; 0x1FB74;
     0x1FB75; 0x1FB76; 0x1FB77; 0x1FB78; 0x1FB79; 0x1FB7A; 0x1FB7B; 0x1FB7C;
     0x1FB7D; 0x1FB7E; 0x1FB7F; 0x1FB80; 0x1FB81; 0x1FB82; 0x1FB83; 0x1FB84;
     0x1FB85; 0x1FB86; 0x1FB87; 0x1FB88; 0x1FB89; 0x1FB8A; 0x1FB8B; 0x1FB8C;
     0x1FB8D; 0x1FB8E; 0x1FB8F; 0x1FB90; 0x1FB91; 0x1FB92; 0x1FB93; 0x1FB94;
     0x1FB95; 0x1FB96; 0x1FB97; 0x1FB98; 0x1FB99; 0x1FB9A; 0x1FB9B; 0x1FB9C;
     0x1FB9D; 0x1FB9E; 0x1FB9F; 0x1FBA0; 0x1FBA1; 0x1FBA2; 0x1FBA3; 0x1FBA4;
     0x1FBA5; 0x1FBA6; 0x1FBA7; 0x1FBA8; 0x1FBA9; 0x1FBAA; 0x1FBAB; 0x1FBAC;
     0x1FBAD; 0x1FBAE; 0x1FBAF; 0x1FBCE; 0x1FBCF; 0x1FBD0; 0x1FBD1; 0x1FBD2;
     0x1FBD3; 0x1FBD4; 0x1FBD5; 0x1FBD6; 0x1FBD7; 0x1FBD8; 0x1FBD9; 0x1FBDA;
     0x1FBDB; 0x1FBDC; 0x1FBDD; 0x1FBDE; 0x1FBDF; 0x1FBE0; 0x1FBE1; 0x1FBE2;
     0x1FBE3; 0x1FBE4; 0x1FBE5; 0x1FBE6; 0x1FBE7; 0x1FBE8; 0x1FBE9; 0x1FBEA;
     0x1FBEB; 0x1FBEC; 0x1FBED; 0x1FBEE; 0x1FBEF; 0x1CC1B; 0x1CC1C; 0x1CC1D;
     0x1CC1E; 0x1CC1F; 0x1CC20
  ]
  ++
  (List.map (fun i => 0x1CC20 + i) (List.map Z.of_nat (seq 1 15)))
  ++
  [
     0x1CC30; 0x1CC31; 0x1CC32; 0x1CC33; 0x1CC34; 0x1CC35; 0x1CC36; 0x1CC37;
     0x1CC38; 0x1CC39; 0x1CC3A; 0x1CC3B; 0x1CC3C; 0x1CC3D; 0x1CC3E; 0x1CC3F
  ]
  ++
  (List.map (fun i => 0x1CD00 + i) (range 230))
  ++
  [
     0x1CDF4; 0x1CE0D; 0x1CE0E; 0x1CE0F; 0x1CE10; 0x1CE11; 0x1CE12; 0x1CE13;
     0x1CE14; 0x1CE15; 0x1CE16; 0x1CE17; 0x1CE18; 0x1CE19; 0x1CE1A; 0x1CE1B;
     0x1CE1C; 0x1CE1D; 0x1CE1E; 0x1CE1F; 0x1CE20; 0x1CE21; 0x1CE22; 0x1CE23;
     0x1CE24; 0x1CE25; 0x1CE26; 0x1CE27; 0x1CE28; 0x1CE29; 0x1CE2A; 0x1CE2B;
     0x1CE2C; 0x1CE2D; 0x1CE2E; 0x1CE2F; 0x1CE30; 0x1CE31; 0x1CE32; 0x1CE33;
     0x1CE34; 0x1CE35; 0x1CE36; 0x1CE37; 0x1CE38; 0x1CE39; 0x1CE3A; 0x1CE3B;
     0x1CE3C; 0x1CE3D; 0x1CE3E; 0x1CE3F; 0x1CE40; 0x1CE41; 0x1CE42; 0x1CE43;
     0x1CE44; 0x1CE45; 0x1CE46; 0x1CE47; 0x1CE48; 0x1CE49; 0x1CE4A; 0x1CE4B;
     0x1CE4C; 0x1CE4D; 0x1CE4E; 0x1CE4F; 0x1CE50
  ]
  ++
  (List.map (fun i => 0x1CE50 + i) (List.map Z.of_nat (seq 1 63)))
  ++
  [
     0x1CE90; 0x1CE91; 0x1CE92; 0x1CE93; 0x1CE94; 0x1CE95; 0x1CE96; 0x1CE97;
     0x1CE98; 0x1CE99; 0x1CE9A; 0x1CE9B; 0x1CE9C; 0x1CE9D; 0x1CE9E; 0x1CE9F;
     0x1CEA0; 0x1CEA1; 0x1CEA2; 0x1CEA3; 0x1CEA4; 0x1CEA5; 0x1CEA6; 0x1CEA7;
     0x1CEA8; 0x1CEA9; 0x1CEAA; 0x1CEAB; 0x1CEAC; 0x1CEAD; 0x1CEAE; 0x1CEAF
  ]
  )%Z.

(** [width=0], as the command line [-w 0] passes it. *)
Definition kwargs_zero_width : kwargs := set_metrics None None (Some 0) no_kwargs.

(** The font holding blank glyphs of advance width [w] at the given code
    points. *)
Definition blank_font (w : Q) (cps : list Z) : font :=
  fold_left (fun fnt cp => <[cp := blank_glyph w]> fnt) cps ∅.

(** The strokes of all lines of one builder call, in order. *)
Fixpoint all_strokes (p : Params) (lines : list (list point)) (weight : Q)
    (truncate : bool) : result (list shape) :=
  match lines with
  | [] => Ok []
  | line :: rest =>
      do s <- stroked_line p line weight truncate;
      do ss <- all_strokes p rest weight truncate;
      Ok (s :: ss)
  end.

(** The glyph after the given strokes have been drawn into it. *)
Definition with_strokes (ss : list shape) (g : glyph) : glyph :=
  on_layer (fun s => fold_left DrawGlyph ss s) g.

(** The code point of a catalogue line. *)
Definition entry_codepoint (e : entry) : Z := snd (fst e).

(** The dark shade of a 2 by 2 grid under the default parameters, as
    re-drawn from contours read back unaltered: the cut cell and the full
    square. *)
Definition dkshade_2_2_redrawn : glyph :=
  rect default_params 0 0 1 1 (cut_cell default_params 2 2 0 0 (blank_glyph 1000)).

(* ================================================================= *)
(** ** More keyword-argument updates *)

Definition set_diagonal (angle fill space : option Q) (kw : kwargs) : kwargs :=
  {| kw_ascent := kw_ascent kw; kw_descent := kw_descent kw;
     kw_width := kw_width kw;
     kw_pixelHeight := kw_pixelHeight kw; kw_pixelWidth := kw_pixelWidth kw;
     kw_diagonalFillAngle := angle;
     kw_diagonalFillWeight := fill;
     kw_diagonalSpaceWeight := space;
     kw_boxLightWeight := kw_boxLightWeight kw;
     kw_boxHeavyWeight := kw_boxHeavyWeight kw;
     kw_boxDoubleGap := kw_boxDoubleGap kw;
     kw_boxArcRadius := kw_boxArcRadius kw;
     kw_boxTickLength := kw_boxTickLength kw;
     kw_boxLineTruncate := kw_boxLineTruncate kw;
     kw_separationTop := kw_separationTop kw;
     kw_separationRight := kw_separationRight kw;
     kw_separationBottom := kw_separationBottom kw;
     kw_separationLeft := kw_separationLeft kw;
     kw_file := kw_file kw |}.

Definition set_box (light heavy gap radius : option Q) (truncate : option bool)
    (kw : kwargs) : kwargs :=
  {| kw_ascent := kw_ascent kw; kw_descent := kw_descent kw;
     kw_width := kw_width kw;
     kw_pixelHeight := kw_pixelHeight kw; kw_pixelWidth := kw_pixelWidth kw;
     kw_diagonalFillAngle := kw_diagonalFillAngle kw;
     kw_diagonalFillWeight := kw_diagonalFillWeight kw;
     kw_diagonalSpaceWeight := kw_diagonalSpaceWeight kw;
     kw_boxLightWeight := light;
     kw_boxHeavyWeight := heavy;
     kw_boxDoubleGap := gap;
     kw_boxArcRadius := radius;
     kw_boxTickLength := kw_boxTickLength kw;
     kw_boxLineTruncate := truncate;
     kw_separationTop := kw_separationTop kw;
     kw_separationRight := kw_separationRight kw;
     kw_separationBottom := kw_separationBottom kw;
     kw_separationLeft := kw_separationLeft kw;
     kw_file := kw_file kw |}.

Definition set_file (f : option string) (kw : kwargs) : kwargs :=
  {| kw_ascent := kw_ascent kw; kw_descent := kw_descent kw;
     kw_width := kw_width kw;
     kw_pixelHeight := kw_pixelHeight kw; kw_pixelWidth := kw_pixelWidth kw;
     kw_diagonalFillAngle := kw_diagonalFillAngle kw;
     kw_diagonalFillWeight := kw_diagonalFillWeight kw;
     kw_diagonalSpaceWeight := kw_diagonalSpaceWeight kw;
     kw_boxLightWeight := kw_boxLightWeight kw;
     kw_boxHeavyWeight := kw_boxHeavyWeight kw;
     kw_boxDoubleGap := kw_boxDoubleGap kw;
     kw_boxArcRadius := kw_boxArcRadius kw;
     kw_boxTickLength := kw_boxTickLength kw;
     kw_boxLineTruncate := kw_boxLineTruncate kw;
     kw_separationTop := kw_separationTop kw;
     kw_separationRight := kw_separationRight kw;
     kw_separationBottom := kw_separationBottom kw;
     kw_separationLeft := kw_separationLeft kw;
     kw_file := f |}.

(** Every attribute of [p] passed back as an explicit keyword argument. *)
Definition explicit (p : Params) : kwargs :=
  {| kw_ascent := Some (ascent p); kw_descent := Some (descent p);
     kw_width := Some (width p);
     kw_pixelHeight := Some (pixelHeight p);
     kw_pixelWidth := Some (pixelWidth p);
     kw_diagonalFillAngle := Some (diagonalFillAngle p);
     kw_diagonalFillWeight := Some (diagonalFillWeight p);
     kw_diagonalSpaceWeight := Some (diagonalSpaceWeight p);
     kw_boxLightWeight := Some (boxLightWeight p);
     kw_boxHeavyWeight := Some (boxHeavyWeight p);
     kw_boxDoubleGap := Some (boxDoubleGap p);
     kw_boxArcRadius := Some (boxArcRadius p);
     kw_boxTickLength := Some (boxTickLength p);
     kw_boxLineTruncate := Some (boxLineTruncate p);
     kw_separationTop := Some (separationTop p);
     kw_separationRight := Some (separationRight p);
     kw_separationBottom := Some (separationBottom p);
     kw_separationLeft := Some (separationLeft p);
     kw_file := Some (file p) |}.

(** [len(kwargs)]: the number of keys present. *)
Definition kwargs_len (kw : kwargs) : nat :=
  ((if given (kw_ascent kw) then 1 else 0)
   + (if given (kw_descent kw) then 1 else 0)
   + (if given (kw_width kw) then 1 else 0)
   + (if given (kw_pixelHeight kw) then 1 else 0)
   + (if given (kw_pixelWidth kw) then 1 else 0)
   + (if given (kw_diagonalFillAngle kw) then 1 else 0)
   + (if given (kw_diagonalFillWeight kw) then 1 else 0)
   + (if given (kw_diagonalSpaceWeight kw) then 1 else 0)
   + (if given (kw_boxLightWeight kw) then 1 else 0)
   + (if given (kw_boxHeavyWeight kw) then 1 else 0)
   + (if given (kw_boxDoubleGap kw) then 1 else 0)
   + (if given (kw_boxArcRadius kw) then 1 else 0)
   + (if given (kw_boxTickLength kw) then 1 else 0)
   + (if given (kw_boxLineTruncate kw) then 1 else 0)
   + (if given (kw_separationTop kw) then 1 else 0)
   + (if given (kw_separationRight kw) then 1 else 0)
   + (if given (kw_separationBottom kw) then 1 else 0)
   + (if given (kw_separationLeft kw) then 1 else 0)
   + (if given (kw_file kw) then 1 else 0))%nat.

(* ================================================================= *)
(** ** The command line: function [main] *)

(** How [main] ends: it prints the usage text and returns, or it calls
    [slcgen] with the keyword arguments it collected. *)
Inductive outcome : Type :=
| Help
| Run (kw : kwargs).

Section CommandLine.

(** The builtins [int] and [float] applied to a string; [None] stands
    for [ValueError].  Strings that [float] turns into an infinity or a
    NaN have no counterpart among the rationals and are not covered. *)
Variable py_int : string -> option Z.
Variable py_float : string -> option Q.

(** [abs(int(arg))], for a key holding a length. *)
Definition abs_int (arg : string) : option Q :=
  option_map (fun z => inject_Z (Z.abs z)) (py_int arg).

(** [abs(int(arg))], for the two pixel counts. *)
Definition abs_count (arg : string) : option Z :=
  option_map Z.abs (py_int arg).

(** [abs(float(arg))] *)
Definition abs_float (arg : string) : option Q :=
  option_map Qabs (py_float arg).

(** The [elif] chain of [main]: what the value [arg] of the flag
    [currentFlag] does to [kwargs]; [None] when the chain ends in
    [help()], through an unknown flag, an unknown line-ending style or a
    [ValueError]. *)
Definition store (currentFlag arg : string) (kw : kwargs) : option kwargs :=
  if (currentFlag =? "-a")%string then
    option_map (fun v => set_metrics (Some v) (kw_descent kw) (kw_width kw) kw)
               (abs_int arg)
  else if (currentFlag =? "-d")%string then
    option_map (fun v => set_metrics (kw_ascent kw) (Some v) (kw_width kw) kw)
               (abs_int arg)
  else if (currentFlag =? "-w")%string then
    option_map (fun v => set_metrics (kw_ascent kw) (kw_descent kw) (Some v) kw)
               (abs_int arg)
  else if (currentFlag =? "-ph")%string then
    option_map (fun v => set_pixels (Some v) (kw_pixelWidth kw) kw) (abs_count arg)
  else if (currentFlag =? "-pw")%string then
    option_map (fun v => set_pixels (kw_pixelHeight kw) (Some v) kw) (abs_count arg)
  else if (currentFlag =? "-da")%string then
    option_map (fun v => set_diagonal (Some v) (kw_diagonalFillWeight kw)
                           (kw_diagonalSpaceWeight kw) kw)
               (abs_float arg)
  else if (currentFlag =? "-df")%string then
    option_map (fun v => set_diagonal (kw_diagonalFillAngle kw) (Some v)
                           (kw_diagonalSpaceWeight kw) kw)
               (abs_float arg)
  else if (currentFlag =? "-ds")%string then
    option_map (fun v => set_diagonal (kw_diagonalFillAngle kw)
                           (kw_diagonalFillWeight kw) (Some v) kw)
               (abs_float arg)
  else if (currentFlag =? "-bl")%string then
    option_map (fun v => set_box (Some v) (kw_boxHeavyWeight kw) (kw_boxDoubleGap kw)
                           (kw_boxArcRadius kw) (kw_boxLineTruncate kw) kw)
               (abs_int arg)
  else if (currentFlag =? "-bh")%string then
    option_map (fun v => set_box (kw_boxLightWeight kw) (Some v) (kw_boxDoubleGap kw)
                           (kw_boxArcRadius kw) (kw_boxLineTruncate kw) kw)
               (abs_int arg)
  else if (currentFlag =? "-bg")%string then
    option_map (fun v => set_box (kw_boxLightWeight kw) (kw_boxHeavyWeight kw) (Some v)
                           (kw_boxArcRadius kw) (kw_boxLineTruncate kw) kw)
               (abs_int arg)
  else if (currentFlag =? "-br")%string then
    option_map (fun v => set_box (kw_boxLightWeight kw) (kw_boxHeavyWeight kw)
                           (kw_boxDoubleGap kw) (Some v) (kw_boxLineTruncate kw) kw)
               (abs_int arg)
  else if (currentFlag =? "-bt")%string then
    if (arg =? "truncate")%string then
      Some (set_box (kw_boxLightWeight kw) (kw_boxHeavyWeight kw) (kw_boxDoubleGap kw)
              (kw_boxArcRadius kw) (Some true) kw)
    else if (arg =? "cute")%string then
      Some (set_box (kw_boxLightWeight kw) (kw_boxHeavyWeight kw) (kw_boxDoubleGap kw)
              (kw_boxArcRadius kw) (Some false) kw)
    else None
  else if (currentFlag =? "-st")%string then
    option_map (fun v => set_separation (Some v) (kw_separationRight kw)
                           (kw_separationBottom kw) (kw_separationLeft kw) kw)
               (abs_int arg)
  else if (currentFlag =? "-sr")%string then
    option_map (fun v => set_separation (kw_separationTop kw) (Some v)
                           (kw_separationBottom kw) (kw_separationLeft kw) kw)
               (abs_int arg)
  else if (currentFlag =? "-sb")%string then
    option_map (fun v => set_separation (kw_separationTop kw) (kw_separationRight kw)
                           (Some v) (kw_separationLeft kw) kw)
               (abs_int arg)
  else if (currentFlag =? "-sl")%string then
    option_map (fun v => set_separation (kw_separationTop kw) (kw_separationRight kw)
                           (kw_separationBottom kw) (Some v) kw)
               (abs_int arg)
  else if (currentFlag =? "-sv")%string then
    option_map (fun v => set_separation (Some v) (kw_separationRight kw)
                           (Some v) (kw_separationLeft kw) kw)
               (abs_int arg)
  else if (currentFlag =? "-sh")%string then
    option_map (fun v => set_separation (kw_separationTop kw) (Some v)
                           (kw_separationBottom kw) (Some v) kw)
               (abs_int arg)
  else if (currentFlag =? "-sp")%string then
    option_map (fun v => set_separation (Some v) (Some v) (Some v) (Some v) kw)
               (abs_int arg)
  else if (currentFlag =? "-o")%string then
    Some (set_file (Some arg) kw)
  else None.

(** The loop of [main] over [sys.argv[1:]], with its two variables, and
    the test after the loop. *)
Fixpoint main_loop (args : list string) (kw : kwargs) (currentFlag : option string)
  : outcome :=
  match args with
  | [] =>
      if (kwargs_len kw =? 0)%nat || given currentFlag then Help else Run kw
  | arg :: rest =>
      match currentFlag with
      | None =>
          if String.prefix "-" arg then main_loop rest kw (Some arg) else Help
      | Some flag =>
          match store flag arg kw with
          | Some kw' => main_loop rest kw' None
          | None => Help
          end
      end
  end.

Definition main (argv : list string) : outcome :=
  main_loop (tl argv) no_kwargs None.

End CommandLine.

(** *** Reference definitions for the command line *)

(** The arguments as flag and value pairs. *)
Definition flatten_pairs (pairs : list (string * string)) : list string :=
  flat_map (fun fv => [fst fv; snd fv]) pairs.

(** The pairs stored one after the other; [None] as soon as one of them
    is refused. *)
Fixpoint store_all (py_int : string -> option Z) (py_float : string -> option Q)
    (pairs : list (string * string)) (kw : kwargs) : option kwargs :=
  match pairs with
  | [] => Some kw
  | fv :: rest =>
      match store py_int py_float (fst fv) (snd fv) kw with
      | Some kw' => store_all py_int py_float rest kw'
      | None => None
      end
  end.

Definition nonneg (o : option Q) : Prop :=
  match o with
  | Some v => 0 <= v
  | None => True
  end.

Definition nonneg_count (o : option Z) : Prop :=
  match o with
  | Some v => (0 <= v)%Z
  | None => True
  end.

(** No number among the keyword arguments is negative. *)
Definition nonneg_kwargs (kw : kwargs) : Prop :=
  nonneg (kw_ascent kw) /\ nonneg (kw_descent kw) /\ nonneg (kw_width kw) /\
  nonneg_count (kw_pixelHeight kw) /\ nonneg_count (kw_pixelWidth kw) /\
  nonneg (kw_diagonalFillAngle kw) /\
  nonneg (kw_diagonalFillWeight kw) /\ nonneg (kw_diagonalSpaceWeight kw) /\
  nonneg (kw_boxLightWeight kw) /\ nonneg (kw_boxHeavyWeight kw) /\
  nonneg (kw_boxDoubleGap kw) /\ nonneg (kw_boxArcRadius kw) /\
  nonneg (kw_separationTop kw) /\ nonneg (kw_separationRight kw) /\
  nonneg (kw_separationBottom kw) /\ nonneg (kw_separationLeft kw).

(** Stand-ins for [int] and [float] on optionally signed decimal
    numerals in ASCII, where they agree with the builtins; they are used
    to run [main] on such arguments only. *)
Definition digit_of (c : Ascii.ascii) : option Z :=
  let n := Ascii.nat_of_ascii c in
  if ((48 <=? n) && (n <=? 57))%nat then Some (Z.of_nat (n - 48)) else None.

Fixpoint digits_value (s : string) (acc : Z) : option Z :=
  match s with
  | EmptyString => Some acc
  | String c rest =>
      match digit_of c with
      | Some d => digits_value rest (acc * 10 + d)%Z
      | None => None
      end
  end.

Definition decimal_int (s : string) : option Z :=
  match s with
  | EmptyString => None
  | String c rest =>
      if (Ascii.nat_of_ascii c =? 45)%nat then
        match rest with
        | EmptyString => None
        | _ => option_map Z.opp (digits_value rest 0)
        end
      else if (Ascii.nat_of_ascii c =? 43)%nat then
        match rest with
        | EmptyString => None
        | _ => digits_value rest 0
        end
      else digits_value s 0
  end.

Definition decimal_float (s : string) : option Q :=
  option_map inject_Z (decimal_int s).

(* ================================================================= *)
(** ** Reference definitions for the mosaics and the partial shades *)

(** The cells [bitmap] and [sepmap] paint: the loops take the bits of
    [n] from the least significant one, row by row, so bit
    [y * cols + x] belongs to cell [(x, y)]. *)
Definition bitmap_cells (rows cols n : Z) : list (Z * Z) :=
  List.filter (fun c => Z.testbit n (snd c * cols + fst c)) (grid rows cols).

(** [bitmap] up to its last [simplify]. *)
Definition bitmap_outline (p : Params) (rows cols n : Z) (g : glyph) : glyph :=
  let '(g1, _) :=
    for_range rows (fun y =>
      for_range cols (fun x '(g', n') =>
        ((if truthy (Z.land n' 1) then cell p rows cols x y g' else g'),
         Z.shiftr n' 1))) (g, n) in
  on_layer Simplify (on_layer RemoveOverlap g1).

(** The rectangle [sepmap] draws for cell [(x, y)]: the cell, moved in
    from each side by the padding of that side. *)
Definition sep_rect (p : Params) (rows cols x y : Z) (g : glyph) : glyph :=
  rawrect (width p * inject_Z x / inject_Z cols + separationLeft p)
          (ascent p - height p * inject_Z y / inject_Z rows - separationTop p)
          (width p * inject_Z (x + 1) / inject_Z cols - separationRight p)
          (ascent p - height p * inject_Z (y + 1) / inject_Z rows
           + separationBottom p) g.

(** Winding number that the rectangle of cell [c] of [sepmap] adds. *)
Definition sep_wind (p : Params) (rows cols : Z) (q : point) (c : Z * Z) : Z :=
  rect_wind
    (Rq (width p * inject_Z (fst c) / inject_Z cols + separationLeft p))
    (Rq (ascent p - height p * inject_Z (snd c) / inject_Z rows - separationTop p))
    (Rq (width p * inject_Z (fst c + 1) / inject_Z cols - separationRight p))
    (Rq (ascent p - height p * inject_Z (snd c + 1) / inject_Z rows
         + separationBottom p)) q.

(** No padding is negative, and none is larger than a cell of the
    [rows] by [cols] grid. *)
Definition separations_fit (p : Params) (rows cols : Z) : Prop :=
  (0 < rows)%Z /\ (0 < cols)%Z /\
  0 <= separationLeft p <= width p / inject_Z cols /\
  0 <= separationRight p <= width p / inject_Z cols /\
  0 <= separationTop p <= height p / inject_Z rows /\
  0 <= separationBottom p <= height p / inject_Z rows.

(** The box of the rectangle [sepmap] hands to [rawrect] for cell
    [(x, y)], its corners rounded as [rawrect] rounds them. *)
Definition sep_box (p : Params) (rows cols x y : Z) (q : point) : Prop :=
  in_box
    (Rq (width p * inject_Z x / inject_Z cols + separationLeft p))
    (Rq (ascent p - height p * inject_Z y / inject_Z rows - separationTop p))
    (Rq (width p * inject_Z (x + 1) / inject_Z cols - separationRight p))
    (Rq (ascent p - height p * inject_Z (y + 1) / inject_Z rows
         + separationBottom p)) q.

(** The same box without the paddings: cell [(x, y)] between the grid
    lines as [sepmap] computes them. *)
Definition sep_cell_box (p : Params) (rows cols x y : Z) (q : point) : Prop :=
  in_box
    (Rq (width p * inject_Z x / inject_Z cols))
    (Rq (ascent p - height p * inject_Z y / inject_Z rows))
    (Rq (width p * inject_Z (x + 1) / inject_Z cols))
    (Rq (ascent p - height p * inject_Z (y + 1) / inject_Z rows)) q.

(** [shadepart] up to its last [simplify]. *)
Definition shadepart_outline (p : Params) (rows cols : Z) (inverse : bool)
    (points : list point) (union : bool) (g : glyph) : result glyph :=
  let g1 := shade p rows cols inverse g in
  do g2 <- poly p points g1;
  let g3 := if union then on_layer RemoveOverlap g2 else on_layer Intersect g2 in
  Ok (on_layer Simplify g3).

(** The corners of an upright rectangle in the order [rect] draws them. *)
Definition corners (x1 y1 x2 y2 : Q) : list point :=
  [(x1, y1); (x2, y1); (x2, y2); (x1, y2)].

(* ================================================================= *)
(** ** Reference definitions for the arcs *)

(** Two opposite corners, as [rawrect] takes them. *)
Definition box : Type := (Q * Q * Q * Q)%type.

Definition rawrect_of (b : box) (g : glyph) : glyph :=
  let '(x1, y1, x2, y2) := b in rawrect x1 y1 x2 y2 g.

(** The half-open rectangle [rawrect] fills for these corners. *)
Definition box_of (b : box) (q : point) : Prop :=
  let '(x1, y1, x2, y2) := b in in_box (Rq x1) (Rq y1) (Rq x2) (Rq y2) q.

(** The first call of [boxdrawarc]: the ring about the corner
    [(dx, dy)] of its clip rectangle, cut to that rectangle. *)
Definition arc_ring (p : Params) (dx dy : Q) (g : glyph) : glyph :=
  let w := width p in
  let a := ascent p in
  let h := height p in
  let r := boxArcRadius p in
  let l := boxLightWeight p in
  rawellipse (w / 2 + r * dx) (a - h / 2 - r * dy)
             (r + l / 2) (r + l / 2) (r - l / 2) (r - l / 2)
             (w / 2 - r) (a - h / 2 + r) (w / 2 + r) (a - h / 2 - r) g.

(** The clip rectangle of the ring. *)
Definition arc_clip (p : Params) : box :=
  (width p / 2 - boxArcRadius p,
   ascent p - height p / 2 + boxArcRadius p,
   width p / 2 + boxArcRadius p,
   ascent p - height p / 2 - boxArcRadius p).

(** The rectangles of the four [if]s that follow the ring, in their
    order: towards the left, right, upper and lower edge of the cell. *)
Definition arc_stubs (p : Params) (dx dy : Q) : list box :=
  let w := width p in
  let a := ascent p in
  let h := height p in
  let r := boxArcRadius p in
  let l := boxLightWeight p in
  (if Qltb dx 0 && Qltb 0 (w / 2 - r)
   then [(0, a - h / 2 + l / 2, w / 2 - r, a - h / 2 - l / 2)] else [])
  ++ (if Qltb 0 dx && Qltb (w / 2 + r) w
      then [(w / 2 + r, a - h / 2 + l / 2, w, a - h / 2 - l / 2)] else [])
  ++ (if Qltb dy 0 && Qltb (a - h / 2 + r) a
      then [(w / 2 - l / 2, a, w / 2 + l / 2, a - h / 2 + r)] else [])
  ++ (if Qltb 0 dy && Qltb (- descent p) (a - h / 2 - r)
      then [(w / 2 - l / 2, a - h / 2 - r, w / 2 + l / 2, - descent p)] else []).

(** Keyword arguments [boxArcRadius=300]: an arc that ends short of the
    edges of the default cell. *)
Definition kwargs_radius_300 : kwargs :=
  set_box None None None (Some 300) None no_kwargs.

(* ================================================================= *)
(** ** Reference definitions for the font as a whole *)

(** The layer is built on integer coordinates: it holds closed polygons
    drawn from integer points, and [simplify] calls, on an empty layer or
    on a layer that [round()] was applied to.  Whatever unit shape,
    overlap removal, intersection, transformation, stroke or copy of
    another glyph went into it lies below a [round()]. *)
Fixpoint integer_built (s : shape) : Prop :=
  match s with
  | Blank => True
  | Draw s' (Closed pts) =>
      Forall (fun q => is_integer (fst q) /\ is_integer (snd q)) pts /\
      integer_built s'
  | Simplify s' => integer_built s'
  | RoundToInt _ => True
  | _ => False
  end.

(** A catalogue line under another glyph name. *)
Definition rename (r : string -> string) (e : entry) : entry :=
  (r (fst (fst e)), snd (fst e), snd e).

(** The font as [slcgen] has it before the catalogue: the space and the
    no-break space, both blank. *)
Definition base_font (FF : FontForge) (p : Params) : font :=
  mkglyph FF p "uni00A0" 160%Z (mkglyph FF p "space" 32%Z ∅).

(** What one builder call does to the glyph it is called on, the font
    left aside: the strokes of the box-drawing builders are those of
    [all_strokes], drawn into the glyph one after the other and merged. *)
Definition glyph_step (M : Math) (FF : FontForge) (p : Params) (st : step)
    (g : glyph) : result glyph :=
  let merged ss :=
    _stripcontrolpoints FF p
      (on_layer Simplify (on_layer RemoveOverlap (with_strokes ss g))) in
  match st with
  | Rect x1 y1 x2 y2 => Ok (rect p x1 y1 x2 y2 g)
  | Poly points => poly p points g
  | Shade rows cols inverse => Ok (shade p rows cols inverse g)
  | ShadePart rows cols inverse points union =>
      shadepart FF p rows cols inverse points union g
  | LtShade rows cols => Ok (ltshade p rows cols g)
  | DkShade rows cols => dkshade FF p rows cols g
  | DiagFill angle => diagfill M FF p angle g
  | Bitmap rows cols n => bitmap FF p rows cols n g
  | SepMap rows cols n => Ok (sepmap p rows cols n g)
  | BoxDrawLight lines =>
      do ss <- all_strokes p lines (boxLightWeight p) false; merged ss
  | BoxDrawHeavy lines =>
      do ss <- all_strokes p lines (boxHeavyWeight p) false; merged ss
  | BoxDrawMixed lightLines heavyLines =>
      do ss <- all_strokes p lightLines (boxLightWeight p) false;
      do ts <- all_strokes p heavyLines (boxHeavyWeight p) false;
      merged (ss ++ ts)
  | BoxDrawDiag lines =>
      do ss <- all_strokes p lines (boxLightWeight p) (boxLineTruncate p);
      merged ss
  | Ellipse cx cy orx ory irx iry bx1 by1 bx2 by2 =>
      Ok (ellipse p cx cy orx ory irx iry bx1 by1 bx2 by2 g)
  | BoxDrawArc dx dy => Ok (boxdrawarc p dx dy g)
  end.

(** The glyph a catalogue line draws, starting from a blank glyph. *)
Definition entry_glyph (M : Math) (FF : FontForge) (p : Params) (e : entry)
  : result glyph :=
  for_each (snd e) (glyph_step M FF p) (blank_glyph (width p)).

(* ================================================================= *)
(** * Properties *)

(** ** Rounding *)

Lemma py_round_inject_Z (z : Z) : py_round (inject_Z z) = z.
Proof.
  unfold py_round. rewrite Qfloor_Z.
  destruct (Qcompare_spec (inject_Z z - inject_Z z) (1 # 2)) as [H|H|H];
    [exfalso; lra | reflexivity | exfalso; lra].
Qed.

Lemma py_round_bounds (q : Q) :
  (Qfloor q <= py_round q <= Qfloor q + 1)%Z.
Proof.
  unfold py_round.
  destruct (Qcompare (q - inject_Z (Qfloor q)) (1 # 2)); [|lia|lia].
  destruct (Z.even (Qfloor q)); lia.
Qed.

Lemma py_round_le (a b : Q) : a <= b -> (py_round a <= py_round b)%Z.
Proof.
  intros Hab.
  pose proof (Qfloor_resp_le _ _ Hab) as Hf.
  destruct (Z.eq_dec (Qfloor a) (Qfloor b)) as [E|N].
  - unfold py_round. rewrite <- E.
    destruct (Qcompare_spec (a - inject_Z (Qfloor a)) (1 # 2)) as [Ha|Ha|Ha];
      destruct (Qcompare_spec (b - inject_Z (Qfloor a)) (1 # 2)) as [Hb|Hb|Hb];
      try (destruct (Z.even (Qfloor a))); try lia; exfalso; lra.
  - pose proof (py_round_bounds a). pose proof (py_round_bounds b). lia.
Qed.

Lemma py_round_comp (a b : Q) : a == b -> py_round a = py_round b.
Proof.
  intros E. apply Z.le_antisymm; apply py_round_le; lra.
Qed.

Lemma py_round_integer (v : Q) : is_integer v -> inject_Z (py_round v) == v.
Proof.
  unfold is_integer. intros H.
  rewrite <- (py_round_comp _ _ H), py_round_inject_Z. exact H.
Qed.

(** ** Parameter resolution *)

Section ResolverProperties.
Variable M : Math.

(** C8.  Metric resolution follows the fallback chain: [ascent] is its
    override, else four times [descent] when that is given, else 800;
    [descent] is its override, else [ascent / 4], else 200; [height] is
    [ascent + descent]; [width] is its override, else [height].  With no
    ascent and descent 200 the resolved ascent is 800, the height 1000 and
    the default width 1000. *)
Theorem metrics_fallback_chain (kw : kwargs) :
  let p := SLCParameters M kw in
  ascent p == spec_ascent (kw_ascent kw) (kw_descent kw) /\
  descent p == spec_descent (kw_ascent kw) (kw_descent kw) /\
  height p = ascent p + descent p /\
  width p = if_given (kw_width kw) (height p) /\
  (let q := SLCParameters M (set_metrics None (Some 200) None kw) in
   ascent q = 800 /\ descent q = 200 /\ height q = 1000 /\ width q = 1000).
Proof.
  cbn zeta. split; [|split; [|repeat split; reflexivity]].
  - unfold SLCParameters, spec_ascent; cbn.
    destruct (kw_ascent kw), (kw_descent kw); cbn; try reflexivity; ring.
  - unfold SLCParameters, spec_descent; cbn.
    destruct (kw_ascent kw), (kw_descent kw); cbn; reflexivity.
Qed.

(** C4.  Each separation resolves to its own override, else the override
    of the opposite edge, else the override of the perpendicular axis when
    exactly one of that pair was given, else [height / 18].  With only
    [separationLeft] given all four sides take it; with top and bottom
    given and neither left nor right, left and right are [height / 18]. *)
Theorem separation_fallback_chain (kw : kwargs) :
  let p := SLCParameters M kw in
  let t := kw_separationTop kw in
  let r := kw_separationRight kw in
  let b := kw_separationBottom kw in
  let l := kw_separationLeft kw in
  (separationTop p = spec_separation t b r l (height p / 18) /\
   separationRight p = spec_separation r l t b (height p / 18) /\
   separationBottom p = spec_separation b t r l (height p / 18) /\
   separationLeft p = spec_separation l r t b (height p / 18)) /\
  (forall v : Q,
     let q := SLCParameters M (set_separation None None None (Some v) kw) in
     separationTop q = v /\ separationRight q = v /\
     separationBottom q = v /\ separationLeft q = v) /\
  (forall vt vb : Q,
     let q := SLCParameters M
                (set_separation (Some vt) None (Some vb) None kw) in
     separationLeft q = height q / 18 /\ separationRight q = height q / 18).
Proof.
  cbn zeta. split; [|split].
  - unfold SLCParameters, spec_separation, exactly_one; cbn.
    destruct (kw_separationTop kw), (kw_separationRight kw),
      (kw_separationBottom kw), (kw_separationLeft kw);
      cbn; repeat split; reflexivity.
  - intros v. repeat split; reflexivity.
  - intros vt vb. split; reflexivity.
Qed.

(** When the resolved width or height is zero, deriving the offsets
    raises, for any catalogue. *)
Lemma offsets_raise_on_zero (p : Params) :
  width p == 0 \/ height p == 0 ->
  slcgen_offsets M p = Raise ZeroDivisionError.
Proof.
  intros H. unfold slcgen_offsets, py_div.
  destruct (Qeq_bool (width p * 2) 0) eqn:Ew; [reflexivity|].
  cbn.
  destruct (Qeq_bool (height p * 2) 0) eqn:Eh; [reflexivity|].
  exfalso. apply Qeq_bool_neq in Ew. apply Qeq_bool_neq in Eh.
  destruct H as [H|H]; [apply Ew | apply Eh]; rewrite H; ring.
Qed.

Lemma offsets_ignore_pixels (kw : kwargs) (ph pw : option Z) :
  slcgen_offsets M (SLCParameters M (set_pixels ph pw kw))
  = slcgen_offsets M (SLCParameters M kw).
Proof. reflexivity. Qed.

End ResolverProperties.

(** ** The run up to the first glyph *)

(** C2, as the code has it.  Parameter resolution checks none of the
    resolved values; a run whose resolved width or height is zero raises
    [ZeroDivisionError] while the offsets are derived, before the font is
    created and any glyph is built, whatever the catalogue. *)
Theorem zero_width_or_height_aborts (M : Math) (FF : FontForge)
    (catalogue : Params -> Offsets -> list entry) (kw : kwargs) :
  width (SLCParameters M kw) == 0 \/ height (SLCParameters M kw) == 0 ->
  slcgen_offsets M (SLCParameters M kw) = Raise ZeroDivisionError /\
  slcgen M FF catalogue kw = Raise ZeroDivisionError.
Proof.
  intros H. pose proof (offsets_raise_on_zero M _ H) as E.
  split; [exact E|]. unfold slcgen. rewrite E. reflexivity.
Qed.

Lemma zero_width_or_height_aborts_witness :
  (width (SLCParameters approx_math kwargs_zero_width) == 0 \/
   height (SLCParameters approx_math kwargs_zero_width) == 0) /\
  slcgen_offsets approx_math (SLCParameters approx_math kwargs_zero_width)
  = Raise ZeroDivisionError /\
  slcgen approx_math plain_fontforge shade_catalogue kwargs_zero_width
  = Raise ZeroDivisionError.
Proof.
  split.
  - left. reflexivity.
  - apply (zero_width_or_height_aborts approx_math plain_fontforge
             shade_catalogue kwargs_zero_width).
    left. reflexivity.
Defined.

(** C2, as the specification words it, fails.  With [pixelWidth=0] both
    pixel sizes resolve to zero, and yet the run gets as far as the
    default run does and returns a font, whose shade glyph is blank; a
    negative width is accepted as well. *)
Lemma unchecked_dimensions_accepted :
  (forall M : Math,
     pixelWidth (SLCParameters M kwargs_pw0) = 0%Z /\
     pixelHeight (SLCParameters M kwargs_pw0) = 0%Z) /\
  (forall (M : Math) (FF : FontForge) (o : Offsets),
     slcgen_offsets M (SLCParameters M no_kwargs) = Ok o ->
     slcgen M FF shade_catalogue kwargs_pw0
     = Ok (blank_font 1000 [32; 160; 0x2592]%Z)) /\
  (exists o : Offsets,
     slcgen_offsets approx_math (SLCParameters approx_math no_kwargs) = Ok o) /\
  (width (SLCParameters approx_math kwargs_negative_width) < 0 /\
   exists fnt : font,
     slcgen approx_math plain_fontforge shade_catalogue kwargs_negative_width
     = Ok fnt).
Proof.
  split; [|split; [|split]].
  - intros M. split; reflexivity.
  - intros M FF o Ho. unfold slcgen, kwargs_pw0.
    rewrite offsets_ignore_pixels, Ho. cbn [rbind].
    vm_compute. reflexivity.
  - eexists. vm_compute. reflexivity.
  - split; [reflexivity|]. eexists. vm_compute. reflexivity.
Qed.

(** ** Winding numbers of rectangles *)

Lemma Qltb_lt (a b : Q) : Qltb a b = true <-> a < b.
Proof.
  unfold Qltb. rewrite negb_true_iff.
  split; intros H.
  - apply Qnot_le_lt. intros C. apply Qle_bool_iff in C. congruence.
  - destruct (Qle_bool b a) eqn:E; [|reflexivity].
    apply Qle_bool_iff in E. exfalso. lra.
Qed.

Lemma Qltb_ge (a b : Q) : Qltb a b = false <-> b <= a.
Proof.
  unfold Qltb. rewrite negb_false_iff. apply Qle_bool_iff.
Qed.

Lemma below_cases (t v : Q) :
  (t < v /\ below t v = 1%Z) \/ (v <= t /\ below t v = 0%Z).
Proof.
  unfold below. destruct (Qltb t v) eqn:E.
  - left. split; [now apply Qltb_lt | reflexivity].
  - right. split; [now apply Qltb_ge | reflexivity].
Qed.

Ltac below_split t v :=
  let H := fresh "Hb" in
  let E := fresh "Eb" in
  destruct (below_cases t v) as [[H E]|[H E]]; rewrite ?E in *.

Lemma edge_wind_horizontal (q : point) (xa xb y : Q) :
  edge_wind q (xa, y) (xb, y) = 0%Z.
Proof.
  unfold edge_wind; cbn [fst snd].
  destruct (Qle_bool y (snd q)) eqn:E.
  - apply Qle_bool_iff in E.
    destruct (Qltb (snd q) y) eqn:L; [|reflexivity].
    apply Qltb_lt in L. exfalso. lra.
  - reflexivity.
Qed.

Lemma edge_wind_vertical (q : point) (x ya yb : Q) :
  edge_wind q (x, ya) (x, yb)
  = (below (fst q) x * (below (snd q) ya - below (snd q) yb))%Z.
Proof.
  unfold edge_wind, is_left; cbn [fst snd].
  destruct (Qle_bool ya (snd q)) eqn:E.
  - apply Qle_bool_iff in E.
    below_split (snd q) ya; [exfalso; lra|].
    below_split (snd q) yb.
    + apply Qltb_lt in Hb0 as L. rewrite L. cbn [andb].
      below_split (fst q) x.
      * assert (Qltb 0 ((x - x) * (snd q - ya) - (fst q - x) * (yb - ya)) = true) as ->
          by (apply Qltb_lt; nra).
        reflexivity.
      * assert (Qltb 0 ((x - x) * (snd q - ya) - (fst q - x) * (yb - ya)) = false) as ->
          by (apply Qltb_ge; nra).
        reflexivity.
    + apply Qltb_ge in Hb0 as L. rewrite L. cbn [andb]. lia.
  - assert (snd q < ya) as Hlt.
    { apply Qnot_le_lt. intros C. apply Qle_bool_iff in C. congruence. }
    below_split (snd q) ya; [|exfalso; lra].
    below_split (snd q) yb.
    + assert (Qle_bool yb (snd q) = false) as ->.
      { destruct (Qle_bool yb (snd q)) eqn:C; [|reflexivity].
        apply Qle_bool_iff in C. exfalso. lra. }
      cbn [andb]. lia.
    + apply Qle_bool_iff in Hb0 as L. rewrite L. cbn [andb].
      below_split (fst q) x.
      * assert (Qltb ((x - x) * (snd q - ya) - (fst q - x) * (yb - ya)) 0 = true) as ->
          by (apply Qltb_lt; nra).
        reflexivity.
      * assert (Qltb ((x - x) * (snd q - ya) - (fst q - x) * (yb - ya)) 0 = false) as ->
          by (apply Qltb_ge; nra).
        reflexivity.
Qed.

Lemma poly_wind_rect (x1 y1 x2 y2 : Q) (q : point) :
  poly_wind [(x1, y1); (x2, y1); (x2, y2); (x1, y2)] q = rect_wind x1 y1 x2 y2 q.
Proof.
  unfold poly_wind, path_wind, rect_wind, span.
  rewrite !edge_wind_horizontal, !edge_wind_vertical. lia.
Qed.

Lemma poly_wind_rectccw (x1 y1 x2 y2 : Q) (q : point) :
  poly_wind [(x1, y1); (x1, y2); (x2, y2); (x2, y1)] q
  = (- rect_wind x1 y1 x2 y2 q)%Z.
Proof.
  unfold poly_wind, path_wind, rect_wind, span.
  rewrite !edge_wind_horizontal, !edge_wind_vertical. lia.
Qed.

Lemma span_cases (u v t : Q) :
  (span u v t = 1%Z /\ u <= t < v) \/
  (span u v t = (-1)%Z /\ v <= t < u) \/
  (span u v t = 0%Z /\ ~ (u <= t < v) /\ ~ (v <= t < u)).
Proof.
  unfold span. below_split t v; below_split t u.
  - right; right. split; [lia | split; intros [? ?]; lra].
  - left. split; [lia | lra].
  - right; left. split; [lia | lra].
  - right; right. split; [lia | split; intros [? ?]; lra].
Qed.

Lemma span_nonzero (u v t : Q) :
  span u v t <> 0%Z <-> Qmin u v <= t /\ t < Qmax u v.
Proof.
  destruct (span_cases u v t) as [[E H]|[[E H]|[E [H1 H2]]]]; rewrite E.
  - split; [intros _|intros _; lia].
    destruct (Q.min_spec u v) as [[? ->]|[? ->]],
             (Q.max_spec u v) as [[? ->]|[? ->]]; lra.
  - split; [intros _|intros _; lia].
    destruct (Q.min_spec u v) as [[? ->]|[? ->]],
             (Q.max_spec u v) as [[? ->]|[? ->]]; lra.
  - split; [intros C; now elim C|].
    intros [A B]. exfalso.
    destruct (Q.min_spec u v) as [[? Em]|[? Em]],
             (Q.max_spec u v) as [[? EM]|[? EM]];
      rewrite Em in A; rewrite EM in B; lra.
Qed.

Lemma rect_wind_nonzero (x1 y1 x2 y2 : Q) (q : point) :
  rect_wind x1 y1 x2 y2 q <> 0%Z <-> in_box x1 y1 x2 y2 q.
Proof.
  unfold rect_wind, in_box.
  rewrite <- Z.neq_mul_0, !span_nonzero.
  rewrite (Q.min_comm y2 y1), (Q.max_comm y2 y1). tauto.
Qed.

(** ** Monotone coordinates *)

Lemma span_swap (u v t : Q) : span u v t = (- span v u t)%Z.
Proof. unfold span. lia. Qed.

Lemma span_mono_cases (s : Z) (c : Q -> Q) (u v t : Q) :
  monotone s c -> u <= v ->
  span (c u) (c v) t = 0%Z \/ span (c u) (c v) t = s.
Proof.
  intros [[-> Hm]|[-> Hm]] Huv; pose proof (Hm _ _ Huv);
    destruct (span_cases (c u) (c v) t) as [[E H1]|[[E H1]|[E _]]];
    rewrite E; auto; exfalso; lra.
Qed.

Lemma span_mono_disjoint (s : Z) (c : Q -> Q) (u v u' v' t : Q) :
  monotone s c -> u <= v -> v <= u' -> u' <= v' ->
  span (c u) (c v) t <> 0%Z -> span (c u') (c v') t = 0%Z.
Proof.
  intros [[-> Hm]|[-> Hm]] H1 H2 H3 Hn;
    pose proof (Hm _ _ H1); pose proof (Hm _ _ H2); pose proof (Hm _ _ H3);
    destruct (span_cases (c u) (c v) t) as [[E ?]|[[E ?]|[E _]]];
    try (rewrite E in Hn; now elim Hn);
    destruct (span_cases (c u') (c v') t) as [[E' ?]|[[E' ?]|[E' _]]];
    try exact E'; exfalso; lra.
Qed.

Lemma span_mono_inside (s : Z) (c : Q -> Q) (u0 u v v0 t : Q) :
  monotone s c -> u0 <= u -> u <= v -> v <= v0 ->
  span (c u) (c v) t <> 0%Z -> span (c u0) (c v0) t = s.
Proof.
  intros [[-> Hm]|[-> Hm]] H1 H2 H3 Hn;
    pose proof (Hm _ _ H1); pose proof (Hm _ _ H2); pose proof (Hm _ _ H3);
    destruct (span_cases (c u) (c v) t) as [[E ?]|[[E ?]|[E _]]];
    try (rewrite E in Hn; now elim Hn);
    destruct (span_cases (c u0) (c v0) t) as [[E' ?]|[[E' ?]|[E' [? ?]]]];
    try exact E'; exfalso; try lra; tauto.
Qed.

Lemma Xq_monotone (p : Params) : monotone (dir (width p)) (Xq p).
Proof.
  unfold dir, monotone, Xq. destruct (Qle_bool 0 (width p)) eqn:E.
  - left. split; [reflexivity|]. intros u v Huv.
    apply Qle_bool_iff in E.
    rewrite <- Zle_Qle. apply py_round_le. nra.
  - right. split; [reflexivity|]. intros u v Huv.
    assert (width p < 0).
    { apply Qnot_le_lt. intros C. apply Qle_bool_iff in C. congruence. }
    rewrite <- Zle_Qle. apply py_round_le. nra.
Qed.

Lemma Yq_monotone (p : Params) : monotone (- dir (height p)) (Yq p).
Proof.
  unfold dir, monotone, Yq. destruct (Qle_bool 0 (height p)) eqn:E.
  - right. split; [reflexivity|]. intros u v Huv.
    apply Qle_bool_iff in E.
    rewrite <- Zle_Qle. apply py_round_le. nra.
  - left. split; [reflexivity|]. intros u v Huv.
    assert (height p < 0).
    { apply Qnot_le_lt. intros C. apply Qle_bool_iff in C. congruence. }
    rewrite <- Zle_Qle. apply py_round_le. nra.
Qed.

Lemma dir_cases (v : Q) : dir v = 1%Z \/ dir v = (-1)%Z.
Proof. unfold dir. destruct (Qle_bool 0 v); auto. Qed.

Lemma frac_le (a b c : Z) :
  (0 < c)%Z -> (a <= b)%Z -> inject_Z a / inject_Z c <= inject_Z b / inject_Z c.
Proof.
  intros Hc Hab. unfold Qdiv. apply Qmult_le_compat_r.
  - now rewrite <- Zle_Qle.
  - apply Qinv_le_0_compat. change 0 with (inject_Z 0). rewrite <- Zle_Qle. lia.
Qed.

Lemma frac_0 (c : Z) : inject_Z 0 / inject_Z c == 0.
Proof. unfold Qdiv. change (inject_Z 0) with 0. ring. Qed.

Lemma frac_1 (c : Z) : (0 < c)%Z -> inject_Z c / inject_Z c == 1.
Proof.
  intros Hc. field. change 0 with (inject_Z 0). rewrite inject_Z_injective. lia.
Qed.

(** ** The glyph after a rectangle *)

Lemma wind_rawrect (x1 y1 x2 y2 : Q) (g : glyph) (q : point) :
  wind (g_layer (rawrect x1 y1 x2 y2 g)) q
  = add_wind (rect_wind (inject_Z (py_round x1)) (inject_Z (py_round y1))
                        (inject_Z (py_round x2)) (inject_Z (py_round y2)) q)
             (wind (g_layer g) q).
Proof.
  unfold rawrect, pen_closed, on_layer, rounded; cbn [g_layer wind fst snd].
  rewrite poly_wind_rect. reflexivity.
Qed.

Lemma wind_rawrectccw (x1 y1 x2 y2 : Q) (g : glyph) (q : point) :
  wind (g_layer (_rawrectccw x1 y1 x2 y2 g)) q
  = add_wind (- rect_wind (inject_Z (py_round x1)) (inject_Z (py_round y1))
                          (inject_Z (py_round x2)) (inject_Z (py_round y2)) q)
             (wind (g_layer g) q).
Proof.
  unfold _rawrectccw, pen_closed, on_layer, rounded; cbn [g_layer wind fst snd].
  rewrite poly_wind_rectccw. reflexivity.
Qed.

Lemma wind_rect (p : Params) (x1 y1 x2 y2 : Q) (g : glyph) (q : point) :
  wind (g_layer (rect p x1 y1 x2 y2 g)) q
  = add_wind (rect_wind (Xq p x1) (Yq p y1) (Xq p x2) (Yq p y2) q)
             (wind (g_layer g) q).
Proof. unfold rect. apply wind_rawrect. Qed.

Lemma wind_rectccw (p : Params) (x1 y1 x2 y2 : Q) (g : glyph) (q : point) :
  wind (g_layer (_rectccw p x1 y1 x2 y2 g)) q
  = add_wind (- rect_wind (Xq p x1) (Yq p y1) (Xq p x2) (Yq p y2) q)
             (wind (g_layer g) q).
Proof. unfold _rectccw. apply wind_rawrectccw. Qed.

Lemma wind_cell (p : Params) (rows cols x y : Z) (g : glyph) (q : point) :
  wind (g_layer (cell p rows cols x y g)) q
  = add_wind (cell_wind p rows cols q (x, y)) (wind (g_layer g) q).
Proof. unfold cell, cell_wind. apply wind_rect. Qed.

(** ** Cells of the grid *)

Lemma cell_wind_cases (p : Params) (rows cols : Z) (q : point) (c : Z * Z) :
  (0 < rows)%Z -> (0 < cols)%Z ->
  cell_wind p rows cols q c = 0%Z \/
  cell_wind p rows cols q c = sigma p.
Proof.
  intros Hr Hc. unfold cell_wind, rect_wind; cbn [fst snd].
  rewrite (span_swap (Yq p _) (Yq p _)).
  destruct (span_mono_cases _ _ (inject_Z (fst c) / inject_Z cols)
              (inject_Z (fst c + 1) / inject_Z cols) (fst q) (Xq_monotone p))
    as [-> | ->]; [apply frac_le; lia | lia |].
  destruct (span_mono_cases _ _ (inject_Z (snd c) / inject_Z rows)
              (inject_Z (snd c + 1) / inject_Z rows) (snd q) (Yq_monotone p))
    as [-> | ->]; [apply frac_le; lia | lia |].
  right. unfold sigma. lia.
Qed.

Lemma cell_wind_disjoint (p : Params) (rows cols : Z) (q : point) (c c' : Z * Z) :
  (0 < rows)%Z -> (0 < cols)%Z ->
  cell_wind p rows cols q c <> 0%Z -> cell_wind p rows cols q c' <> 0%Z ->
  c = c'.
Proof.
  intros Hr Hc. unfold cell_wind, rect_wind; cbn [fst snd].
  rewrite <- !Z.neq_mul_0.
  rewrite !(span_swap (Yq p (inject_Z (snd _ + 1) / _)) (Yq p _)).
  intros [Hx Hy] [Hx' Hy'].
  destruct c as [x y], c' as [x' y']; cbn [fst snd] in *.
  assert (x = x') as ->.
  { destruct (Z.lt_trichotomy x x') as [L|[E|L]]; [exfalso|exact E|exfalso].
    - apply Hx'.
      eapply (span_mono_disjoint _ _ _ _ _ _ _ (Xq_monotone p)); [| | |exact Hx];
        apply frac_le; lia.
    - apply Hx.
      eapply (span_mono_disjoint _ _ _ _ _ _ _ (Xq_monotone p)); [| | |exact Hx'];
        apply frac_le; lia. }
  assert (y = y') as ->; [|reflexivity].
  assert (span (Yq p (inject_Z y / inject_Z rows))
            (Yq p (inject_Z (y + 1) / inject_Z rows)) (snd q) <> 0%Z) as Ky by lia.
  assert (span (Yq p (inject_Z y' / inject_Z rows))
            (Yq p (inject_Z (y' + 1) / inject_Z rows)) (snd q) <> 0%Z) as Ky' by lia.
  destruct (Z.lt_trichotomy y y') as [L|[E|L]]; [exfalso|exact E|exfalso].
  - apply Ky'.
    eapply (span_mono_disjoint _ _ _ _ _ _ _ (Yq_monotone p)); [| | |exact Ky];
      apply frac_le; lia.
  - apply Ky.
    eapply (span_mono_disjoint _ _ _ _ _ _ _ (Yq_monotone p)); [| | |exact Ky'];
      apply frac_le; lia.
Qed.

Lemma cell_in_full (p : Params) (rows cols : Z) (q : point) (c : Z * Z) :
  (0 <= fst c < cols)%Z -> (0 <= snd c < rows)%Z ->
  cell_wind p rows cols q c <> 0%Z ->
  rect_wind (Xq p 0) (Yq p 0) (Xq p 1) (Yq p 1) q = sigma p.
Proof.
  intros Hx Hy. unfold cell_wind, rect_wind, sigma; cbn [fst snd].
  rewrite <- Z.neq_mul_0. intros [Kx Ky].
  rewrite (span_swap (Yq p 1) (Yq p 0)).
  rewrite (span_swap (Yq p _) (Yq p _)) in Ky.
  assert (0 <= inject_Z (fst c) / inject_Z cols) as X0.
  { rewrite <- (frac_0 cols). apply frac_le; lia. }
  assert (inject_Z (fst c + 1) / inject_Z cols <= 1) as X1.
  { rewrite <- (frac_1 cols) by lia. apply frac_le; lia. }
  assert (0 <= inject_Z (snd c) / inject_Z rows) as Y0.
  { rewrite <- (frac_0 rows). apply frac_le; lia. }
  assert (inject_Z (snd c + 1) / inject_Z rows <= 1) as Y1.
  { rewrite <- (frac_1 rows) by lia. apply frac_le; lia. }
  assert (inject_Z (fst c) / inject_Z cols <= inject_Z (fst c + 1) / inject_Z cols)
    as Xm by (apply frac_le; lia).
  assert (inject_Z (snd c) / inject_Z rows <= inject_Z (snd c + 1) / inject_Z rows)
    as Ym by (apply frac_le; lia).
  rewrite (span_mono_inside _ _ 0 _ _ 1 (fst q) (Xq_monotone p) X0 Xm X1 Kx).
  assert (span (Yq p (inject_Z (snd c) / inject_Z rows))
            (Yq p (inject_Z (snd c + 1) / inject_Z rows)) (snd q) <> 0%Z) as Ky'
    by lia.
  rewrite (span_mono_inside _ _ 0 _ _ 1 (snd q) (Yq_monotone p) Y0 Ym Y1 Ky').
  lia.
Qed.

(** ** Loops over the grid *)

Lemma In_range (n i : Z) : In i (range n) <-> (0 <= i < n)%Z.
Proof.
  unfold range. rewrite in_map_iff. split.
  - intros [k [<- Hk]]. apply in_seq in Hk. lia.
  - intros H. exists (Z.to_nat i). split; [lia|]. apply in_seq. lia.
Qed.

Lemma NoDup_range (n : Z) : List.NoDup (range n).
Proof.
  unfold range. apply Finite.Injective_map_NoDup.
  - intros a b. apply Nat2Z.inj.
  - apply seq_NoDup.
Qed.

Lemma In_grid (rows cols : Z) (c : Z * Z) :
  In c (grid rows cols) <-> (0 <= fst c < cols)%Z /\ (0 <= snd c < rows)%Z.
Proof.
  unfold grid. rewrite in_flat_map. split.
  - intros [y [Hy Hc]]. apply in_map_iff in Hc as [x [<- Hx]].
    apply In_range in Hy, Hx. cbn. lia.
  - intros [Hx Hy]. exists (snd c). split; [now apply In_range|].
    apply in_map_iff. exists (fst c). split; [now destruct c|now apply In_range].
Qed.

Lemma NoDup_grid (rows cols : Z) : List.NoDup (grid rows cols).
Proof.
  unfold grid. generalize (NoDup_range rows). generalize (range rows) as ys.
  induction ys as [|y ys IH]; intros Hd; cbn; [constructor|].
  inversion Hd as [|? ? Hy Hys]; subst.
  apply List.NoDup_app.
  - apply Finite.Injective_map_NoDup; [|apply NoDup_range].
    intros a b E. now inversion E.
  - now apply IH.
  - intros c Hc Hc'.
    apply in_map_iff in Hc as [x [<- _]].
    apply in_flat_map in Hc' as [y' [Hy' Hc']].
    apply in_map_iff in Hc' as [x' [E _]]. inversion E; subst. contradiction.
Qed.

Lemma inner_loop_cells {S : Type} (y : Z) (cnd : Z -> Z -> bool)
    (f : Z -> Z -> S -> S) (xs : list Z) (s : S) :
  fold_left (fun acc x => if cnd x y then f x y acc else acc) xs s
  = fold_left (fun acc c => f (fst c) (snd c) acc)
      (List.filter (fun c => cnd (fst c) (snd c)) (List.map (fun x => (x, y)) xs)) s.
Proof.
  revert s. induction xs as [|x xs IH]; intros s; cbn; [reflexivity|].
  destruct (cnd x y); cbn; apply IH.
Qed.

Lemma nested_loops_cells {S : Type} (rows cols : Z) (cnd : Z -> Z -> bool)
    (f : Z -> Z -> S -> S) (s : S) :
  for_range rows (fun y =>
    for_range cols (fun x s' => if cnd x y then f x y s' else s')) s
  = fold_left (fun acc c => f (fst c) (snd c) acc)
      (List.filter (fun c => cnd (fst c) (snd c)) (grid rows cols)) s.
Proof.
  unfold for_range, grid. revert s.
  induction (range rows) as [|y ys IH]; intros s; cbn; [reflexivity|].
  rewrite List.filter_app, fold_left_app, <- IH. f_equal.
  apply inner_loop_cells.
Qed.

Lemma fold_left_map {A B S : Type} (f : S -> B -> S) (h : A -> B) (l : list A) (s : S) :
  fold_left f (List.map h l) s = fold_left (fun acc a => f acc (h a)) l s.
Proof. revert s. induction l; intros s; cbn; auto. Qed.

Lemma shade_as_cells (p : Params) (rows cols : Z) (inverse : bool) (g : glyph) :
  shade p rows cols inverse g
  = fold_left (fun acc c => cell p rows cols (fst c) (snd c) acc)
      (shade_cells rows cols inverse) g.
Proof.
  unfold shade, shade_cells.
  apply (nested_loops_cells rows cols
           (fun x y => truthy (shade_bits rows cols inverse x y))
           (fun x y => cell p rows cols x y)).
Qed.

Lemma ltshade_as_cells (p : Params) (rows cols : Z) (g : glyph) :
  ltshade p rows cols g
  = fold_left (fun acc c => cell p rows cols (fst c) (snd c) acc)
      (light_cells rows cols) g.
Proof.
  unfold ltshade, light_cells. rewrite fold_left_map.
  apply (nested_loops_cells (rows / 2) cols (light_bit rows cols)
           (fun x y => cell p rows cols x (y * 2))).
Qed.

(** ** Sums of winding numbers *)

Lemma add_wind_add (a b : Z) (o : option Z) :
  add_wind b (add_wind a o) = add_wind (a + b) o.
Proof. destruct o; cbn; [f_equal; lia | reflexivity]. Qed.

Lemma wind_fold {A : Type} (paint : A -> glyph -> glyph) (w : A -> Z) (q : point) :
  (forall a g, wind (g_layer (paint a g)) q = add_wind (w a) (wind (g_layer g) q)) ->
  forall l g,
    wind (g_layer (fold_left (fun acc a => paint a acc) l g)) q
    = add_wind (sum_over w l) (wind (g_layer g) q).
Proof.
  intros Hp. induction l as [|a l IH]; intros g; cbn.
  - destruct (wind (g_layer g) q); cbn; [f_equal; lia | reflexivity].
  - rewrite IH, Hp, add_wind_add. reflexivity.
Qed.

Lemma sum_over_single {A : Type} (w : A -> Z) (s : Z) (l : list A) :
  List.NoDup l ->
  (forall a b, In a l -> In b l -> w a <> 0%Z -> w b <> 0%Z -> a = b) ->
  (forall a, In a l -> w a = 0%Z \/ w a = s) ->
  (sum_over w l = 0%Z /\ forall a, In a l -> w a = 0%Z) \/
  (sum_over w l = s /\ exists a, In a l /\ w a <> 0%Z).
Proof.
  induction l as [|a l IH]; intros Hd Hone Hval.
  - left. split; [reflexivity | intros ? []].
  - change (sum_over w (a :: l)) with (w a + sum_over w l)%Z.
    inversion Hd as [|? ? Hna Hdl]; subst.
    destruct (Z.eq_dec (w a) 0%Z) as [Z0|NZ].
    + destruct IH as [[E All]|[E [b [Hb Nb]]]]; auto.
      * intros; apply Hone; cbn; auto.
      * intros; apply Hval; cbn; auto.
      * left. split; [lia|]. intros b [<-|Hb]; auto.
      * right. split; [lia|]. exists b. cbn; auto.
    + right.
      assert (forall b, In b l -> w b = 0%Z) as All.
      { intros b Hb. destruct (Z.eq_dec (w b) 0%Z) as [|Nb]; [assumption|].
        exfalso. apply Hna. rewrite (Hone a b); cbn; auto. }
      assert (sum_over w l = 0%Z) as ->.
      { clear -All. induction l as [|b l IH]; [reflexivity|].
        change (sum_over w (b :: l)) with (w b + sum_over w l)%Z.
        rewrite (All b), IH; cbn; auto. intros; apply All; cbn; auto. }
      split.
      * destruct (Hval a) as [?|?]; cbn; auto; lia.
      * exists a. cbn; auto.
Qed.

Lemma sigma_nonzero (p : Params) : sigma p <> 0%Z.
Proof.
  unfold sigma. destruct (dir_cases (width p)) as [-> | ->],
    (dir_cases (height p)) as [-> | ->]; lia.
Qed.

(** Cells of one grid never overlap: the winding numbers of a
    duplicate-free list of cells add up to that of the one cell holding
    the point, if any. *)
Lemma cells_sum (p : Params) (rows cols : Z) (q : point) (l : list (Z * Z)) :
  (0 < rows)%Z -> (0 < cols)%Z -> List.NoDup l ->
  (sum_over (cell_wind p rows cols q) l = 0%Z /\
   forall c, In c l -> cell_wind p rows cols q c = 0%Z) \/
  (sum_over (cell_wind p rows cols q) l = sigma p /\
   exists c, In c l /\ cell_wind p rows cols q c <> 0%Z).
Proof.
  intros Hr Hc Hd. apply sum_over_single; [assumption| |].
  - intros a b _ _. now apply cell_wind_disjoint.
  - intros a _. now apply cell_wind_cases.
Qed.

Lemma filled_some (s : shape) (q : point) (n : Z) :
  wind s q = Some n -> (filled s q <-> n <> 0%Z).
Proof.
  intros E. unfold filled. rewrite E. split.
  - intros [k [[= <-] Hk]]. exact Hk.
  - intros Hn. exists n. auto.
Qed.

Lemma filled_cell (p : Params) (rows cols : Z) (c : Z * Z) (w : Q) (q : point) :
  filled (g_layer (cell p rows cols (fst c) (snd c) (blank_glyph w))) q
  <-> cell_wind p rows cols q c <> 0%Z.
Proof.
  rewrite (filled_some _ _ (cell_wind p rows cols q c)); [reflexivity|].
  destruct c as [x y]. rewrite wind_cell. reflexivity.
Qed.

(** The region of one cell, in coordinates. *)
Lemma cell_box (p : Params) (rows cols x y : Z) (w : Q) (q : point) :
  filled (g_layer (cell p rows cols x y (blank_glyph w))) q <->
  in_box
    (inject_Z (py_round (width p * (inject_Z x / inject_Z cols))))
    (inject_Z (py_round (ascent p - height p * (inject_Z y / inject_Z rows))))
    (inject_Z (py_round (width p * (inject_Z (x + 1) / inject_Z cols))))
    (inject_Z (py_round (ascent p
                         - height p * (inject_Z (y + 1) / inject_Z rows))))
    q.
Proof.
  rewrite (filled_cell p rows cols (x, y) w q). unfold cell_wind.
  apply rect_wind_nonzero.
Qed.

Lemma NoDup_shade_cells (rows cols : Z) (inverse : bool) :
  List.NoDup (shade_cells rows cols inverse).
Proof. apply List.NoDup_filter, NoDup_grid. Qed.

Lemma NoDup_light_cells (rows cols : Z) : List.NoDup (light_cells rows cols).
Proof.
  unfold light_cells. apply Finite.Injective_map_NoDup.
  - intros [a b] [a' b'] E. inversion E. f_equal. lia.
  - apply List.NoDup_filter, NoDup_grid.
Qed.

Lemma In_shade_cells (rows cols : Z) (inverse : bool) (c : Z * Z) :
  In c (shade_cells rows cols inverse) <->
  (0 <= fst c < cols)%Z /\ (0 <= snd c < rows)%Z /\
  shade_bits rows cols inverse (fst c) (snd c) <> 0%Z.
Proof.
  unfold shade_cells. rewrite filter_In, In_grid. unfold truthy.
  rewrite negb_true_iff, Z.eqb_neq. tauto.
Qed.

Lemma In_light_cells (rows cols : Z) (c : Z * Z) :
  In c (light_cells rows cols) <->
  exists y, snd c = (y * 2)%Z /\ (0 <= fst c < cols)%Z /\ (0 <= y < rows / 2)%Z /\
            light_bit rows cols (fst c) y = true.
Proof.
  unfold light_cells. rewrite in_map_iff. split.
  - intros [[x y] [<- H]]. apply filter_In in H as [Hg Hb].
    apply In_grid in Hg. cbn in *. exists y. tauto.
  - intros [y [Ey [Hx [Hy Hb]]]]. exists (fst c, y). split.
    + destruct c; cbn in *; congruence.
    + apply filter_In. split; [apply In_grid; cbn; lia | exact Hb].
Qed.

(** The region of a glyph painted cell by cell on a blank layer. *)
Lemma painted_region (p : Params) (rows cols : Z) (l : list (Z * Z)) (w : Q)
    (q : point) :
  List.NoDup l -> (forall c, In c l -> (0 < rows)%Z /\ (0 < cols)%Z) ->
  exists n,
    wind (g_layer (fold_left (fun acc c => cell p rows cols (fst c) (snd c) acc)
                     l (blank_glyph w))) q = Some n /\
    ((n = 0%Z /\ forall c, In c l -> cell_wind p rows cols q c = 0%Z) \/
     (n = sigma p /\ exists c, In c l /\ cell_wind p rows cols q c <> 0%Z)).
Proof.
  intros Hd Hpos.
  exists (sum_over (cell_wind p rows cols q) l). split.
  - rewrite (wind_fold (fun c => cell p rows cols (fst c) (snd c))
               (cell_wind p rows cols q)).
    + reflexivity.
    + intros [x y] g. apply wind_cell.
  - destruct l as [|c l'].
    + left. split; [reflexivity | intros ? []].
    + destruct (Hpos c) as [Hr Hc]; [now left|].
      now apply cells_sum.
Qed.

(** ** Shade patterns *)

Lemma painted_fills_exactly (p : Params) (rows cols : Z) (l : list (Z * Z)) (w : Q) :
  List.NoDup l -> (forall c, In c l -> (0 < rows)%Z /\ (0 < cols)%Z) ->
  fills_exactly p rows cols
    (fold_left (fun acc c => cell p rows cols (fst c) (snd c) acc) l (blank_glyph w)) l.
Proof.
  intros Hd Hpos q.
  destruct (painted_region p rows cols l w q Hd Hpos) as [n [E Hn]].
  rewrite (filled_some _ _ _ E).
  split.
  - intros Hnz. destruct Hn as [[-> _]|[_ [c [Hc Hw]]]]; [now elim Hnz|].
    exists c. split; [assumption|]. now apply filled_cell.
  - intros [c [Hc Hf]]. apply filled_cell in Hf.
    destruct Hn as [[_ All]|[-> _]]; [elim Hf; now apply All | apply sigma_nonzero].
Qed.

Lemma shade_cells_positive (rows cols : Z) (inverse : bool) (c : Z * Z) :
  In c (shade_cells rows cols inverse) -> (0 < rows)%Z /\ (0 < cols)%Z.
Proof. intros H. apply In_shade_cells in H. lia. Qed.

Lemma light_cells_inside (rows cols : Z) (c : Z * Z) :
  In c (light_cells rows cols) -> (0 <= fst c < cols)%Z /\ (0 <= snd c < rows)%Z.
Proof.
  intros H. apply In_light_cells in H as [y [-> [Hx [Hy _]]]].
  pose proof (Z.mul_div_le rows 2). lia.
Qed.

Lemma shade_fills (p : Params) (rows cols : Z) (inverse : bool) (w : Q) :
  fills_exactly p rows cols (shade p rows cols inverse (blank_glyph w))
    (shade_cells rows cols inverse).
Proof.
  rewrite shade_as_cells. apply painted_fills_exactly.
  - apply NoDup_shade_cells.
  - apply shade_cells_positive.
Qed.

Lemma ltshade_fills (p : Params) (rows cols : Z) (w : Q) :
  fills_exactly p rows cols (ltshade p rows cols (blank_glyph w))
    (light_cells rows cols).
Proof.
  rewrite ltshade_as_cells. apply painted_fills_exactly.
  - apply NoDup_light_cells.
  - intros c Hc. apply light_cells_inside in Hc. lia.
Qed.


(** C1, as the code has it.  [shade(2, 2, false)] fills exactly the
    cells [(0,0)] and [(1,1)], and [shade(2, 2, true)] exactly the cells
    [(0,1)] and [(1,0)], cells being (column, row) with [(0,0)] at the top
    left. *)
Theorem shade_2_2_cells (p : Params) (w : Q) :
  shade_cells 2 2 false = [(0, 0); (1, 1)]%Z /\
  shade_cells 2 2 true = [(1, 0); (0, 1)]%Z /\
  (forall g, shade p 2 2 false g = cell p 2 2 1 1 (cell p 2 2 0 0 g)) /\
  (forall g, shade p 2 2 true g = cell p 2 2 0 1 (cell p 2 2 1 0 g)) /\
  fills_exactly p 2 2 (shade p 2 2 false (blank_glyph w)) [(0, 0); (1, 1)]%Z /\
  fills_exactly p 2 2 (shade p 2 2 true (blank_glyph w)) [(0, 1); (1, 0)]%Z.
Proof.
  repeat split; try reflexivity.
  - apply (shade_fills p 2 2 false w q).
  - apply (shade_fills p 2 2 false w q).
  - intros H. apply (shade_fills p 2 2 true w q) in H as [c [Hc Hf]].
    exists c. split; [|exact Hf].
    change (In c [(1, 0); (0, 1)]%Z) in Hc. cbn in Hc |- *. tauto.
  - intros [c [Hc Hf]]. apply (shade_fills p 2 2 true w q).
    exists c. split; [|exact Hf].
    change (In c [(1, 0); (0, 1)]%Z). cbn in Hc |- *. tauto.
Qed.

(** C1, as the specification words it, fails: with the default metrics
    the point [(250, 550)] of the top-left cell [(0,0)] is filled by
    [shade(2, 2, false)], and it lies in neither [(0,1)] nor [(1,0)]. *)
Lemma shade_2_2_not_as_specified :
  ~ fills_exactly default_params 2 2
      (shade default_params 2 2 false (blank_glyph 1000)) [(0, 1); (1, 0)]%Z.
Proof.
  intros H. destruct (H (250, 550)) as [H1 _].
  destruct H1 as [c [Hc [n [E Hn]]]].
  - exists 1%Z. split; [reflexivity | discriminate].
  - destruct Hc as [<-|[<-|[]]]; vm_compute in E; injection E as <-; now apply Hn.
Qed.

(** ** Light and dark shade *)

Lemma sum_over_map {A B : Type} (w : B -> Z) (h : A -> B) (l : list A) :
  sum_over w (List.map h l) = sum_over (fun a => w (h a)) l.
Proof.
  induction l as [|a l IH]; [reflexivity|].
  change (sum_over w (List.map h (a :: l)))
    with (w (h a) + sum_over w (List.map h l))%Z.
  now rewrite IH.
Qed.

Lemma sum_over_opp {A : Type} (w : A -> Z) (l : list A) :
  sum_over (fun a => - w a)%Z l = (- sum_over w l)%Z.
Proof.
  induction l as [|a l IH]; [reflexivity|].
  change (sum_over (fun a0 => - w a0)%Z (a :: l))
    with (- w a + sum_over (fun a0 => - w a0)%Z l)%Z.
  change (sum_over w (a :: l)) with (w a + sum_over w l)%Z.
  rewrite IH. lia.
Qed.

Lemma wind_cut_cell (p : Params) (rows cols x y : Z) (g : glyph) (q : point) :
  wind (g_layer (cut_cell p rows cols x y g)) q
  = add_wind (- cell_wind p rows cols q (x, y)) (wind (g_layer g) q).
Proof. unfold cut_cell, cell_wind. apply wind_rectccw. Qed.

Lemma dkshade_outline_as_cells (p : Params) (rows cols : Z) (g : glyph) :
  dkshade_outline p rows cols g
  = on_layer Simplify (on_layer RemoveOverlap
      (rect p 0 0 1 1
         (fold_left (fun acc c => cut_cell p rows cols (fst c) (snd c) acc)
            (light_cells rows cols) g))).
Proof.
  unfold dkshade_outline, light_cells. rewrite fold_left_map.
  do 3 f_equal.
  apply (nested_loops_cells (rows / 2) cols (light_bit rows cols)
           (fun x y => cut_cell p rows cols x (y * 2))).
Qed.

Lemma full_wind_cases (p : Params) (q : point) :
  rect_wind (Xq p 0) (Yq p 0) (Xq p 1) (Yq p 1) q = 0%Z \/
  rect_wind (Xq p 0) (Yq p 0) (Xq p 1) (Yq p 1) q = sigma p.
Proof.
  unfold rect_wind, sigma. rewrite (span_swap (Yq p 1) (Yq p 0)).
  destruct (span_mono_cases _ _ 0 1 (fst q) (Xq_monotone p)) as [-> | ->];
    [lra | lia |].
  destruct (span_mono_cases _ _ 0 1 (snd q) (Yq_monotone p)) as [-> | ->];
    [lra | lia |].
  right. lia.
Qed.

(** Winding numbers of the three glyphs around a point: the full
    square, the light cells, and the dark outline. *)
Lemma shade_windings (p : Params) (rows cols : Z) (w : Q) (q : point) :
  exists F L : Z,
    wind (g_layer (rect p 0 0 1 1 (blank_glyph w))) q = Some F /\
    wind (g_layer (ltshade p rows cols (blank_glyph w))) q = Some L /\
    wind (g_layer (dkshade_outline p rows cols (blank_glyph w))) q
      = Some (if (F - L =? 0)%Z then 0%Z else 1%Z) /\
    (F = 0%Z \/ F = sigma p) /\
    (L = 0%Z \/ (L = sigma p /\ F = sigma p)).
Proof.
  exists (rect_wind (Xq p 0) (Yq p 0) (Xq p 1) (Yq p 1) q),
         (sum_over (cell_wind p rows cols q) (light_cells rows cols)).
  split; [|split; [|split; [|split]]].
  - rewrite wind_rect. reflexivity.
  - rewrite ltshade_as_cells.
    rewrite (wind_fold (fun c => cell p rows cols (fst c) (snd c))
               (cell_wind p rows cols q)); [reflexivity|].
    intros [x y] g. apply wind_cell.
  - rewrite dkshade_outline_as_cells. cbn [on_layer g_layer wind].
    rewrite wind_rect.
    rewrite (wind_fold (fun c => cut_cell p rows cols (fst c) (snd c))
               (fun c => - cell_wind p rows cols q c)%Z).
    + rewrite sum_over_opp. cbn.
      replace (0 + - sum_over (cell_wind p rows cols q) (light_cells rows cols)
               + rect_wind (Xq p 0) (Yq p 0) (Xq p 1) (Yq p 1) q)%Z
        with (rect_wind (Xq p 0) (Yq p 0) (Xq p 1) (Yq p 1) q
              - sum_over (cell_wind p rows cols q) (light_cells rows cols))%Z by lia.
      reflexivity.
    + intros [x y] g. apply wind_cut_cell.
  - apply full_wind_cases.
  - destruct (light_cells rows cols) as [|c0 l0] eqn:El; [left; reflexivity|].
    assert ((0 < rows)%Z /\ (0 < cols)%Z) as [Hr Hc].
    { pose proof (light_cells_inside rows cols c0) as H.
      rewrite El in H. specialize (H (or_introl eq_refl)). lia. }
    rewrite <- El.
    destruct (cells_sum p rows cols q (light_cells rows cols) Hr Hc
                (NoDup_light_cells rows cols)) as [[E _]|[E [c [Hin Hnz]]]].
    + left. exact E.
    + right. split; [exact E|].
      apply light_cells_inside in Hin as [Hx Hy].
      now apply (cell_in_full p rows cols q c).
Qed.

(** C6.  The region [dkshade(rows, cols)] fills is the full unit square
    less the cells [ltshade(rows, cols)] paints: together the two regions
    make up the full square and they share no point.  This holds for
    every [rows] and [cols], even [rows] included; the glyph [dkshade]
    returns fills the same region whenever reading back and re-drawing
    its outline preserves the region. *)
Theorem dkshade_complements_ltshade (p : Params) (rows cols : Z) (w : Q) :
  let dk := g_layer (dkshade_outline p rows cols (blank_glyph w)) in
  let lt := g_layer (ltshade p rows cols (blank_glyph w)) in
  let full := g_layer (rect p 0 0 1 1 (blank_glyph w)) in
  fills_exactly p rows cols (ltshade p rows cols (blank_glyph w))
    (light_cells rows cols) /\
  (forall q, filled dk q <-> filled full q /\ ~ filled lt q) /\
  (forall q, filled dk q \/ filled lt q <-> filled full q) /\
  (forall q, ~ (filled dk q /\ filled lt q)) /\
  (forall (FF : FontForge) (g' : glyph),
     readback_exact FF p (dkshade_outline p rows cols (blank_glyph w)) g' ->
     dkshade FF p rows cols (blank_glyph w) = Ok g' /\
     forall q, filled (g_layer g') q <-> filled full q /\ ~ filled lt q).
Proof.
  cbn zeta.
  assert (forall q,
            filled (g_layer (dkshade_outline p rows cols (blank_glyph w))) q <->
            filled (g_layer (rect p 0 0 1 1 (blank_glyph w))) q /\
            ~ filled (g_layer (ltshade p rows cols (blank_glyph w))) q) as Hdk.
  { intros q.
    destruct (shade_windings p rows cols w q) as [F [L [EF [EL [ED [HF HL]]]]]].
    rewrite (filled_some _ _ _ EF), (filled_some _ _ _ EL), (filled_some _ _ _ ED).
    pose proof (sigma_nonzero p) as Hs.
    destruct HL as [-> | [-> ->]].
    - rewrite Z.sub_0_r. destruct (Z.eqb_spec F 0%Z); lia.
    - rewrite Z.sub_diag. cbn. lia. }
  assert (forall q,
            filled (g_layer (ltshade p rows cols (blank_glyph w))) q ->
            filled (g_layer (rect p 0 0 1 1 (blank_glyph w))) q) as Hlt.
  { intros q.
    destruct (shade_windings p rows cols w q) as [F [L [EF [EL [_ [HF HL]]]]]].
    rewrite (filled_some _ _ _ EF), (filled_some _ _ _ EL).
    pose proof (sigma_nonzero p). destruct HL as [-> | [-> ->]]; lia. }
  assert (forall q,
            filled (g_layer (ltshade p rows cols (blank_glyph w))) q \/
            ~ filled (g_layer (ltshade p rows cols (blank_glyph w))) q) as Hdec.
  { intros q.
    destruct (shade_windings p rows cols w q) as [F [L [_ [EL _]]]].
    rewrite (filled_some _ _ _ EL). destruct (Z.eq_dec L 0%Z); [right|left]; lia. }
  split; [apply ltshade_fills|].
  split; [exact Hdk|].
  split; [|split].
  - intros q. rewrite Hdk. specialize (Hlt q). specialize (Hdec q). tauto.
  - intros q. rewrite Hdk. tauto.
  - intros FF g' [Hstrip Hsame]. split; [exact Hstrip|].
    intros q. rewrite <- Hdk. unfold filled. rewrite Hsame. reflexivity.
Qed.

Lemma plain_readback_dkshade_2_2 :
  readback_exact plain_fontforge default_params
    (dkshade_outline default_params 2 2 (blank_glyph 1000)) dkshade_2_2_redrawn.
Proof.
  split; [vm_compute; reflexivity|].
  intros q.
  destruct (shade_windings default_params 2 2 1000 q)
    as [F [L [EF [EL [ED [HF HL]]]]]].
  rewrite ED. unfold dkshade_2_2_redrawn.
  rewrite wind_rect in EF. cbn [blank_glyph g_layer wind add_wind] in EF.
  change (ltshade default_params 2 2 (blank_glyph 1000))
    with (cell default_params 2 2 0 0 (blank_glyph 1000)) in EL.
  rewrite wind_cell in EL. cbn [blank_glyph g_layer wind add_wind] in EL.
  rewrite wind_rect, wind_cut_cell. cbn [blank_glyph g_layer wind add_wind].
  injection EF as EF. injection EL as EL.
  change (sigma default_params) with 1%Z in HF, HL.
  set (c := cell_wind default_params 2 2 q (0, 0)%Z) in *.
  set (r := rect_wind (Xq default_params 0) (Yq default_params 0)
              (Xq default_params 1) (Yq default_params 1) q) in *.
  clearbody c r. clear ED. f_equal.
  destruct (Z.eqb_spec (F - L) 0); lia.
Qed.

Lemma dkshade_complements_ltshade_witness :
  readback_exact plain_fontforge default_params
    (dkshade_outline default_params 2 2 (blank_glyph 1000)) dkshade_2_2_redrawn /\
  dkshade plain_fontforge default_params 2 2 (blank_glyph 1000)
  = Ok dkshade_2_2_redrawn /\
  forall q,
    filled (g_layer dkshade_2_2_redrawn) q <->
    filled (g_layer (rect default_params 0 0 1 1 (blank_glyph 1000))) q /\
    ~ filled (g_layer (ltshade default_params 2 2 (blank_glyph 1000))) q.
Proof.
  split; [exact plain_readback_dkshade_2_2|].
  exact (proj2 (proj2 (proj2 (proj2
           (dkshade_complements_ltshade default_params 2 2 1000))))
           plain_fontforge dkshade_2_2_redrawn plain_readback_dkshade_2_2).
Defined.

(** ** Diagonal fill *)

Lemma Rq_le (u v : Q) : u <= v -> Rq u <= Rq v.
Proof. intros H. unfold Rq. rewrite <- Zle_Qle. now apply py_round_le. Qed.

Lemma Rq_comp (u v : Q) : u == v -> Rq u = Rq v.
Proof. intros H. unfold Rq. now rewrite (py_round_comp u v H). Qed.

Lemma Rq_inject_Z (z : Z) : Rq (inject_Z z) = inject_Z z.
Proof. unfold Rq. now rewrite py_round_inject_Z. Qed.

Lemma below_mono (t u v : Q) : u <= v -> (below t u <= below t v)%Z.
Proof.
  intros H. destruct (below_cases t u) as [[? ->]|[? ->]],
    (below_cases t v) as [[? ->]|[? ->]]; try lia. exfalso. lra.
Qed.

Lemma below_01 (t v : Q) : (0 <= below t v <= 1)%Z.
Proof. destruct (below_cases t v) as [[? ->]|[? ->]]; lia. Qed.

Lemma span_bounds (u v t : Q) : (-1 <= span u v t <= 1)%Z.
Proof. unfold span. pose proof (below_01 t u). pose proof (below_01 t v). lia. Qed.

Lemma rect_wind_bounds (x1 y1 x2 y2 : Q) (q : point) :
  (Z.abs (rect_wind x1 y1 x2 y2 q) <= 1)%Z.
Proof.
  unfold rect_wind.
  pose proof (span_bounds x1 x2 (fst q)). pose proof (span_bounds y2 y1 (snd q)).
  nia.
Qed.

Lemma stripes_invariant (p : Params) (w : Q) (q : point) (k : nat) :
  0 <= diagonalFillWeight p -> 0 <= diagonalSpaceWeight p ->
  let x := height p + width p in
  let g1 := rawrect (- x) (diagonalFillWeight p * (1 # 2))
                    x (- diagonalFillWeight p * (1 # 2)) (blank_glyph w) in
  exists s : Z,
    wind (g_layer (fold_left (fun acc i => stripe_body p i acc)
                     (List.map Z.of_nat (seq 0 k)) g1)) q
    = Some (span (Rq (- x)) (Rq x) (fst q) * s)%Z /\
    (0 <= s <= below (snd q) (Rq (stripe_edge p (Z.of_nat k)))
               - below (snd q) (Rq (- stripe_edge p (Z.of_nat k))))%Z.
Proof.
  intros HF HS x g1.
  induction k as [|k [s [E Hs]]].
  - exists (span (Rq (- diagonalFillWeight p * (1 # 2)))
                 (Rq (diagonalFillWeight p * (1 # 2))) (snd q)).
    split.
    + cbn [seq List.map fold_left]. unfold g1. rewrite wind_rawrect.
      cbn [blank_glyph g_layer wind add_wind]. unfold rect_wind, Rq.
      cbn [fst snd]. f_equal.
    + unfold span, stripe_edge. change (Z.of_nat 0) with 0%Z.
      rewrite (Rq_comp ((inject_Z 0 + (1 # 2)) * diagonalFillWeight p
                        + inject_Z 0 * diagonalSpaceWeight p)
                       (diagonalFillWeight p * (1 # 2)))
        by (change (inject_Z 0) with 0; ring).
      rewrite (Rq_comp (- ((inject_Z 0 + (1 # 2)) * diagonalFillWeight p
                           + inject_Z 0 * diagonalSpaceWeight p))
                       (- diagonalFillWeight p * (1 # 2)))
        by (change (inject_Z 0) with 0; ring).
      pose proof (below_mono (snd q) (Rq (- diagonalFillWeight p * (1 # 2)))
                    (Rq (diagonalFillWeight p * (1 # 2)))
                    ltac:(apply Rq_le; lra)).
      lia.
  - set (F := diagonalFillWeight p) in *. set (S := diagonalSpaceWeight p) in *.
    set (y1 := (inject_Z (Z.of_nat k) + (3 # 2)) * F
               + (inject_Z (Z.of_nat k) + 1) * S).
    set (y2 := (inject_Z (Z.of_nat k) + (1 # 2)) * F
               + (inject_Z (Z.of_nat k) + 1) * S).
    set (t := stripe_edge p (Z.of_nat k)) in *.
    assert (stripe_edge p (Z.of_nat (Datatypes.S k)) == y1) as Et.
    { unfold stripe_edge, y1. rewrite Nat2Z.inj_succ. unfold Z.succ.
      rewrite inject_Z_plus. change (inject_Z 1) with 1. fold F S. ring. }
    assert (0 <= inject_Z (Z.of_nat k)) as Hk.
    { change 0 with (inject_Z 0). rewrite <- Zle_Qle. lia. }
    assert (t <= y2) as H1 by (unfold t, stripe_edge, y2; fold F S; nra).
    assert (y2 <= y1) as H2 by (unfold y1, y2; nra).
    assert (- t <= t) as H3 by (unfold t, stripe_edge; fold F S; nra).
    exists (s + span (Rq y2) (Rq y1) (snd q)
            + span (Rq (- y1)) (Rq (- y2)) (snd q))%Z.
    split.
    + rewrite seq_S, List.map_app, fold_left_app. cbn [List.map fold_left Nat.add].
      unfold stripe_body at 1. fold F S x y1 y2.
      rewrite !wind_rawrect, E. cbn [add_wind]. unfold rect_wind. cbn [fst snd].
      fold (Rq (- x)) (Rq x) (Rq y1) (Rq y2) (Rq (- y1)) (Rq (- y2)).
      f_equal. ring.
    + rewrite (Rq_comp _ _ Et).
      rewrite (Rq_comp (- stripe_edge p (Z.of_nat (Datatypes.S k))) (- y1))
        by (rewrite Et; reflexivity).
      unfold span.
      pose proof (below_mono (snd q) (Rq t) (Rq y2) ltac:(apply Rq_le; lra)).
      pose proof (below_mono (snd q) (Rq y2) (Rq y1) ltac:(apply Rq_le; lra)).
      pose proof (below_mono (snd q) (Rq (- y1)) (Rq (- y2)) ltac:(apply Rq_le; lra)).
      pose proof (below_mono (snd q) (Rq (- y2)) (Rq (- t)) ltac:(apply Rq_le; lra)).
      lia.
Qed.

Lemma stripes_bounded (p : Params) (w : Q) (n : Z) (q : point) :
  0 <= diagonalFillWeight p -> 0 <= diagonalSpaceWeight p ->
  let x := height p + width p in
  let g1 := rawrect (- x) (diagonalFillWeight p * (1 # 2))
                    x (- diagonalFillWeight p * (1 # 2)) (blank_glyph w) in
  exists k : Z,
    wind (g_layer (for_range n (stripe_body p) g1)) q = Some k /\
    (Z.abs k <= 1)%Z.
Proof.
  intros HF HS x g1. unfold for_range, range.
  destruct (stripes_invariant p w q (Z.to_nat n) HF HS) as [s [E Hs]].
  fold x g1 in E. rewrite E.
  eexists. split; [reflexivity|].
  pose proof (span_bounds (Rq (- x)) (Rq x) (fst q)).
  pose proof (below_01 (snd q) (Rq (stripe_edge p (Z.of_nat (Z.to_nat n))))).
  pose proof (below_01 (snd q) (Rq (- stripe_edge p (Z.of_nat (Z.to_nat n))))).
  nia.
Qed.

Lemma Qsgn_bounds (v : Q) : (-1 <= Qsgn v <= 1)%Z.
Proof. unfold Qsgn. destruct (Qnum v); cbn; lia. Qed.

Lemma wind_transform_bounded (m : matrix) (s : shape) :
  (forall q, exists k, wind s q = Some k /\ (Z.abs k <= 1)%Z) ->
  forall q, exists k, wind (Transform m s) q = Some k /\ (Z.abs k <= 1)%Z.
Proof.
  intros H q. cbn [wind]. destruct (Qeq_bool (det m) 0).
  - exists 0%Z. split; [reflexivity | lia].
  - destruct (H (preimage m q)) as [k [-> Hk]].
    eexists. split; [reflexivity|].
    pose proof (Qsgn_bounds (det m)). nia.
Qed.

Lemma diagfill_outline_ok (M : Math) (p : Params) (angle w : Q) :
  ~ diagonalFillWeight p + diagonalSpaceWeight p == 0 ->
  exists outline, diagfill_outline M p angle (blank_glyph w) = Ok outline.
Proof.
  intros Hnz. unfold diagfill_outline, py_div.
  destruct (Qeq_bool (diagonalFillWeight p + diagonalSpaceWeight p) 0) eqn:E.
  - apply Qeq_bool_iff in E. contradiction.
  - cbn [rbind]. eexists. reflexivity.
Qed.

(** The outline of [diagfill] stays inside the rectangle drawn by
    [rect(0, 0, 1, 1)]. *)
Lemma diagfill_outline_clipped (M : Math) (p : Params) (angle w : Q)
    (outline : glyph) (q : point) :
  0 <= diagonalFillWeight p -> 0 <= diagonalSpaceWeight p ->
  diagfill_outline M p angle (blank_glyph w) = Ok outline ->
  filled (g_layer outline) q ->
  in_box (Xq p 0) (Yq p 0) (Xq p 1) (Yq p 1) q.
Proof.
  intros HF HS Hout [n [E Hn]].
  unfold diagfill_outline, py_div in Hout.
  destruct (Qeq_bool (diagonalFillWeight p + diagonalSpaceWeight p) 0);
    [discriminate|].
  cbn [rbind] in Hout. injection Hout as <-. cbv zeta in E.
  match type of E with
  | context [rect p 0 0 1 1 ?g] => set (G := g) in E
  end.
  cbn [on_layer g_layer wind] in E. rewrite wind_rect in E.
  assert (exists k, wind (g_layer G) q = Some k /\ (Z.abs k <= 1)%Z) as [k [Ek Hk]].
  { unfold G. cbn [on_layer g_layer].
    apply wind_transform_bounded. apply wind_transform_bounded.
    intros q'. apply (stripes_bounded p w _ q' HF HS). }
  rewrite Ek in E. cbn [add_wind] in E.
  injection E as <-.
  apply rect_wind_nonzero.
  pose proof (rect_wind_bounds (Xq p 0) (Yq p 0) (Xq p 1) (Yq p 1) q).
  destruct (Z.ltb_spec (Z.abs (k + rect_wind (Xq p 0) (Yq p 0) (Xq p 1) (Yq p 1) q)) 2);
    [now elim Hn | lia].
Qed.

Lemma for_each_rawpoly (polygons : list (list point)) (g0 : glyph) :
  Forall (fun pts => pts <> []) polygons ->
  exists g',
    for_each polygons rawpoly g0 = Ok g' /\
    g_width g' = g_width g0 /\
    pen_points (g_layer g')
    = pen_points (g_layer g0) ++ flat_map (List.map rounded) polygons.
Proof.
  revert g0. induction polygons as [|pts rest IH]; intros g0 Hne.
  - exists g0. cbn. rewrite app_nil_r. auto.
  - inversion Hne as [|? ? Hpts Hrest]; subst.
    destruct pts as [|pt pts]; [now elim Hpts|].
    cbn [for_each rawpoly rbind].
    destruct (IH (on_layer Simplify (pen_closed (List.map rounded (pt :: pts)) g0)) Hrest)
      as [g' [E [Hw Hp]]].
    exists g'. split; [exact E|]. split; [exact Hw|].
    rewrite Hp. cbn [on_layer pen_closed g_layer pen_points flat_map].
    now rewrite <- app_assoc.
Qed.

Lemma strip_points (FF : FontForge) (p : Params) (g : glyph) :
  Forall (fun c => on_curve_points c <> []) (contours_of FF (g_layer g)) ->
  exists g',
    _stripcontrolpoints FF p g = Ok g' /\
    g_width g' = width p /\
    pen_points (g_layer g')
    = flat_map (fun c => List.map rounded (on_curve_points c))
        (contours_of FF (g_layer g)).
Proof.
  intros Hne. unfold _stripcontrolpoints.
  destruct (for_each_rawpoly (List.map on_curve_points (contours_of FF (g_layer g)))
              (set_width (width p) (glyph_clear g))) as [g' [E [Hw Hp]]].
  - apply List.Forall_map. exact Hne.
  - exists g'. split; [exact E|]. split; [exact Hw|].
    rewrite Hp. cbn. clear.
    induction (contours_of FF (g_layer g)) as [|c cs IH]; cbn; [reflexivity|].
    now rewrite IH.
Qed.

Lemma filled_in_hull (s : shape) (pt : point) : filled s pt -> in_hull s pt.
Proof. intros Hf x1 y1 x2 y2 Hbox. now apply Hbox. Qed.

Lemma in_box_clip (p : Params) (q : point) :
  in_box (Xq p 0) (Yq p 0) (Xq p 1) (Yq p 1) q -> in_clip_box p q.
Proof. unfold in_box, in_clip_box. intros [? [? [? ?]]]. repeat split; lra. Qed.

Lemma Rq_idem (u : Q) : Rq (Rq u) = Rq u.
Proof. unfold Rq. now rewrite py_round_inject_Z. Qed.

Lemma Qmin_Rq (u v : Q) : Rq (Qmin (Rq u) (Rq v)) = Qmin (Rq u) (Rq v).
Proof.
  unfold Qmin, GenericMinMax.gmin. destruct (Rq u ?= Rq v); apply Rq_idem.
Qed.

Lemma Qmax_Rq (u v : Q) : Rq (Qmax (Rq u) (Rq v)) = Qmax (Rq u) (Rq v).
Proof.
  unfold Qmax, GenericMinMax.gmax. destruct (Rq u ?= Rq v); apply Rq_idem.
Qed.

Lemma rounded_in_clip (p : Params) (pt : point) :
  in_clip_box p pt -> in_clip_box p (rounded pt).
Proof.
  unfold in_clip_box, rounded; cbn [fst snd].
  change (Xq p 0) with (Rq (width p * 0)). change (Xq p 1) with (Rq (width p * 1)).
  change (Yq p 0) with (Rq (ascent p - height p * 0)).
  change (Yq p 1) with (Rq (ascent p - height p * 1)).
  fold (Rq (fst pt)) (Rq (snd pt)).
  intros [H1 [H2 [H3 H4]]].
  rewrite <- (Qmin_Rq (width p * 0)), <- (Qmax_Rq (width p * 0)),
          <- (Qmin_Rq (ascent p - height p * 0)), <- (Qmax_Rq (ascent p - height p * 0)).
  repeat split; apply Rq_le; assumption.
Qed.

Lemma is_integer_Rq (v : Q) : is_integer v -> Rq v == v.
Proof. apply py_round_integer. Qed.

Lemma is_integer_opp (v : Q) : is_integer v -> is_integer (- v).
Proof.
  unfold is_integer. intros H.
  rewrite <- H at 1. rewrite <- inject_Z_opp, Qfloor_Z, inject_Z_opp.
  now rewrite H.
Qed.

Lemma clip_box_is_em_box (p : Params) (q : point) :
  is_integer (width p) -> is_integer (ascent p) -> is_integer (descent p) ->
  height p == ascent p + descent p -> 0 <= width p -> 0 <= height p ->
  in_clip_box p q -> in_em_box p q.
Proof.
  intros Iw Ia Id Hh Hw Hh0. unfold in_clip_box, in_em_box.
  assert (Xq p 0 == 0) as ->.
  { change (Xq p 0) with (Rq (width p * 0)).
    rewrite (Rq_comp _ (inject_Z 0)) by (change (inject_Z 0) with 0; ring).
    rewrite Rq_inject_Z. reflexivity. }
  assert (Xq p 1 == width p) as ->.
  { change (Xq p 1) with (Rq (width p * 1)).
    rewrite (Rq_comp _ (width p)) by ring. now apply is_integer_Rq. }
  assert (Yq p 0 == ascent p) as ->.
  { change (Yq p 0) with (Rq (ascent p - height p * 0)).
    rewrite (Rq_comp _ (ascent p)) by ring. now apply is_integer_Rq. }
  assert (Yq p 1 == - descent p) as ->.
  { change (Yq p 1) with (Rq (ascent p - height p * 1)).
    rewrite (Rq_comp _ (- descent p)) by (rewrite Hh; ring).
    apply is_integer_Rq. now apply is_integer_opp. }
  intros [H1 [H2 [H3 H4]]].
  rewrite Q.min_l in H1 by assumption. rewrite Q.max_r in H2 by assumption.
  rewrite Q.min_r in H3 by lra. rewrite Q.max_l in H4 by lra.
  auto.
Qed.

(** C7, as the code has it.  For non-negative stripe weights whose sum
    is not zero, [diagfill(angle)] builds an outline that lies inside the
    rectangle drawn by [rect(0, 0, 1, 1)], whose corners are the corners
    of the em box rounded to integers.  When the points FontForge reads
    back lie in the hull of that outline, no point of a contour of the
    glyph [diagfill] returns is outside that rectangle; it is the em box
    [[0, width] x [-descent, ascent]] when width, ascent and descent are
    integers. *)
Theorem diagfill_inside_clip_box (M : Math) (FF : FontForge) (p : Params)
    (angle w : Q) :
  0 <= diagonalFillWeight p -> 0 <= diagonalSpaceWeight p ->
  ~ diagonalFillWeight p + diagonalSpaceWeight p == 0 ->
  exists outline : glyph,
    diagfill_outline M p angle (blank_glyph w) = Ok outline /\
    (forall q, filled (g_layer outline) q ->
               in_box (Xq p 0) (Yq p 0) (Xq p 1) (Yq p 1) q) /\
    (readback_sound FF (g_layer outline) ->
     exists g' : glyph,
       diagfill M FF p angle (blank_glyph w) = Ok g' /\
       Forall (in_clip_box p) (pen_points (g_layer g')) /\
       (is_integer (width p) -> is_integer (ascent p) -> is_integer (descent p) ->
        height p == ascent p + descent p -> 0 <= width p -> 0 <= height p ->
        Forall (in_em_box p) (pen_points (g_layer g')))).
Proof.
  intros HF HS Hnz.
  destruct (diagfill_outline_ok M p angle w Hnz) as [outline Eo].
  exists outline. split; [exact Eo|]. split.
  - intros q. now apply (diagfill_outline_clipped M p angle w).
  - intros Hrb.
    destruct (strip_points FF p outline) as [g' [Es [_ Hp]]].
    { eapply List.Forall_impl; [|exact Hrb]. cbn. tauto. }
    unfold readback_sound in Hrb.
    assert (Forall (in_clip_box p) (pen_points (g_layer g'))) as Hclip.
    { rewrite Hp. apply List.Forall_forall. intros pt Hpt.
      apply in_flat_map in Hpt as [c [Hc Hpt]].
      apply in_map_iff in Hpt as [pt0 [<- Hpt0]].
      apply rounded_in_clip.
      rewrite List.Forall_forall in Hrb. destruct (Hrb c Hc) as [_ Hhull].
      rewrite List.Forall_forall in Hhull.
      apply (Hhull pt0 Hpt0).
      intros q Hq. apply in_box_clip.
      now apply (diagfill_outline_clipped M p angle w outline). }
    exists g'. split; [|split].
    + unfold diagfill. rewrite Eo. exact Es.
    + exact Hclip.
    + intros Iw Ia Id Hh Hw Hh0.
      eapply List.Forall_impl; [|exact Hclip].
      intros pt. now apply clip_box_is_em_box.
Qed.

Lemma diagfill_inside_clip_box_witness :
  0 <= diagonalFillWeight default_params /\
  0 <= diagonalSpaceWeight default_params /\
  ~ diagonalFillWeight default_params + diagonalSpaceWeight default_params == 0 /\
  exists g' : glyph,
    diagfill approx_math triangle_fontforge default_params 0 (blank_glyph 1000)
    = Ok g' /\
    Forall (in_em_box default_params) (pen_points (g_layer g')).
Proof.
  assert (0 <= diagonalFillWeight default_params) as HF
    by (apply Qle_bool_iff; vm_compute; reflexivity).
  assert (0 <= diagonalSpaceWeight default_params) as HS
    by (apply Qle_bool_iff; vm_compute; reflexivity).
  assert (~ diagonalFillWeight default_params
            + diagonalSpaceWeight default_params == 0) as Hnz
    by (apply Qeq_bool_neq; vm_compute; reflexivity).
  split; [exact HF|]. split; [exact HS|]. split; [exact Hnz|].
  destruct (diagfill_inside_clip_box approx_math triangle_fontforge default_params
              0 1000 HF HS Hnz) as [outline [Eo [_ Hfinal]]].
  vm_compute in Eo. injection Eo as <-.
  destruct Hfinal as [g' [Eg [_ Hem]]].
  - unfold readback_sound. cbn [contours_of triangle_fontforge].
    apply List.Forall_cons; [|apply List.Forall_nil].
    split; [cbn; discriminate|].
    cbn [on_curve_points List.filter List.map snd fst].
    repeat apply List.Forall_cons; try apply List.Forall_nil;
      apply filled_in_hull; exists 1%Z;
      (split; [vm_compute; reflexivity | discriminate]).
  - exists g'. split; [exact Eg|].
    apply Hem; try (vm_compute; reflexivity);
      try (apply Qle_bool_iff; vm_compute; reflexivity).
Defined.

(** C7, as the specification words it, fails.  With ascent 803 and no
    descent given the descent is 200.75 and height and width are
    1003.75; [rect(0, 0, 1, 1)] rounds its corners to 1004 and -201, and
    at angle 0 the middle stripe fills the point [(1003.875, 300)], to the
    right of the em box. *)
Lemma diagfill_leaves_em_box :
  ~ in_em_box params_803 (8031 # 8, 300) /\
  forall M : Math,
    math_cos M (math_radians M 0) = 1 -> math_sin M (math_radians M 0) = 0 ->
    SLCParameters M kwargs_803 = params_803 /\
    exists outline : glyph,
      diagfill_outline M params_803 (diagonalFillAngle params_803)
        (blank_glyph (width params_803)) = Ok outline /\
      filled (g_layer outline) (8031 # 8, 300) /\
      forall FF : FontForge,
        diagfill M FF params_803 (diagonalFillAngle params_803)
          (blank_glyph (width params_803))
        = _stripcontrolpoints FF params_803 outline.
Proof.
  split.
  - intros [_ [H _]]. revert H. apply Qlt_not_le. reflexivity.
  - intros M Hc Hs. split; [reflexivity|].
    eexists. split; [|split].
    + unfold diagfill_outline, psMat_rotate.
      change (diagonalFillAngle params_803) with 0.
      rewrite Hc, Hs. vm_compute. reflexivity.
    + exists 1%Z. split; [vm_compute; reflexivity | discriminate].
    + intros FF. unfold diagfill, diagfill_outline, psMat_rotate.
      change (diagonalFillAngle params_803) with 0.
      rewrite Hc, Hs. reflexivity.
Qed.

(** ** Ellipses *)

Lemma Qltb_zero_mul_zero (v : Q) : Qltb 0 (v * 0) = false.
Proof. apply Qltb_ge. nra. Qed.

Lemma rawellipse_as_contours (cx cy orx ory irx iry bx1 by1 bx2 by2 : Q) (g : glyph) :
  rawellipse cx cy orx ory irx iry bx1 by1 bx2 by2 g
  = on_layer RoundToInt (on_layer Simplify (on_layer Intersect
      (rawrect bx1 by1 bx2 by2
         (draw_all (ellipse_contours cx cy orx ory irx iry) g)))).
Proof.
  unfold rawellipse, ellipse_contours, draw_all.
  destruct (Qltb 0 orx && Qltb 0 ory), (Qltb 0 irx && Qltb 0 iry); reflexivity.
Qed.

(** C10.  [rawellipse] draws the inner, reversed unit shape exactly when
    both inner radii are positive and the outer one exactly when both
    outer radii are positive, before it adds the clip rectangle and
    intersects.  A call of [ellipse] with inner radii zero draws no
    reversed contour: the layer is the outer disk intersected with the
    clip rectangle. *)
Theorem ellipse_hole_conditions (cx cy orx ory bx1 by1 bx2 by2 : Q) :
  (forall (irx iry : Q) (g : glyph),
     rawellipse cx cy orx ory irx iry bx1 by1 bx2 by2 g
     = on_layer RoundToInt (on_layer Simplify (on_layer Intersect
         (rawrect bx1 by1 bx2 by2
            (draw_all (ellipse_contours cx cy orx ory irx iry) g))))) /\
  (forall irx iry : Q,
     In (UnitShape 0 [psMat_scale irx iry; psMat_translate cx cy] true)
        (ellipse_contours cx cy orx ory irx iry)
     <-> 0 < irx /\ 0 < iry) /\
  (forall irx iry : Q,
     In (UnitShape 0 [psMat_scale orx ory; psMat_translate cx cy] false)
        (ellipse_contours cx cy orx ory irx iry)
     <-> 0 < orx /\ 0 < ory) /\
  (forall (irx iry : Q) (g : glyph),
     holes (g_layer (rawellipse cx cy orx ory irx iry bx1 by1 bx2 by2 g))
     = holes (g_layer g)
       ++ (if Qltb 0 irx && Qltb 0 iry
           then [UnitShape 0 [psMat_scale irx iry; psMat_translate cx cy] true]
           else [])) /\
  (forall (p : Params) (w : Q),
     holes (g_layer (ellipse p cx cy orx ory 0 0 bx1 by1 bx2 by2 (blank_glyph w)))
     = [] /\
     (0 < width p * orx -> 0 < height p * ory ->
      g_layer (ellipse p cx cy orx ory 0 0 bx1 by1 bx2 by2 (blank_glyph w))
      = RoundToInt (Simplify (Intersect
          (g_layer
             (rect p bx1 by1 bx2 by2
                (on_layer
                   (fun s =>
                      Draw s (UnitShape 0
                                [psMat_scale (width p * orx) (height p * ory);
                                 psMat_translate (width p * cx)
                                   (ascent p - height p * cy)] false))
                   (blank_glyph w)))))))).
Proof.
  split; [|split; [|split; [|split]]].
  - intros. apply rawellipse_as_contours.
  - intros irx iry. unfold ellipse_contours. rewrite in_app_iff.
    rewrite <- !Qltb_lt, <- andb_true_iff.
    destruct (Qltb 0 orx && Qltb 0 ory), (Qltb 0 irx && Qltb 0 iry); cbn;
      intuition (try discriminate; try congruence).
  - intros irx iry. unfold ellipse_contours. rewrite in_app_iff.
    rewrite <- !Qltb_lt, <- andb_true_iff.
    destruct (Qltb 0 orx && Qltb 0 ory), (Qltb 0 irx && Qltb 0 iry); cbn;
      intuition (try discriminate; try congruence).
  - intros irx iry g. unfold rawellipse.
    destruct (Qltb 0 orx && Qltb 0 ory), (Qltb 0 irx && Qltb 0 iry); cbn;
      rewrite ?app_nil_r; reflexivity.
  - intros p w. split.
    + unfold ellipse, rawellipse. rewrite !Qltb_zero_mul_zero.
      rewrite andb_false_r.
      destruct (Qltb 0 (width p * orx) && Qltb 0 (height p * ory)); reflexivity.
    + intros Hx Hy. unfold ellipse, rawellipse. rewrite !Qltb_zero_mul_zero.
      rewrite andb_false_r.
      apply Qltb_lt in Hx, Hy. rewrite Hx, Hy. reflexivity.
Qed.

Lemma ellipse_hole_conditions_witness :
  0 < width default_params * (1 # 2) /\
  0 < height default_params * (1 # 2) /\
  g_layer (ellipse default_params (1 # 2) 0 (1 # 2) (1 # 2) 0 0 0 0 1 1
             (blank_glyph 1000))
  = RoundToInt (Simplify (Intersect
      (g_layer
         (rect default_params 0 0 1 1
            (on_layer
               (fun s =>
                  Draw s (UnitShape 0
                            [psMat_scale (width default_params * (1 # 2))
                               (height default_params * (1 # 2));
                             psMat_translate (width default_params * (1 # 2))
                               (ascent default_params - height default_params * 0)]
                            false))
               (blank_glyph 1000)))))).
Proof.
  assert (0 < width default_params * (1 # 2)) as Hx by reflexivity.
  assert (0 < height default_params * (1 # 2)) as Hy by reflexivity.
  split; [exact Hx|]. split; [exact Hy|].
  exact (proj2 (proj2 (proj2 (proj2 (proj2
           (ellipse_hole_conditions (1 # 2) 0 (1 # 2) (1 # 2) 0 0 1 1))))
           default_params 1000) Hx Hy).
Defined.

(** ** Box-drawing strokes *)

Lemma py_index_nat {A : Type} (l : list A) (i : nat) (a : A) :
  nth_error l i = Some a -> py_index l (Z.of_nat i) = Ok a.
Proof.
  intros H. unfold py_index.
  assert (i < length l)%nat as Hlt by (apply nth_error_Some; congruence).
  destruct (Z.ltb_spec (Z.of_nat i) 0); [lia|].
  destruct (Z.ltb_spec (Z.of_nat i) 0); [lia|].
  destruct (Z.leb_spec (Z.of_nat (length l)) (Z.of_nat i)); [lia|].
  cbn [orb]. rewrite Nat2Z.id, H. reflexivity.
Qed.

Lemma py_index_from_end {A : Type} (l : list A) (k : nat) (a : A) :
  (1 <= k <= length l)%nat -> nth_error l (length l - k) = Some a ->
  py_index l (- Z.of_nat k) = Ok a.
Proof.
  intros Hk H. unfold py_index.
  destruct (Z.ltb_spec (- Z.of_nat k) 0); [|lia].
  destruct (Z.ltb_spec (Z.of_nat (length l) + - Z.of_nat k) 0); [lia|].
  destruct (Z.leb_spec (Z.of_nat (length l)) (Z.of_nat (length l) + - Z.of_nat k));
    [lia|].
  cbn [orb].
  replace (Z.to_nat (Z.of_nat (length l) + - Z.of_nat k)) with (length l - k)%nat
    by lia.
  rewrite H. reflexivity.
Qed.

Lemma py_index_out {A : Type} (l : list A) (i : Z) :
  (Z.of_nat (length l) <= i \/ i < - Z.of_nat (length l))%Z ->
  py_index l i = Raise IndexError.
Proof.
  intros H. unfold py_index.
  destruct (Z.ltb_spec i 0).
  - destruct (Z.ltb_spec (Z.of_nat (length l) + i) 0); [reflexivity|lia].
  - destruct (Z.ltb_spec i 0); [lia|].
    destruct (Z.leb_spec (Z.of_nat (length l)) i); [reflexivity|lia].
Qed.

Lemma extendpoints_as_specified (line : list point) :
  _extendpoints line
  = match extend_ends line with
    | Some ext => Ok ext
    | None => Raise IndexError
    end.
Proof.
  unfold _extendpoints, extend_ends.
  destruct line as [|a [|b rest]].
  - reflexivity.
  - cbn. reflexivity.
  - pose proof (py_index_nat (a :: b :: rest) 0 a eq_refl) as E0.
    pose proof (py_index_nat (a :: b :: rest) 1 b eq_refl) as E1.
    change (Z.of_nat 0) with 0%Z in E0. change (Z.of_nat 1) with 1%Z in E1.
    rewrite E0, E1. cbn [rbind].
    destruct (rev (a :: b :: rest)) as [|d [|c r]] eqn:Er.
    + apply (f_equal (@length _)) in Er. rewrite length_rev in Er. discriminate.
    + apply (f_equal (@length _)) in Er. rewrite length_rev in Er. discriminate.
    + assert (a :: b :: rest = rev r ++ [c; d]) as El.
      { rewrite <- (rev_involutive (a :: b :: rest)), Er. cbn.
        now rewrite <- app_assoc. }
      rewrite El.
      change (-2)%Z with (- Z.of_nat 2)%Z. change (-1)%Z with (- Z.of_nat 1)%Z.
      rewrite (py_index_from_end (rev r ++ [c; d]) 2 c).
      * rewrite (py_index_from_end (rev r ++ [c; d]) 1 d).
        -- cbn [rbind]. rewrite <- El. reflexivity.
        -- rewrite length_app. cbn. lia.
        -- rewrite length_app. cbn [length].
           replace (length (rev r) + 2 - 1)%nat with (length (rev r) + 1)%nat by lia.
           rewrite nth_error_app2 by lia.
           replace (length (rev r) + 1 - length (rev r))%nat with 1%nat by lia.
           reflexivity.
      * rewrite length_app. cbn. lia.
      * rewrite length_app. cbn [length].
        replace (length (rev r) + 2 - 2)%nat with (length (rev r) + 0)%nat by lia.
        rewrite nth_error_app2 by lia.
        replace (length (rev r) + 0 - length (rev r))%nat with 0%nat by lia.
        reflexivity.
Qed.


Lemma createChar_lookup (FF : FontForge) (cp : Z) (fnt : font) :
  exists g, createChar FF cp fnt !! cp = Some g.
Proof.
  unfold createChar. destruct (fnt !! cp) as [g|] eqn:E.
  - exists g. exact E.
  - eexists. apply lookup_insert_eq.
Qed.

Lemma createChar_lookup_ne (FF : FontForge) (cp cp' : Z) (fnt : font) :
  cp <> cp' -> createChar FF cp fnt !! cp' = fnt !! cp'.
Proof.
  intros H. unfold createChar. destruct (fnt !! cp); [reflexivity|].
  now apply lookup_insert_ne.
Qed.

Lemma extend_ends_cons (line ext : list point) :
  extend_ends line = Some ext -> exists q qs, ext = q :: qs.
Proof.
  unfold extend_ends. destruct line as [|a [|b rest]]; try discriminate.
  destruct (rev (a :: b :: rest)) as [|d [|c r]]; try discriminate.
  intros [= <-]. eauto.
Qed.

(** The scratch glyph after the stroke of one line, and the fonts on
    the way. *)
Lemma scratch_effect (FF : FontForge) (p : Params) (target : Z) (s : shape)
    (stroke : glyph -> glyph) (fnt : font) :
  (forall g, g_layer (on_layer Simplify (stroke (glyph_clear g))) = s) ->
  let fnt4 := alter (on_layer Simplify) 32%Z
                (alter stroke 32%Z (alter glyph_clear 32%Z (createChar FF 32%Z fnt))) in
  let fnt' := alter (set_width (width p)) 32%Z
                (alter glyph_clear 32%Z
                   (alter (on_layer (fun s' => DrawGlyph s' (layer_at 32%Z fnt4)))
                      target fnt4)) in
  space_is_blank p fnt' /\
  (forall cp, cp <> 32%Z -> cp <> target -> fnt' !! cp = fnt !! cp) /\
  (target <> 32%Z -> fnt' !! target = with_strokes [s] <$> fnt !! target).
Proof.
  intros Hs fnt4 fnt'.
  destruct (createChar_lookup FF 32%Z fnt) as [g32 E32].
  assert (fnt4 !! 32%Z = Some (on_layer Simplify (stroke (glyph_clear g32)))) as E4.
  { unfold fnt4. rewrite !lookup_alter_eq, E32. reflexivity. }
  assert (layer_at 32%Z fnt4 = s) as El.
  { unfold layer_at. rewrite E4. apply Hs. }
  split; [|split].
  - unfold space_is_blank, fnt'. rewrite !lookup_alter_eq.
    rewrite lookup_alter. destruct (decide (target = 32%Z)) as [->|Hne].
    + rewrite E4. reflexivity.
    + rewrite E4. reflexivity.
  - intros cp H32 Ht. unfold fnt', fnt4.
    rewrite !lookup_alter_ne by congruence.
    apply createChar_lookup_ne. congruence.
  - intros Hne. unfold fnt'.
    rewrite !lookup_alter_ne by congruence.
    rewrite lookup_alter_eq. rewrite El. unfold fnt4.
    rewrite !lookup_alter_ne by congruence.
    rewrite createChar_lookup_ne by congruence.
    reflexivity.
Qed.

Lemma boxdrawline_effect (FF : FontForge) (p : Params) (target : Z)
    (line : list point) (weight : Q) (truncate : bool) (fnt : font) :
  match stroked_line p line weight truncate with
  | Ok s =>
      exists fnt',
        _boxdrawline FF p target line weight truncate fnt = Ok fnt' /\
        space_is_blank p fnt' /\
        (forall cp, cp <> 32%Z -> cp <> target -> fnt' !! cp = fnt !! cp) /\
        (target <> 32%Z -> fnt' !! target = with_strokes [s] <$> fnt !! target)
  | Raise e => _boxdrawline FF p target line weight truncate fnt = Raise e
  end.
Proof.
  unfold stroked_line, _boxdrawline. destruct truncate.
  - rewrite extendpoints_as_specified.
    destruct (extend_ends line) as [ext|] eqn:Ee; [|reflexivity].
    destruct (extend_ends_cons _ _ Ee) as [q0 [qs ->]].
    cbn [rbind polyline].
    eexists. split; [reflexivity|].
    apply (scratch_effect FF p target
             (truncated_stroke p (q0 :: qs) weight)).
    intros g. reflexivity.
  - destruct line as [|q0 qs]; [reflexivity|].
    cbn [rbind polyline].
    eexists. split; [reflexivity|].
    apply (scratch_effect FF p target (plain_stroke p (q0 :: qs) weight)).
    intros g. reflexivity.
Qed.

Lemma with_strokes_app (ss ts : list shape) (g : glyph) :
  with_strokes ts (with_strokes ss g) = with_strokes (ss ++ ts) g.
Proof. unfold with_strokes, on_layer; cbn. now rewrite fold_left_app. Qed.

Lemma with_strokes_nil (g : glyph) : with_strokes [] g = g.
Proof. now destruct g. Qed.

(** All the lines of one builder call. *)
Lemma strokes_effect (FF : FontForge) (p : Params) (target : Z) (weight : Q)
    (truncate : bool) (lines : list (list point)) (fnt : font) :
  match all_strokes p lines weight truncate with
  | Ok ss =>
      exists fnt',
        for_each lines
          (fun line => _boxdrawline FF p target line weight truncate) fnt = Ok fnt' /\
        (space_is_blank p fnt -> space_is_blank p fnt') /\
        (lines <> [] -> space_is_blank p fnt') /\
        (forall cp, cp <> 32%Z -> cp <> target -> fnt' !! cp = fnt !! cp) /\
        (target <> 32%Z -> fnt' !! target = with_strokes ss <$> fnt !! target)
  | Raise e =>
      for_each lines
        (fun line => _boxdrawline FF p target line weight truncate) fnt = Raise e
  end.
Proof.
  revert fnt. induction lines as [|line rest IH]; intros fnt.
  - cbn. exists fnt. repeat split; auto.
    + intros H; now elim H.
    + intros _. destruct (fnt !! target) as [g|]; cbn; [|reflexivity].
      now rewrite with_strokes_nil.
  - cbn [all_strokes for_each].
    pose proof (boxdrawline_effect FF p target line weight truncate fnt) as H1.
    destruct (stroked_line p line weight truncate) as [s|e]; cbn [rbind].
    + destruct H1 as [fnt1 [E1 [B1 [O1 T1]]]]. rewrite E1. cbn [rbind].
      specialize (IH fnt1).
      destruct (all_strokes p rest weight truncate) as [ss|e]; cbn [rbind].
      * destruct IH as [fnt' [E' [B' [_ [O' T']]]]].
        exists fnt'. split; [exact E'|]. repeat split; auto.
        -- intros cp H32 Ht. rewrite O', O1; auto.
        -- intros Hne. rewrite T', T1 by assumption.
           destruct (fnt !! target) as [g|]; cbn; [|reflexivity].
           f_equal; try apply (with_strokes_app [s] ss g).
      * exact IH.
    + rewrite H1. reflexivity.
Qed.

Lemma on_glyph_frame (cp : Z) (f : glyph -> result glyph) (fnt fnt' : font) :
  on_glyph cp f fnt = Ok fnt' ->
  forall cp', cp' <> cp -> fnt' !! cp' = fnt !! cp'.
Proof.
  unfold on_glyph. destruct (fnt !! cp) as [g|]; [|now intros [= <-]].
  destruct (f g) as [g'|e]; cbn [rbind]; [|discriminate].
  intros [= <-] cp' Hne. apply lookup_insert_ne. congruence.
Qed.

Lemma for_each_invariant {A S : Type} (I : S -> Prop) (body : A -> S -> result S)
    (xs : list A) :
  (forall x s s', In x xs -> I s -> body x s = Ok s' -> I s') ->
  forall s s', I s -> for_each xs body s = Ok s' -> I s'.
Proof.
  induction xs as [|x xs IH]; intros Hstep s s' Hs E; cbn in E.
  - now injection E as <-.
  - destruct (body x s) as [s1|e] eqn:E1; cbn [rbind] in E; [|discriminate].
    apply (IH (fun y t t' Hy => Hstep y t t' (or_intror Hy)) s1 s'); [|exact E].
    apply (Hstep x s s1); cbn; auto.
Qed.

Lemma mkglyph_lookup (FF : FontForge) (p : Params) (name : string) (cp : Z)
    (fnt : font) :
  mkglyph FF p name cp fnt !! cp = Some (blank_glyph (width p)).
Proof.
  unfold mkglyph. rewrite !lookup_alter_eq.
  destruct (createChar_lookup FF cp fnt) as [g ->]. reflexivity.
Qed.

Lemma mkglyph_lookup_ne (FF : FontForge) (p : Params) (name : string) (cp cp' : Z)
    (fnt : font) :
  cp <> cp' -> mkglyph FF p name cp fnt !! cp' = fnt !! cp'.
Proof.
  intros H. unfold mkglyph. rewrite !lookup_alter_ne by assumption.
  now apply createChar_lookup_ne.
Qed.

(** A builder that strokes lines and then merges them keeps the space
    glyph blank and touches no other glyph than its target. *)
Lemma stroke_builder_frame (FF : FontForge) (p : Params) (target : Z)
    (fnt fnt1 fnt' : font) :
  target <> 32%Z ->
  (space_is_blank p fnt -> space_is_blank p fnt1) ->
  (forall cp, cp <> 32%Z -> cp <> target -> fnt1 !! cp = fnt !! cp) ->
  merge_strokes FF p target fnt1 = Ok fnt' ->
  space_is_blank p fnt ->
  space_is_blank p fnt' /\
  forall cp, cp <> target -> cp <> 32%Z -> fnt' !! cp = fnt !! cp.
Proof.
  intros Hne Hb Ho Em Hs. unfold merge_strokes in Em.
  pose proof (on_glyph_frame _ _ _ _ Em) as Hf.
  split.
  - unfold space_is_blank. rewrite Hf by congruence. now apply Hb.
  - intros cp Ht H32. rewrite Hf by assumption. now apply Ho.
Qed.

Lemma strokes_frame (FF : FontForge) (p : Params) (target : Z) (weight : Q)
    (truncate : bool) (lines : list (list point)) (fnt fnt1 : font) :
  for_each lines (fun line => _boxdrawline FF p target line weight truncate) fnt
  = Ok fnt1 ->
  (space_is_blank p fnt -> space_is_blank p fnt1) /\
  (forall cp, cp <> 32%Z -> cp <> target -> fnt1 !! cp = fnt !! cp).
Proof.
  intros E.
  pose proof (strokes_effect FF p target weight truncate lines fnt) as H.
  destruct (all_strokes p lines weight truncate) as [ss|e].
  - destruct H as [fnt2 [E2 [B [_ [O _]]]]].
    rewrite E in E2. injection E2 as <-. auto.
  - rewrite E in H. discriminate.
Qed.

Lemma run_step_frame (M : Math) (FF : FontForge) (p : Params) (target : Z)
    (st : step) (fnt fnt' : font) :
  target <> 32%Z -> space_is_blank p fnt ->
  run_step M FF p target st fnt = Ok fnt' ->
  space_is_blank p fnt' /\
  forall cp, cp <> target -> cp <> 32%Z -> fnt' !! cp = fnt !! cp.
Proof.
  intros Hne Hs E.
  assert (forall f, on_glyph target f fnt = Ok fnt' ->
            space_is_blank p fnt' /\
            forall cp, cp <> target -> cp <> 32%Z -> fnt' !! cp = fnt !! cp) as Hg.
  { intros f Ef. pose proof (on_glyph_frame _ _ _ _ Ef) as Hf. split.
    - unfold space_is_blank. rewrite Hf by congruence. exact Hs.
    - intros cp Ht _. now apply Hf. }
  destruct st; cbn [run_step] in E; try (now apply (Hg _ E)).
  - unfold boxdrawlight in E.
    destruct (for_each lines _ fnt) as [fnt1|e] eqn:E1; cbn [rbind] in E;
      [|discriminate].
    apply strokes_frame in E1 as [B O].
    now apply (stroke_builder_frame FF p target fnt fnt1 fnt').
  - unfold boxdrawheavy in E.
    destruct (for_each lines _ fnt) as [fnt1|e] eqn:E1; cbn [rbind] in E;
      [|discriminate].
    apply strokes_frame in E1 as [B O].
    now apply (stroke_builder_frame FF p target fnt fnt1 fnt').
  - unfold boxdrawmixed in E.
    destruct (for_each lightLines _ fnt) as [fnt1|e] eqn:E1; cbn [rbind] in E;
      [|discriminate].
    destruct (for_each heavyLines _ fnt1) as [fnt2|e] eqn:E2; cbn [rbind] in E;
      [|discriminate].
    apply strokes_frame in E1 as [B1 O1]. apply strokes_frame in E2 as [B2 O2].
    apply (stroke_builder_frame FF p target fnt fnt2 fnt'); auto.
    intros cp H32 Ht. rewrite O2, O1; auto.
  - unfold boxdrawdiag in E.
    destruct (for_each lines _ fnt) as [fnt1|e] eqn:E1; cbn [rbind] in E;
      [|discriminate].
    apply strokes_frame in E1 as [B O].
    now apply (stroke_builder_frame FF p target fnt fnt1 fnt').
Qed.

Lemma build_entry_frame (M : Math) (FF : FontForge) (p : Params) (e : entry)
    (fnt fnt' : font) :
  entry_codepoint e <> 32%Z -> space_is_blank p fnt ->
  build_entry M FF p e fnt = Ok fnt' -> space_is_blank p fnt'.
Proof.
  destruct e as [[name cp] steps]. unfold entry_codepoint; cbn [fst snd].
  intros Hne Hs E. unfold build_entry in E.
  apply (for_each_invariant (space_is_blank p) (run_step M FF p cp) steps)
    with (s := mkglyph FF p name cp fnt); [| |exact E].
  - intros st s s' _ Is Es. now apply (run_step_frame M FF p cp st s s').
  - unfold space_is_blank. rewrite mkglyph_lookup_ne by assumption. exact Hs.
Qed.

Lemma slcgen_codepoints_not_space : Forall (fun cp => cp <> 32%Z) slcgen_codepoints.
Proof.
  apply List.Forall_forall. intros cp Hcp.
  assert (forallb (fun c => negb (c =? 32)%Z) slcgen_codepoints = true) as H
    by (vm_compute; reflexivity).
  rewrite forallb_forall in H. specialize (H cp Hcp).
  apply negb_true_iff, Z.eqb_neq in H. exact H.
Qed.



(** C9.  Every stroked line uses the glyph at code point 32 as its
    scratch buffer and leaves it without contours and with the advance
    width of the font; no glyph other than the target and the scratch
    glyph changes.  Hence every builder step on another target keeps the
    space glyph blank, and so does the whole run: in the font [slcgen]
    returns the space glyph is empty, no catalogue line being on code
    point 32. *)
Theorem space_glyph_stays_empty (M : Math) (FF : FontForge) (p : Params) :
  (forall (target : Z) (line : list point) (weight : Q) (truncate : bool)
          (fnt fnt' : font),
     _boxdrawline FF p target line weight truncate fnt = Ok fnt' ->
     space_is_blank p fnt' /\
     forall cp, cp <> 32%Z -> cp <> target -> fnt' !! cp = fnt !! cp) /\
  (forall (target : Z) (st : step) (fnt fnt' : font),
     target <> 32%Z -> space_is_blank p fnt ->
     run_step M FF p target st fnt = Ok fnt' ->
     space_is_blank p fnt' /\
     forall cp, cp <> target -> cp <> 32%Z -> fnt' !! cp = fnt !! cp) /\
  (forall (catalogue : Params -> Offsets -> list entry) (kw : kwargs) (fnt : font),
     (forall p' o, Forall (fun e => entry_codepoint e <> 32%Z) (catalogue p' o)) ->
     slcgen M FF catalogue kw = Ok fnt ->
     space_is_blank (SLCParameters M kw) fnt) /\
  Forall (fun cp => cp <> 32%Z) slcgen_codepoints.
Proof.
  split; [|split; [|split]].
  - intros target line weight truncate fnt fnt' E.
    pose proof (boxdrawline_effect FF p target line weight truncate fnt) as H.
    destruct (stroked_line p line weight truncate) as [s|e].
    + destruct H as [fnt2 [E2 [B [O _]]]]. rewrite E in E2. injection E2 as <-. auto.
    + rewrite E in H. discriminate.
  - apply run_step_frame.
  - intros catalogue kw fnt Hcat E. unfold slcgen in E.
    destruct (slcgen_offsets M (SLCParameters M kw)) as [o|e]; cbn [rbind] in E;
      [|discriminate].
    set (q := SLCParameters M kw) in *.
    apply (for_each_invariant (space_is_blank q) (build_entry M FF q) (catalogue q o))
      with (s := mkglyph FF q "uni00A0" 160%Z (mkglyph FF q "space" 32%Z ∅));
      [| |exact E].
    + intros e s s' He Is Es.
      apply (build_entry_frame M FF q e s s'); [|exact Is|exact Es].
      specialize (Hcat q o). rewrite List.Forall_forall in Hcat. now apply Hcat.
    + unfold space_is_blank. rewrite mkglyph_lookup_ne by discriminate.
      apply mkglyph_lookup.
  - apply slcgen_codepoints_not_space.
Qed.

Lemma space_glyph_stays_empty_witness :
  (forall p' o, Forall (fun e => entry_codepoint e <> 32%Z) (bars_catalogue p' o)) /\
  exists fnt : font,
    slcgen approx_math plain_fontforge bars_catalogue no_kwargs = Ok fnt /\
    space_is_blank default_params fnt.
Proof.
  assert (forall p' o, Forall (fun e => entry_codepoint e <> 32%Z) (bars_catalogue p' o))
    as Hcat by (intros p' o; repeat constructor; discriminate).
  split; [exact Hcat|].
  destruct (slcgen approx_math plain_fontforge bars_catalogue no_kwargs) as [fnt|e] eqn:E.
  - exists fnt. split; [reflexivity|].
    exact (proj1 (proj2 (proj2
             (space_glyph_stays_empty approx_math plain_fontforge default_params)))
             bars_catalogue no_kwargs fnt Hcat E).
  - exfalso. vm_compute in E. discriminate.
Defined.

(* ================================================================= *)
(** ** More on parameter resolution *)

(** X1.  Values given explicitly are taken as they are: resolving the
    parameters again from their own attributes changes none of them,
    whatever the [math] module does. *)
Theorem explicit_parameters_verbatim (M M' : Math) :
  (forall p : Params,
     height p = ascent p + descent p -> SLCParameters M (explicit p) = p) /\
  (forall kw : kwargs,
     SLCParameters M' (explicit (SLCParameters M kw)) = SLCParameters M kw).
Proof.
  split.
  - intros [a d h w ph pw an fw sw bl bh bg br bt tr st sr sb sl f] Hh.
    cbn in Hh. subst h. reflexivity.
  - intros kw. reflexivity.
Qed.

(** X2.  The parameters that come in pairs stay tied unless both members of
    the pair are given: square pixels, equal stripe and gap weights, a
    heavy line twice the light one, equal paddings on opposite sides;
    the gap of double lines is the light weight unless given. *)
Theorem paired_parameters_tied (M : Math) (kw : kwargs) :
  let p := SLCParameters M kw in
  (kw_pixelHeight kw = None \/ kw_pixelWidth kw = None ->
   pixelHeight p = pixelWidth p) /\
  (kw_pixelHeight kw = None -> kw_pixelWidth kw = None ->
   pixelHeight p = 20%Z /\ pixelWidth p = 20%Z) /\
  (kw_diagonalFillWeight kw = None \/ kw_diagonalSpaceWeight kw = None ->
   diagonalFillWeight p = diagonalSpaceWeight p) /\
  (kw_boxLightWeight kw = None \/ kw_boxHeavyWeight kw = None ->
   boxHeavyWeight p == boxLightWeight p * 2) /\
  (kw_boxDoubleGap kw = None -> boxDoubleGap p = boxLightWeight p) /\
  (kw_separationTop kw = None \/ kw_separationBottom kw = None ->
   separationTop p = separationBottom p) /\
  (kw_separationLeft kw = None \/ kw_separationRight kw = None ->
   separationLeft p = separationRight p).
Proof.
  destruct kw as [a d w ph pw an fw sw bl bh bg br bt tr st sr sb sl f].
  cbn. repeat apply conj.
  - intros [-> | ->]; [destruct pw | destruct ph]; reflexivity.
  - intros -> ->. split; reflexivity.
  - intros [-> | ->]; [destruct sw | destruct fw]; reflexivity.
  - intros [-> | ->]; [destruct bh | destruct bl]; cbn; try reflexivity; field.
  - intros ->. reflexivity.
  - intros [-> | ->]; [destruct sb | destruct st]; reflexivity.
  - intros [-> | ->]; [destruct sr | destruct sl]; reflexivity.
Qed.

(** X3.  Only the three parameters of the diagonal fill depend on the [math]
    module, and not even they do once the angle and one of the two
    weights are given. *)
Theorem math_only_in_diagonal_fill (M M' : Math) (kw : kwargs) :
  let p := SLCParameters M kw in
  let p' := SLCParameters M' kw in
  (ascent p = ascent p' /\ descent p = descent p' /\ height p = height p' /\
   width p = width p' /\ pixelHeight p = pixelHeight p' /\
   pixelWidth p = pixelWidth p' /\
   boxLightWeight p = boxLightWeight p' /\ boxHeavyWeight p = boxHeavyWeight p' /\
   boxDoubleGap p = boxDoubleGap p' /\ boxArcRadius p = boxArcRadius p' /\
   boxTickLength p = boxTickLength p' /\ boxLineTruncate p = boxLineTruncate p' /\
   separationTop p = separationTop p' /\ separationRight p = separationRight p' /\
   separationBottom p = separationBottom p' /\
   separationLeft p = separationLeft p' /\ file p = file p') /\
  (kw_diagonalFillAngle kw <> None -> diagonalFillAngle p = diagonalFillAngle p') /\
  (kw_diagonalFillWeight kw <> None \/ kw_diagonalSpaceWeight kw <> None ->
   diagonalFillWeight p = diagonalFillWeight p' /\
   diagonalSpaceWeight p = diagonalSpaceWeight p') /\
  (kw_diagonalFillAngle kw <> None ->
   kw_diagonalFillWeight kw <> None \/ kw_diagonalSpaceWeight kw <> None ->
   p = p').
Proof.
  destruct kw as [a d w ph pw an fw sw bl bh bg br bt tr st sr sb sl f].
  cbn. repeat apply conj; try reflexivity.
  - destruct an; [reflexivity | congruence].
  - destruct fw, sw; intros H; try (split; reflexivity);
      destruct H as [N | N]; congruence.
  - destruct an; [| congruence]. intros _.
    destruct fw, sw; intros H; try reflexivity;
      destruct H as [N | N]; congruence.
Qed.

(* ================================================================= *)
(** ** Divisions by a run-time value *)

Lemma py_div_ok (a b : Q) : ~ b == 0 -> py_div a b = Ok (a / b).
Proof.
  intros N. unfold py_div.
  destruct (Qeq_bool b 0) eqn:E; [| reflexivity].
  apply Qeq_bool_iff in E. contradiction.
Qed.

Lemma py_div_zero (a b : Q) : b == 0 -> py_div a b = Raise ZeroDivisionError.
Proof.
  intros Z. unfold py_div. apply Qeq_bool_iff in Z. rewrite Z. reflexivity.
Qed.

Lemma py_div_cases (a b : Q) :
  (b == 0 /\ py_div a b = Raise ZeroDivisionError) \/
  (~ b == 0 /\ py_div a b = Ok (a / b)).
Proof.
  destruct (Qeq_dec b 0) as [Z | N].
  - left. split; [exact Z | apply py_div_zero; exact Z].
  - right. split; [exact N | apply py_div_ok; exact N].
Qed.

(* ================================================================= *)
(** ** The command line *)

Section CommandLineProperties.
Variable py_int : string -> option Z.
Variable py_float : string -> option Q.

Ltac flag_cases H :=
  unfold store in H;
  repeat match type of H with
         | context [if String.eqb ?a ?b then _ else _] =>
             destruct (String.eqb a b)
         end.

Ltac stored H :=
  unfold abs_int, abs_count, abs_float in H;
  repeat match type of H with
         | context [py_int ?a] => destruct (py_int a)
         | context [py_float ?a] => destruct (py_float a)
         end;
  cbn [option_map] in H;
  try discriminate H;
  try (injection H as <-).

Lemma store_len (flag arg : string) (kw kw' : kwargs) :
  store py_int py_float flag arg kw = Some kw' -> kwargs_len kw' <> 0%nat.
Proof.
  intros H. flag_cases H; stored H.
  all: unfold kwargs_len; cbn; lia.
Qed.

Lemma store_nonneg (flag arg : string) (kw kw' : kwargs) :
  store py_int py_float flag arg kw = Some kw' ->
  nonneg_kwargs kw /\ kw_boxTickLength kw = None ->
  nonneg_kwargs kw' /\ kw_boxTickLength kw' = None.
Proof.
  intros H [N T].
  assert (Ai : forall z, 0 <= inject_Z (Z.abs z)).
  { intros z. change 0 with (inject_Z 0). rewrite <- Zle_Qle. apply Z.abs_nonneg. }
  pose proof Qabs_nonneg as Aq. pose proof Z.abs_nonneg as Az.
  unfold nonneg_kwargs in *.
  destruct N as (N1 & N2 & N3 & N4 & N5 & N6 & N7 & N8 & N9 & N10 & N11 & N12
                 & N13 & N14 & N15 & N16).
  flag_cases H; stored H; cbn; unfold nonneg, nonneg_count; auto 20.
Qed.

Lemma store_all_len (pairs : list (string * string)) (kw kw' : kwargs) :
  pairs <> [] -> store_all py_int py_float pairs kw = Some kw' ->
  kwargs_len kw' <> 0%nat.
Proof.
  revert kw. induction pairs as [| fv rest IH]; intros kw N H; [contradiction |].
  cbn in H. destruct (store py_int py_float (fst fv) (snd fv) kw) as [kw1 |] eqn:E;
    [| discriminate].
  destruct rest as [| fv' rest'].
  - cbn in H. injection H as <-. eapply store_len; exact E.
  - apply (IH kw1); [discriminate | exact H].
Qed.

Lemma store_all_nonneg (pairs : list (string * string)) (kw kw' : kwargs) :
  store_all py_int py_float pairs kw = Some kw' ->
  nonneg_kwargs kw /\ kw_boxTickLength kw = None ->
  nonneg_kwargs kw' /\ kw_boxTickLength kw' = None.
Proof.
  revert kw. induction pairs as [| fv rest IH]; intros kw H I.
  - cbn in H. injection H as <-. exact I.
  - cbn in H. destruct (store py_int py_float (fst fv) (snd fv) kw) as [kw1 |] eqn:E;
      [| discriminate].
    apply (IH kw1 H). eapply store_nonneg; eauto.
Qed.

(** The loop over well-formed pairs is the fold of [store]. *)
Lemma main_loop_pairs (pairs : list (string * string)) (rest : list string)
    (kw : kwargs) :
  Forall (fun fv => String.prefix "-" (fst fv) = true) pairs ->
  main_loop py_int py_float (flatten_pairs pairs ++ rest) kw None
  = match store_all py_int py_float pairs kw with
    | Some kw' => main_loop py_int py_float rest kw' None
    | None => Help
    end.
Proof.
  revert kw. induction pairs as [| fv ps IH]; intros kw F.
  - reflexivity.
  - inversion F as [| ? ? Hd Ft]; subst.
    cbn [flatten_pairs flat_map app main_loop store_all].
    rewrite Hd.
    destruct (store py_int py_float (fst fv) (snd fv) kw) as [kw1 |];
      [| reflexivity].
    apply (IH kw1 Ft).
Qed.

Lemma main_loop_run (args : list string) (kw : kwargs) :
  (forall kw0,
     main_loop py_int py_float args kw0 None = Run kw ->
     exists pairs,
       args = flatten_pairs pairs /\
       Forall (fun fv => String.prefix "-" (fst fv) = true) pairs /\
       store_all py_int py_float pairs kw0 = Some kw /\
       (pairs = [] -> kwargs_len kw0 <> 0%nat)) /\
  (forall kw0 flag,
     String.prefix "-" flag = true ->
     main_loop py_int py_float args kw0 (Some flag) = Run kw ->
     exists v pairs,
       args = v :: flatten_pairs pairs /\
       Forall (fun fv => String.prefix "-" (fst fv) = true) ((flag, v) :: pairs) /\
       store_all py_int py_float ((flag, v) :: pairs) kw0 = Some kw).
Proof.
  induction args as [| a rest [IH1 IH2]]; split.
  - intros kw0 H. cbn [main_loop given] in H. rewrite orb_false_r in H.
    destruct (kwargs_len kw0 =? 0)%nat eqn:E; [discriminate |].
    injection H as <-.
    exists []. repeat split; try constructor.
    intros _. apply Nat.eqb_neq. exact E.
  - intros kw0 flag _ H. cbn [main_loop given] in H.
    rewrite orb_true_r in H. discriminate.
  - intros kw0 H. cbn [main_loop] in H.
    destruct (String.prefix "-" a) eqn:Pa; [| discriminate].
    destruct (IH2 kw0 a Pa H) as (v & pairs & -> & F & S).
    exists ((a, v) :: pairs). repeat split; auto; discriminate.
  - intros kw0 flag Pf H. cbn [main_loop] in H.
    destruct (store py_int py_float flag a kw0) as [kw1 |] eqn:E; [| discriminate].
    destruct (IH1 kw1 H) as (pairs & -> & F & S & _).
    exists a, pairs. repeat split; auto.
    cbn [store_all fst snd]. rewrite E. exact S.
Qed.

(** X5.  [main] calls [slcgen] exactly when its arguments are one or more
    pairs of a flag, which starts with a dash, and a value that the flag
    accepts; the keyword arguments are then those the pairs store from
    left to right.  In every other case it prints the usage text: no
    argument, a flag without its value, a word without dash where a flag
    is due, an unknown flag or a value that is refused. *)
Theorem main_folds_flag_value_pairs (argv : list string) (kw : kwargs) :
  main py_int py_float argv = Run kw <->
  exists pairs : list (string * string),
    pairs <> [] /\ tl argv = flatten_pairs pairs /\
    Forall (fun fv => String.prefix "-" (fst fv) = true) pairs /\
    store_all py_int py_float pairs no_kwargs = Some kw.
Proof.
  unfold main. split.
  - intros H.
    destruct (proj1 (main_loop_run (tl argv) kw) no_kwargs H)
      as (pairs & E & F & S & L).
    exists pairs. repeat split; auto.
    intros ->. apply L; reflexivity.
  - intros (pairs & N & E & F & S).
    rewrite E, <- (app_nil_r (flatten_pairs pairs)).
    rewrite (main_loop_pairs pairs [] no_kwargs F), S.
    cbn [main_loop given]. rewrite orb_false_r.
    pose proof (store_all_len pairs no_kwargs kw N S) as L.
    apply Nat.eqb_neq in L. rewrite L. reflexivity.
Qed.

Lemma Qmin_nonneg (a b : Q) : 0 <= a -> 0 <= b -> 0 <= Qmin a b.
Proof. intros Ha Hb. apply Q.min_glb; assumption. Qed.

Lemma Qmax_nonneg (a b : Q) : 0 <= a -> 0 <= Qmax a b.
Proof. intros Ha. eapply Qle_trans; [exact Ha | apply Q.le_max_l]. Qed.

Lemma resolved_nonneg (M : Math) (kw : kwargs) :
  nonneg_kwargs kw -> kw_boxTickLength kw = None ->
  let p := SLCParameters M kw in
  0 <= ascent p /\ 0 <= descent p /\ 0 <= height p /\ 0 <= width p /\
  (0 <= pixelHeight p)%Z /\ (0 <= pixelWidth p)%Z /\
  0 <= diagonalFillWeight p /\ 0 <= diagonalSpaceWeight p /\
  0 <= boxLightWeight p /\ 0 <= boxHeavyWeight p /\ 0 <= boxDoubleGap p /\
  0 <= boxArcRadius p /\ 0 <= boxTickLength p /\
  0 <= separationTop p /\ 0 <= separationRight p /\
  0 <= separationBottom p /\ 0 <= separationLeft p.
Proof.
  intros N T. cbv zeta.
  destruct kw as [a d w ph pw an fw sw bl bh bg br bt tr st sr sb sl f].
  cbn in T. subst bt.
  unfold nonneg_kwargs in N. cbn in N.
  destruct N as (Na & Nd & Nw & Nph & Npw & Nan & Nfw & Nsw & Nbl & Nbh & Nbg
                 & Nbr & Nst & Nsr & Nsb & Nsl).
  cbn [SLCParameters ascent descent height width pixelHeight pixelWidth
       diagonalFillWeight diagonalSpaceWeight boxLightWeight boxHeavyWeight
       boxDoubleGap boxArcRadius boxTickLength separationTop separationRight
       separationBottom separationLeft kw_ascent kw_descent kw_width
       kw_pixelHeight kw_pixelWidth kw_diagonalFillAngle kw_diagonalFillWeight
       kw_diagonalSpaceWeight kw_boxLightWeight kw_boxHeavyWeight kw_boxDoubleGap
       kw_boxArcRadius kw_boxTickLength kw_separationTop kw_separationRight
       kw_separationBottom kw_separationLeft if_given].
  set (A := if_given a (match d with Some d0 => d0 * 4 | None => 800 end)).
  set (D := if_given d (match a with Some a0 => a0 / 4 | None => 200 end)).
  assert (HA : 0 <= A).
  { subst A. destruct a as [a0 |]; cbn in *; [exact Na |].
    destruct d as [d0 |]; cbn in *; lra. }
  assert (HD : 0 <= D).
  { subst D. destruct d as [d0 |]; cbn in *; [exact Nd |].
    destruct a as [a0 |]; cbn in *; [| lra].
    apply Qle_shift_div_l; lra. }
  assert (HH : 0 <= A + D) by lra.
  set (W := if_given w (A + D)).
  assert (HW : 0 <= W).
  { subst W. destruct w as [w0 |]; cbn in *; [exact Nw | exact HH]. }
  assert (H18 : 0 <= (A + D) / 18) by (apply Qle_shift_div_l; lra).
  assert (HF : forall s c : Q, 0 <= ((A + D) * Qabs c + W * Qabs s) / 16).
  { intros s c. apply Qle_shift_div_l; [lra |].
    pose proof (Qabs_nonneg s). pose proof (Qabs_nonneg c).
    pose proof (Qmult_le_0_compat _ _ HH H0).
    pose proof (Qmult_le_0_compat _ _ HW H). lra. }
  assert (HL : 0 <= match bl, bh with
                    | None, None => (A + D) / 9
                    | Some l, _ => l
                    | None, Some h => h / 2
                    end).
  { destruct bl as [l |], bh as [h |]; cbn in *; try assumption;
      apply Qle_shift_div_l; lra. }
  repeat apply conj.
  - exact HA.
  - exact HD.
  - exact HH.
  - exact HW.
  - destruct ph as [v |]; cbn in *; [exact Nph |].
    destruct pw as [v |]; cbn in *; [exact Npw | lia].
  - destruct pw as [v |]; cbn in *; [exact Npw |].
    destruct ph as [v |]; cbn in *; [exact Nph | lia].
  - destruct fw as [v |], sw as [v' |]; cbn in *; try assumption. apply HF.
  - destruct fw as [v |], sw as [v' |]; cbn in *; try assumption. apply HF.
  - exact HL.
  - destruct bl as [l |], bh as [h |]; cbn in *; try assumption; lra.
  - destruct bg as [v |]; cbn in *; [exact Nbg | exact HL].
  - destruct br as [v |]; cbn in *; [exact Nbr |].
    apply Qle_shift_div_l; [lra |]. rewrite Qmult_0_l.
    apply Qmin_nonneg; assumption.
  - apply Qmin_nonneg.
    + apply Qle_shift_div_l; [lra |]. rewrite Qmult_0_l.
      apply Qmax_nonneg; assumption.
    + apply Qle_shift_div_l; [lra |]. rewrite Qmult_0_l.
      apply Qmin_nonneg; assumption.
  - destruct st as [v |], sb as [v' |], sr as [v'' |], sl as [v''' |];
      cbn in *; assumption.
  - destruct st as [v |], sb as [v' |], sr as [v'' |], sl as [v''' |];
      cbn in *; assumption.
  - destruct st as [v |], sb as [v' |], sr as [v'' |], sl as [v''' |];
      cbn in *; assumption.
  - destruct st as [v |], sb as [v' |], sr as [v'' |], sl as [v''' |];
      cbn in *; assumption.
Qed.

(** X6.  Whatever is typed on the command line, no keyword that [main]
    reads with [int] reaches [slcgen] negative ([main] takes the absolute
    value), and the tick length cannot be set at all; so the resolved
    metrics, pixel counts, line weights, gap, radius, tick length and
    paddings are at least zero.  The angle and the two weights of the
    diagonal fill, which [main] reads with [float], are left out. *)
Theorem command_line_values_nonnegative (M : Math) (argv : list string)
    (kw : kwargs) :
  main py_int py_float argv = Run kw ->
  (nonneg (kw_ascent kw) /\ nonneg (kw_descent kw) /\ nonneg (kw_width kw) /\
   nonneg_count (kw_pixelHeight kw) /\ nonneg_count (kw_pixelWidth kw) /\
   nonneg (kw_boxLightWeight kw) /\ nonneg (kw_boxHeavyWeight kw) /\
   nonneg (kw_boxDoubleGap kw) /\ nonneg (kw_boxArcRadius kw) /\
   nonneg (kw_separationTop kw) /\ nonneg (kw_separationRight kw) /\
   nonneg (kw_separationBottom kw) /\ nonneg (kw_separationLeft kw)) /\
  kw_boxTickLength kw = None /\
  let p := SLCParameters M kw in
  0 <= ascent p /\ 0 <= descent p /\ 0 <= height p /\ 0 <= width p /\
  (0 <= pixelHeight p)%Z /\ (0 <= pixelWidth p)%Z /\
  0 <= boxLightWeight p /\ 0 <= boxHeavyWeight p /\ 0 <= boxDoubleGap p /\
  0 <= boxArcRadius p /\ 0 <= boxTickLength p /\
  0 <= separationTop p /\ 0 <= separationRight p /\
  0 <= separationBottom p /\ 0 <= separationLeft p.
Proof.
  intros H. unfold main in H.
  destruct (proj1 (main_loop_run (tl argv) kw) no_kwargs H) as (pairs & _ & _ & S & _).
  assert (I : nonneg_kwargs no_kwargs /\ kw_boxTickLength no_kwargs = None).
  { unfold nonneg_kwargs. cbn. tauto. }
  destruct (store_all_nonneg pairs no_kwargs kw S I) as [N T].
  split; [unfold nonneg_kwargs in N; tauto |]. split; [exact T |].
  pose proof (resolved_nonneg M kw N T) as R. cbv zeta in R |- *. tauto.
Qed.

(** X7.  The three shorthand flags for the paddings do what the flags of
    the single sides do one after the other. *)
Theorem separation_shorthands (v : string) :
  (forall kw,
     store py_int py_float "-sp" v kw
     = store_all py_int py_float
         [("-st", v); ("-sr", v); ("-sb", v); ("-sl", v)]%string kw /\
     store py_int py_float "-sv" v kw
     = store_all py_int py_float [("-st", v); ("-sb", v)]%string kw /\
     store py_int py_float "-sh" v kw
     = store_all py_int py_float [("-sr", v); ("-sl", v)]%string kw) /\
  (forall (prog : string) (rest : list string),
     main py_int py_float (prog :: "-sp" :: v :: rest)%string
     = main py_int py_float
         (prog :: "-st" :: v :: "-sr" :: v :: "-sb" :: v :: "-sl" :: v :: rest)%string /\
     main py_int py_float (prog :: "-sv" :: v :: rest)%string
     = main py_int py_float (prog :: "-st" :: v :: "-sb" :: v :: rest)%string /\
     main py_int py_float (prog :: "-sh" :: v :: rest)%string
     = main py_int py_float (prog :: "-sr" :: v :: "-sl" :: v :: rest)%string).
Proof.
  split.
  - intros kw. unfold store_all, store, abs_int. cbn.
    destruct (py_int v); cbn; repeat split; reflexivity.
  - intros prog rest. unfold main, store_all, store, abs_int. cbn.
    unfold store, abs_int. cbn.
    destruct (py_int v); cbn; repeat split; reflexivity.
Qed.

(** X8.  When a flag is repeated, the later value replaces the earlier
    one: nothing of the first occurrence is left. *)
Theorem repeated_flag_last_wins (flag v1 v2 : string) (kw kw1 : kwargs) :
  store py_int py_float flag v1 kw = Some kw1 ->
  store py_int py_float flag v2 kw1 = store py_int py_float flag v2 kw.
Proof.
  intros H. unfold store in *.
  repeat match type of H with
         | context [if String.eqb ?a ?b then _ else _] =>
             destruct (String.eqb a b)
         end;
    stored H; cbn; try reflexivity.
Qed.

End CommandLineProperties.

Lemma command_line_values_nonnegative_witness :
  main decimal_int decimal_float ["slcgen.py"; "-a"; "-803"]%string
  = Run (set_metrics (Some 803) None None no_kwargs) /\
  0 <= ascent (SLCParameters approx_math (set_metrics (Some 803) None None no_kwargs)) /\
  0 <= width (SLCParameters approx_math (set_metrics (Some 803) None None no_kwargs)).
Proof.
  assert (E : main decimal_int decimal_float ["slcgen.py"; "-a"; "-803"]%string
              = Run (set_metrics (Some 803) None None no_kwargs)) by reflexivity.
  split; [exact E |].
  pose proof (command_line_values_nonnegative decimal_int decimal_float approx_math
                _ _ E) as (_ & _ & H).
  cbv zeta in H. destruct H as (Ha & _ & _ & Hw & _).
  split; assumption.
Defined.

Lemma repeated_flag_last_wins_witness :
  store decimal_int decimal_float "-w" "600" no_kwargs
  = Some (set_metrics None None (Some 600) no_kwargs) /\
  store decimal_int decimal_float "-w" "500"
    (set_metrics None None (Some 600) no_kwargs)
  = store decimal_int decimal_float "-w" "500" no_kwargs.
Proof.
  assert (E : store decimal_int decimal_float "-w" "600" no_kwargs
              = Some (set_metrics None None (Some 600) no_kwargs)) by reflexivity.
  split; [exact E |].
  exact (repeated_flag_last_wins decimal_int decimal_float "-w" "600" "500" _ _ E).
Defined.

(* ================================================================= *)
(** ** Rectangles *)

Lemma add_wind_zero (o : option Z) : add_wind 0 o = o.
Proof. destruct o as [n |]; cbn; [rewrite Z.add_0_r |]; reflexivity. Qed.

Lemma wind_blank_rect (p : Params) (x1 y1 x2 y2 w : Q) (q : point) :
  wind (g_layer (rect p x1 y1 x2 y2 (blank_glyph w))) q
  = Some (rect_wind (Xq p x1) (Yq p y1) (Xq p x2) (Yq p y2) q).
Proof. rewrite wind_rect. reflexivity. Qed.

Lemma filled_rect (p : Params) (x1 y1 x2 y2 w : Q) (q : point) :
  filled (g_layer (rect p x1 y1 x2 y2 (blank_glyph w))) q
  <-> rect_wind (Xq p x1) (Yq p y1) (Xq p x2) (Yq p y2) q <> 0%Z.
Proof. apply filled_some, wind_blank_rect. Qed.

(** The winding number of an upright rectangle given in unit-square
    coordinates with its corners in order. *)
Lemma rect_wind_upright (p : Params) (x1 y1 x2 y2 : Q) (q : point) :
  x1 <= x2 -> y1 <= y2 ->
  rect_wind (Xq p x1) (Yq p y1) (Xq p x2) (Yq p y2) q = 0%Z \/
  rect_wind (Xq p x1) (Yq p y1) (Xq p x2) (Yq p y2) q = sigma p.
Proof.
  intros Hx Hy. unfold rect_wind.
  rewrite (span_swap (Yq p y2) (Yq p y1)).
  destruct (span_mono_cases _ _ x1 x2 (fst q) (Xq_monotone p) Hx) as [-> | ->];
    [lia |].
  destruct (span_mono_cases _ _ y1 y2 (snd q) (Yq_monotone p) Hy) as [-> | ->];
    [lia |].
  right. unfold sigma. lia.
Qed.

Lemma sigma_upright (p : Params) : 0 <= width p -> 0 <= height p -> sigma p = 1%Z.
Proof.
  intros Hw Hh. unfold sigma, dir.
  apply Qle_bool_iff in Hw, Hh. rewrite Hw, Hh. reflexivity.
Qed.

(** X9.  [rect] fills the half-open box between its corners, taken to
    design coordinates and rounded; [_rectccw] fills the same box.  For a
    width and a height that are not negative and corners given in order,
    the contour of [rect] runs clockwise (winding number 1) and that of
    [_rectccw] counter-clockwise, and drawing both leaves the winding
    number of every point as it was. *)
Theorem rect_fills_rounded_box (p : Params) (x1 y1 x2 y2 w : Q) :
  (forall q,
     filled (g_layer (rect p x1 y1 x2 y2 (blank_glyph w))) q
     <-> in_box (Xq p x1) (Yq p y1) (Xq p x2) (Yq p y2) q) /\
  (forall q,
     filled (g_layer (_rectccw p x1 y1 x2 y2 (blank_glyph w))) q
     <-> in_box (Xq p x1) (Yq p y1) (Xq p x2) (Yq p y2) q) /\
  (0 <= width p -> 0 <= height p -> x1 <= x2 -> y1 <= y2 ->
   forall q,
     in_box (Xq p x1) (Yq p y1) (Xq p x2) (Yq p y2) q ->
     wind (g_layer (rect p x1 y1 x2 y2 (blank_glyph w))) q = Some 1%Z /\
     wind (g_layer (_rectccw p x1 y1 x2 y2 (blank_glyph w))) q = Some (-1)%Z) /\
  (forall g q,
     wind (g_layer (_rectccw p x1 y1 x2 y2 (rect p x1 y1 x2 y2 g))) q
     = wind (g_layer g) q).
Proof.
  split; [| split; [| split]].
  - intros q. rewrite filled_rect. apply rect_wind_nonzero.
  - intros q. rewrite <- rect_wind_nonzero.
    assert (E : wind (g_layer (_rectccw p x1 y1 x2 y2 (blank_glyph w))) q
                = Some (- rect_wind (Xq p x1) (Yq p y1) (Xq p x2) (Yq p y2) q)%Z)
      by (rewrite wind_rectccw; reflexivity).
    rewrite (filled_some _ _ _ E). lia.
  - intros Hw Hh Hx Hy q B.
    apply rect_wind_nonzero in B.
    destruct (rect_wind_upright p x1 y1 x2 y2 q Hx Hy) as [Z | S];
      [contradiction |].
    rewrite (sigma_upright p Hw Hh) in S.
    rewrite wind_rect, wind_rectccw, S. split; reflexivity.
  - intros g q. rewrite wind_rectccw, wind_rect, add_wind_add.
    replace (_ + - _)%Z with 0%Z by lia. apply add_wind_zero.
Qed.

Lemma rect_fills_rounded_box_witness :
  0 <= width default_params /\ 0 <= height default_params /\
  0 <= 1 # 2 /\ 0 <= 1 /\
  wind (g_layer (rect default_params 0 0 (1 # 2) 1 (blank_glyph 1000))) (100, 100)
  = Some 1%Z.
Proof.
  assert (Hw : 0 <= width default_params) by (cbn; lra).
  assert (Hh : 0 <= height default_params) by (cbn; lra).
  assert (Hx : 0 <= 1 # 2) by lra.
  assert (Hy : 0 <= 1) by lra.
  split; [exact Hw |]. split; [exact Hh |]. split; [exact Hx |]. split; [exact Hy |].
  apply (proj1 (proj2 (proj2 (rect_fills_rounded_box default_params 0 0 (1 # 2) 1 1000)))
           Hw Hh Hx Hy (100, 100)).
  vm_compute. intuition discriminate.
Defined.

Lemma span_telescope (a b c t : Q) : (span a b t + span b c t = span a c t)%Z.
Proof. unfold span. lia. Qed.

Lemma rect_split_x (x1 y1 x2 y2 t : Q) (q : point) :
  (rect_wind x1 y1 t y2 q + rect_wind t y1 x2 y2 q = rect_wind x1 y1 x2 y2 q)%Z.
Proof. unfold rect_wind. rewrite <- (span_telescope x1 t x2). ring. Qed.

Lemma rect_split_y (x1 y1 x2 y2 t : Q) (q : point) :
  (rect_wind x1 y1 x2 t q + rect_wind x1 t x2 y2 q = rect_wind x1 y1 x2 y2 q)%Z.
Proof. unfold rect_wind. rewrite <- (span_telescope y2 t y1). ring. Qed.

(** X10.  Two rectangles that [rect] draws on either side of a common edge
    add up to the rectangle around both: every point has the same
    winding number, so rounding leaves neither a gap nor an overlap along
    the edge.  With the corners in order, the two parts do not share a
    point and together fill what the whole fills. *)
Theorem adjacent_rectangles_tile (p : Params) (x1 y1 x2 y2 t w : Q) :
  (forall g q,
     wind (g_layer (rect p t y1 x2 y2 (rect p x1 y1 t y2 g))) q
     = wind (g_layer (rect p x1 y1 x2 y2 g)) q) /\
  (forall g q,
     wind (g_layer (rect p x1 t x2 y2 (rect p x1 y1 x2 t g))) q
     = wind (g_layer (rect p x1 y1 x2 y2 g)) q) /\
  (x1 <= t -> t <= x2 -> forall q,
     let l := g_layer (rect p x1 y1 t y2 (blank_glyph w)) in
     let r := g_layer (rect p t y1 x2 y2 (blank_glyph w)) in
     ~ (filled l q /\ filled r q) /\
     (filled l q \/ filled r q
      <-> filled (g_layer (rect p x1 y1 x2 y2 (blank_glyph w))) q)) /\
  (y1 <= t -> t <= y2 -> forall q,
     let u := g_layer (rect p x1 y1 x2 t (blank_glyph w)) in
     let d := g_layer (rect p x1 t x2 y2 (blank_glyph w)) in
     ~ (filled u q /\ filled d q) /\
     (filled u q \/ filled d q
      <-> filled (g_layer (rect p x1 y1 x2 y2 (blank_glyph w))) q)).
Proof.
  split; [| split; [| split]].
  - intros g q. rewrite !wind_rect, add_wind_add.
    unfold Xq, Yq. rewrite rect_split_x. reflexivity.
  - intros g q. rewrite !wind_rect, add_wind_add.
    unfold Xq, Yq. rewrite rect_split_y. reflexivity.
  - intros H1 H2 q. cbv zeta. rewrite !filled_rect.
    pose proof (rect_split_x (Xq p x1) (Yq p y1) (Xq p x2) (Yq p y2) (Xq p t) q) as E.
    assert (D : ~ (rect_wind (Xq p x1) (Yq p y1) (Xq p t) (Yq p y2) q <> 0%Z /\
                   rect_wind (Xq p t) (Yq p y1) (Xq p x2) (Yq p y2) q <> 0%Z)).
    { unfold rect_wind. rewrite <- !Z.neq_mul_0. intros [[A _] [B _]].
      apply B.
      apply (span_mono_disjoint _ _ x1 t t x2 (fst q) (Xq_monotone p));
        try assumption; lra. }
    split; [exact D |]. lia.
  - intros H1 H2 q. cbv zeta. rewrite !filled_rect.
    pose proof (rect_split_y (Xq p x1) (Yq p y1) (Xq p x2) (Yq p y2) (Yq p t) q) as E.
    assert (D : ~ (rect_wind (Xq p x1) (Yq p y1) (Xq p x2) (Yq p t) q <> 0%Z /\
                   rect_wind (Xq p x1) (Yq p t) (Xq p x2) (Yq p y2) q <> 0%Z)).
    { unfold rect_wind. rewrite <- !Z.neq_mul_0. intros [[_ A] [_ B]].
      rewrite span_swap in A. rewrite span_swap in B.
      assert (A' : span (Yq p y1) (Yq p t) (snd q) <> 0%Z) by lia.
      assert (B' : span (Yq p t) (Yq p y2) (snd q) <> 0%Z) by lia.
      apply B'.
      apply (span_mono_disjoint _ _ y1 t t y2 (snd q) (Yq_monotone p));
        try assumption; lra. }
    split; [exact D |]. lia.
Qed.

(* ================================================================= *)
(** ** Shades and their parts *)

Lemma land_1_cases (n : Z) : Z.land n 1 = 0%Z \/ Z.land n 1 = 1%Z.
Proof.
  change 1%Z with (Z.ones 1) at 1 2. rewrite Z.land_ones by lia.
  change (2 ^ 1)%Z with 2%Z.
  pose proof (Z.mod_pos_bound n 2). lia.
Qed.

Lemma shade_bits_inverse (rows cols x y : Z) :
  shade_bits rows cols false x y <> 0%Z <-> shade_bits rows cols true x y = 0%Z.
Proof.
  unfold shade_bits.
  destruct (land_1_cases (x + y)) as [-> | ->],
           (land_1_cases (rows + cols)) as [-> | ->];
    vm_compute; intuition congruence.
Qed.

(** X11.  The medium shade and its inverse are complementary: every cell
    of the grid is painted by exactly one of [shade(rows, cols, False)]
    and [shade(rows, cols, True)], the two glyphs share no point, and
    together they fill all the cells: the boxes between the grid lines
    [x/cols], [(x+1)/cols] and [y/rows], [(y+1)/rows] in design
    coordinates, rounded. *)
Theorem shade_inverse_is_complement (p : Params) (rows cols : Z) (w : Q) :
  let s0 := g_layer (shade p rows cols false (blank_glyph w)) in
  let s1 := g_layer (shade p rows cols true (blank_glyph w)) in
  (forall c, In c (grid rows cols) ->
     (In c (shade_cells rows cols false) <-> ~ In c (shade_cells rows cols true))) /\
  (forall q, ~ (filled s0 q /\ filled s1 q)) /\
  (forall q,
     filled s0 q \/ filled s1 q <->
     exists c, In c (grid rows cols) /\
       filled (g_layer (cell p rows cols (fst c) (snd c) (blank_glyph 0))) q) /\
  (forall q,
     filled s0 q \/ filled s1 q <->
     exists x y : Z,
       (0 <= x < cols)%Z /\ (0 <= y < rows)%Z /\
       in_box
         (inject_Z (py_round (width p * (inject_Z x / inject_Z cols))))
         (inject_Z (py_round (ascent p - height p * (inject_Z y / inject_Z rows))))
         (inject_Z (py_round (width p * (inject_Z (x + 1) / inject_Z cols))))
         (inject_Z (py_round (ascent p
                              - height p * (inject_Z (y + 1) / inject_Z rows))))
         q).
Proof.
  cbv zeta.
  assert (P : forall c, In c (grid rows cols) ->
     (In c (shade_cells rows cols false) <-> ~ In c (shade_cells rows cols true))).
  { intros c G. apply In_grid in G. rewrite !In_shade_cells.
    pose proof (shade_bits_inverse rows cols (fst c) (snd c)). tauto. }
  assert (G : forall c inverse, In c (shade_cells rows cols inverse) ->
                                In c (grid rows cols)).
  { intros c inverse Hc. apply In_shade_cells in Hc. apply In_grid. tauto. }
  pose proof (shade_fills p rows cols false w) as F0.
  pose proof (shade_fills p rows cols true w) as F1.
  unfold fills_exactly in F0, F1.
  assert (D : forall q,
    ~ (filled (g_layer (shade p rows cols false (blank_glyph w))) q /\
       filled (g_layer (shade p rows cols true (blank_glyph w))) q)).
  { intros q [H0 H1].
    apply F0 in H0. apply F1 in H1.
    destruct H0 as (c0 & I0 & K0), H1 as (c1 & I1 & K1).
    apply filled_cell in K0, K1.
    destruct (shade_cells_positive _ _ _ _ I0) as [Hr Hc].
    pose proof (cell_wind_disjoint p rows cols q c0 c1 Hr Hc K0 K1) as E.
    subst c1. apply (P c0 (G _ _ I0)) in I0. contradiction. }
  assert (U : forall q,
    filled (g_layer (shade p rows cols false (blank_glyph w))) q \/
    filled (g_layer (shade p rows cols true (blank_glyph w))) q <->
    exists c, In c (grid rows cols) /\
      filled (g_layer (cell p rows cols (fst c) (snd c) (blank_glyph 0))) q).
  { intros q. rewrite F0, F1. split.
    - intros [(c & I & K) | (c & I & K)]; exists c; split; eauto.
    - intros (c & I & K).
      assert (Dc : {In c (shade_cells rows cols true)} +
                   {~ In c (shade_cells rows cols true)}).
      { apply in_dec. intros [a b] [a' b'].
        destruct (Z.eq_dec a a'), (Z.eq_dec b b'); [left | right ..]; congruence. }
      destruct Dc as [Dc | Dc].
      + right. exists c. tauto.
      + left. exists c. split; [apply (P c I); exact Dc | exact K]. }
  split; [exact P |]. split; [exact D |]. split; [exact U |].
  intros q. rewrite U. split.
  - intros (c & I & K). apply In_grid in I. apply cell_box in K.
    exists (fst c), (snd c). tauto.
  - intros (x & y & Hx & Hy & K). exists (x, y). split.
    + apply In_grid. cbn [fst snd]. tauto.
    + apply cell_box. exact K.
Qed.

Lemma poly_corners (p : Params) (x1 y1 x2 y2 : Q) (g : glyph) :
  poly p (corners x1 y1 x2 y2) g = Ok (rect p x1 y1 x2 y2 g).
Proof. reflexivity. Qed.

Lemma shadepart_as_outline (FF : FontForge) (p : Params) (rows cols : Z)
    (inverse : bool) (points : list point) (union : bool) (g : glyph) :
  shadepart FF p rows cols inverse points union g
  = rbind (shadepart_outline p rows cols inverse points union g)
          (_stripcontrolpoints FF p).
Proof.
  unfold shadepart, shadepart_outline.
  destruct (poly p points (shade p rows cols inverse g)); reflexivity.
Qed.

Lemma sigma_cases (p : Params) : sigma p = 1%Z \/ sigma p = (-1)%Z.
Proof.
  unfold sigma. destruct (dir_cases (width p)) as [-> | ->],
                         (dir_cases (height p)) as [-> | ->]; auto.
Qed.

(** X12.  A partial shade whose polygon is an upright rectangle is the
    shade pattern cut to that rectangle (the intersecting mode) or the
    pattern together with the whole rectangle (the union mode).  The
    statement is about the outline before the closing
    [_stripcontrolpoints], which re-draws what FontForge reads back. *)
Theorem shadepart_adds_or_clips_rectangle (p : Params) (rows cols : Z)
    (inverse : bool) (x1 y1 x2 y2 w : Q) :
  x1 <= x2 -> y1 <= y2 ->
  let sh := g_layer (shade p rows cols inverse (blank_glyph w)) in
  let box := g_layer (rect p x1 y1 x2 y2 (blank_glyph w)) in
  exists both either : glyph,
    shadepart_outline p rows cols inverse (corners x1 y1 x2 y2) false (blank_glyph w)
    = Ok both /\
    shadepart_outline p rows cols inverse (corners x1 y1 x2 y2) true (blank_glyph w)
    = Ok either /\
    (forall q, filled (g_layer both) q <-> filled sh q /\ filled box q) /\
    (forall q, filled (g_layer either) q <-> filled sh q \/ filled box q) /\
    (forall (FF : FontForge) (union : bool) (points : list point) (g : glyph),
       shadepart FF p rows cols inverse points union g
       = rbind (shadepart_outline p rows cols inverse points union g)
               (_stripcontrolpoints FF p)).
Proof.
  intros Hx Hy. cbv zeta.
  unfold shadepart_outline. rewrite poly_corners. cbn [rbind].
  eexists. eexists. split; [reflexivity |]. split; [reflexivity |].
  assert (W : forall q, exists n P : Z,
    wind (g_layer (shade p rows cols inverse (blank_glyph w))) q = Some n /\
    wind (g_layer (rect p x1 y1 x2 y2 (blank_glyph w))) q = Some P /\
    wind (g_layer (rect p x1 y1 x2 y2 (shade p rows cols inverse (blank_glyph w)))) q
    = Some (n + P)%Z /\
    (n = 0%Z \/ n = sigma p) /\ (P = 0%Z \/ P = sigma p)).
  { intros q.
    destruct (painted_region p rows cols (shade_cells rows cols inverse) w q
                (NoDup_shade_cells _ _ _) (shade_cells_positive _ _ _))
      as (n & Wn & Cn).
    rewrite <- shade_as_cells in Wn.
    exists n, (rect_wind (Xq p x1) (Yq p y1) (Xq p x2) (Yq p y2) q).
    split; [exact Wn |]. split; [apply wind_blank_rect |].
    split; [rewrite wind_rect, Wn; reflexivity |].
    split; [tauto | apply rect_wind_upright; assumption]. }
  split; [| split].
  - intros q. destruct (W q) as (n & P & Wn & WP & Wb & Cn & CP).
    rewrite (filled_some _ _ _ Wn), (filled_some _ _ _ WP).
    assert (E : wind (g_layer (on_layer Simplify (on_layer Intersect
                  (rect p x1 y1 x2 y2 (shade p rows cols inverse (blank_glyph w)))))) q
                = Some (if (Z.abs (n + P) <? 2)%Z then 0 else 1)%Z).
    { cbn [on_layer g_layer wind]. rewrite Wb. reflexivity. }
    rewrite (filled_some _ _ _ E).
    destruct (sigma_cases p) as [S | S]; rewrite S in *;
      destruct Cn as [-> | ->], CP as [-> | ->]; vm_compute; intuition congruence.
  - intros q. destruct (W q) as (n & P & Wn & WP & Wb & Cn & CP).
    rewrite (filled_some _ _ _ Wn), (filled_some _ _ _ WP).
    assert (E : wind (g_layer (on_layer Simplify (on_layer RemoveOverlap
                  (rect p x1 y1 x2 y2 (shade p rows cols inverse (blank_glyph w)))))) q
                = Some (if (n + P =? 0)%Z then 0 else 1)%Z).
    { cbn [on_layer g_layer wind]. rewrite Wb. reflexivity. }
    rewrite (filled_some _ _ _ E).
    destruct (sigma_cases p) as [S | S]; rewrite S in *;
      destruct Cn as [-> | ->], CP as [-> | ->]; vm_compute; intuition congruence.
  - intros FF union points g. apply shadepart_as_outline.
Qed.

Lemma shadepart_adds_or_clips_rectangle_witness :
  0 <= 1 # 2 /\ 0 <= 1 /\
  exists both either : glyph,
    shadepart_outline default_params 20 20 false (corners 0 0 (1 # 2) 1) false
      (blank_glyph 1000) = Ok both /\
    shadepart_outline default_params 20 20 false (corners 0 0 (1 # 2) 1) true
      (blank_glyph 1000) = Ok either /\
    (forall q,
       filled (g_layer both) q <->
       filled (g_layer (shade default_params 20 20 false (blank_glyph 1000))) q /\
       filled (g_layer (rect default_params 0 0 (1 # 2) 1 (blank_glyph 1000))) q) /\
    (forall q,
       filled (g_layer either) q <->
       filled (g_layer (shade default_params 20 20 false (blank_glyph 1000))) q \/
       filled (g_layer (rect default_params 0 0 (1 # 2) 1 (blank_glyph 1000))) q).
Proof.
  assert (Hx : 0 <= 1 # 2) by lra.
  assert (Hy : 0 <= 1) by lra.
  split; [exact Hx |]. split; [exact Hy |].
  destruct (shadepart_adds_or_clips_rectangle default_params 20 20 false
              0 0 (1 # 2) 1 1000 Hx Hy) as (both & either & E1 & E2 & F1 & F2 & _).
  exists both, either.
  split; [exact E1 |]. split; [exact E2 |]. split; [exact F1 | exact F2].
Defined.

(* ================================================================= *)
(** ** Mosaics: [bitmap] and [sepmap] *)

Lemma truthy_low_bit (m : Z) : truthy (Z.land m 1) = Z.testbit m 0.
Proof.
  unfold truthy. rewrite Z.bit0_odd.
  change 1%Z with (Z.ones 1) at 1. rewrite Z.land_ones by lia.
  change (2 ^ 1)%Z with 2%Z. rewrite Zmod_odd.
  destruct (Z.odd m); reflexivity.
Qed.

(** A loop that takes one bit of [m] per element, lowest bit first. *)
Lemma shift_loop {St : Type} (f : Z -> St -> St) (k a : nat) (s : St) (m : Z) :
  fold_left (fun (acc : St * Z) (x : Z) =>
               let '(s', m') := acc in
               ((if truthy (Z.land m' 1) then f x s' else s'), Z.shiftr m' 1))
            (List.map Z.of_nat (seq a k)) (s, m)
  = (fold_left (fun acc x => f x acc)
       (List.filter (fun x => Z.testbit m (x - Z.of_nat a))
          (List.map Z.of_nat (seq a k))) s,
     Z.shiftr m (Z.of_nat k)).
Proof.
  revert a s m. induction k as [| k IH]; intros a s m.
  - cbn. rewrite Z.shiftr_0_r. reflexivity.
  - cbn [seq List.map fold_left List.filter].
    rewrite truthy_low_bit, IH, Z.sub_diag.
    rewrite Z.shiftr_shiftr by lia.
    replace (1 + Z.of_nat k)%Z with (Z.of_nat (S k)) by lia.
    f_equal.
    assert (E : List.filter (fun x => Z.testbit (Z.shiftr m 1) (x - Z.of_nat (S a)))
                  (List.map Z.of_nat (seq (S a) k))
                = List.filter (fun x => Z.testbit m (x - Z.of_nat a))
                    (List.map Z.of_nat (seq (S a) k))).
    { apply filter_ext_in. intros x Hx.
      apply in_map_iff in Hx. destruct Hx as (i & <- & Hi). apply in_seq in Hi.
      rewrite Z.shiftr_spec by lia. f_equal. lia. }
    rewrite E. destruct (Z.testbit m 0); reflexivity.
Qed.

Lemma filter_map_swap {A B : Type} (P : B -> bool) (h : A -> B) (l : list A) :
  List.filter P (List.map h l) = List.map h (List.filter (fun a => P (h a)) l).
Proof.
  induction l as [| a l IH]; [reflexivity |].
  cbn. destruct (P (h a)); cbn; rewrite IH; reflexivity.
Qed.

(** The loop over the rows, each row taking [C] bits. *)
Lemma rows_loop {St : Type} (F : Z -> Z -> St -> St) (C : nat)
    (inner : Z -> St * Z -> St * Z) :
  (forall y s m,
     inner y (s, m)
     = (fold_left (fun acc x => F x y acc)
          (List.filter (fun x => Z.testbit m x) (List.map Z.of_nat (seq 0 C))) s,
        Z.shiftr m (Z.of_nat C))) ->
  forall (k b : nat) (s : St) (m : Z),
    fold_left (fun acc y => inner y acc) (List.map Z.of_nat (seq b k)) (s, m)
    = (fold_left (fun acc c => F (fst c) (snd c) acc)
         (List.filter
            (fun c => Z.testbit m ((snd c - Z.of_nat b) * Z.of_nat C + fst c))
            (flat_map (fun y => List.map (fun x => (x, y)) (List.map Z.of_nat (seq 0 C)))
               (List.map Z.of_nat (seq b k)))) s,
       Z.shiftr m (Z.of_nat k * Z.of_nat C)).
Proof.
  intros Hin. induction k as [| k IH]; intros b s m.
  - cbn. rewrite Z.shiftr_0_r. reflexivity.
  - cbn [seq List.map fold_left flat_map].
    rewrite Hin, IH. rewrite Z.shiftr_shiftr by lia.
    replace (Z.of_nat C + Z.of_nat k * Z.of_nat C)%Z
      with (Z.of_nat (S k) * Z.of_nat C)%Z by lia.
    f_equal.
    rewrite List.filter_app, fold_left_app. f_equal.
    + apply filter_ext_in. intros [x y] Hc. cbn [fst snd].
      apply in_flat_map in Hc. destruct Hc as (y' & Hy & Hx).
      apply in_map_iff in Hx. destruct Hx as (x' & E & Hx).
      injection E as <- <-.
      apply in_map_iff in Hy. destruct Hy as (j & <- & Hj). apply in_seq in Hj.
      apply in_map_iff in Hx. destruct Hx as (i & <- & Hi). apply in_seq in Hi.
      rewrite Z.shiftr_spec by nia. f_equal. nia.
    + symmetry. rewrite filter_map_swap, fold_left_map. cbn [fst snd].
      apply (f_equal (fun l => fold_left _ l s)).
      apply filter_ext. intros x. f_equal. lia.
Qed.

Lemma bit_loops {St : Type} (F : Z -> Z -> St -> St) (rows cols n : Z) (s : St) :
  for_range rows (fun y =>
    for_range cols (fun x '(s', n') =>
      ((if truthy (Z.land n' 1) then F x y s' else s'), Z.shiftr n' 1))) (s, n)
  = (fold_left (fun acc c => F (fst c) (snd c) acc) (bitmap_cells rows cols n) s,
     Z.shiftr n (Z.of_nat (Z.to_nat rows) * Z.of_nat (Z.to_nat cols))).
Proof.
  unfold for_range at 1. unfold range at 1.
  rewrite (rows_loop F (Z.to_nat cols)
             (fun y => for_range cols (fun x '(s', n') =>
                ((if truthy (Z.land n' 1) then F x y s' else s'), Z.shiftr n' 1)))).
  - f_equal. apply (f_equal (fun l => fold_left _ l s)).
    unfold bitmap_cells, grid, range.
    apply filter_ext_in. intros [x y] Hc. cbn [fst snd].
    apply in_flat_map in Hc. destruct Hc as (y' & Hy & Hx).
    apply in_map_iff in Hx. destruct Hx as (x' & E & Hx).
    injection E as <- <-.
    apply in_map_iff in Hx. destruct Hx as (i & <- & Hi). apply in_seq in Hi.
    f_equal. lia.
  - intros y s0 m. unfold for_range, range.
    rewrite (shift_loop (fun x => F x y)).
    f_equal. apply (f_equal (fun l => fold_left _ l s0)).
    apply filter_ext. intros x. f_equal. cbn. lia.
Qed.


Lemma bitmap_as_outline (FF : FontForge) (p : Params) (rows cols n : Z) (g : glyph) :
  bitmap FF p rows cols n g
  = _stripcontrolpoints FF p (bitmap_outline p rows cols n g).
Proof.
  unfold bitmap, bitmap_outline.
  rewrite (bit_loops (fun x y => cell p rows cols x y)). reflexivity.
Qed.

Lemma sepmap_as_cells (p : Params) (rows cols n : Z) (g : glyph) :
  sepmap p rows cols n g
  = fold_left (fun acc c => sep_rect p rows cols (fst c) (snd c) acc)
      (bitmap_cells rows cols n) g.
Proof.
  unfold sepmap.
  rewrite (bit_loops (fun x y => sep_rect p rows cols x y)). reflexivity.
Qed.

Lemma In_bitmap_cells (rows cols n : Z) (c : Z * Z) :
  In c (bitmap_cells rows cols n) <->
  (0 <= fst c < cols)%Z /\ (0 <= snd c < rows)%Z /\
  Z.testbit n (snd c * cols + fst c) = true.
Proof.
  unfold bitmap_cells. rewrite filter_In, In_grid. tauto.
Qed.

Lemma NoDup_bitmap_cells (rows cols n : Z) : List.NoDup (bitmap_cells rows cols n).
Proof. apply List.NoDup_filter, NoDup_grid. Qed.


Lemma bitmap_cells_low_bits (rows cols n : Z) :
  (0 <= rows)%Z -> (0 <= cols)%Z ->
  bitmap_cells rows cols (n mod 2 ^ (rows * cols)) = bitmap_cells rows cols n.
Proof.
  intros Hr Hc. unfold bitmap_cells.
  apply filter_ext_in. intros [x y] G. apply In_grid in G. cbn [fst snd] in *.
  apply Z.mod_pow2_bits_low. nia.
Qed.




Lemma wind_sep_rect (p : Params) (rows cols x y : Z) (g : glyph) (q : point) :
  wind (g_layer (sep_rect p rows cols x y g)) q
  = add_wind (sep_wind p rows cols q (x, y)) (wind (g_layer g) q).
Proof. unfold sep_rect, sep_wind. apply wind_rawrect. Qed.

Lemma interval_inside (u0 v0 u v lo hi t : Q) :
  Qmin u0 v0 <= lo -> hi <= Qmax u0 v0 ->
  lo <= u -> lo <= v -> u <= hi -> v <= hi ->
  Qmin u v <= t /\ t < Qmax u v ->
  Qmin u0 v0 <= t /\ t < Qmax u0 v0.
Proof.
  intros H1 H2 H3 H4 H5 H6 [Ha Hb].
  pose proof (Q.min_glb _ _ _ H3 H4). pose proof (Q.max_lub _ _ _ H5 H6).
  split; [lra | lra].
Qed.

Lemma inject_Z_succ (z : Z) : inject_Z (z + 1) == inject_Z z + 1.
Proof. rewrite inject_Z_plus. reflexivity. Qed.

Lemma sep_inside_cell (p : Params) (rows cols : Z) (q : point) (c : Z * Z) :
  separations_fit p rows cols ->
  sep_wind p rows cols q c <> 0%Z -> cell_wind p rows cols q c <> 0%Z.
Proof.
  intros (Hr & Hc & [L0 L1] & [R0 R1] & [T0 T1] & [B0 B1]).
  unfold sep_wind, cell_wind. rewrite !rect_wind_nonzero. unfold in_box.
  assert (Ir : 0 < inject_Z rows) by (change 0 with (inject_Z 0); rewrite <- Zlt_Qlt; lia).
  assert (Ic : 0 < inject_Z cols) by (change 0 with (inject_Z 0); rewrite <- Zlt_Qlt; lia).
  set (ix := inject_Z (fst c)) in *. set (iy := inject_Z (snd c)) in *.
  pose proof (inject_Z_succ (fst c)) as Sx. pose proof (inject_Z_succ (snd c)) as Sy.
  fold ix in Sx. fold iy in Sy.
  set (ix1 := inject_Z (fst c + 1)) in *. set (iy1 := inject_Z (snd c + 1)) in *.
  set (ic := inject_Z cols) in *. set (ir := inject_Z rows) in *.
  assert (Ex : width p * ix / ic == width p * (ix / ic)) by (field; lra).
  assert (Ex1 : width p * ix1 / ic == width p * (ix / ic) + width p / ic)
    by (rewrite Sx; field; lra).
  assert (Ex2 : width p * (ix1 / ic) == width p * (ix / ic) + width p / ic)
    by (rewrite Sx; field; lra).
  assert (Ey : height p * iy / ir == height p * (iy / ir)) by (field; lra).
  assert (Ey1 : height p * iy1 / ir == height p * (iy / ir) + height p / ir)
    by (rewrite Sy; field; lra).
  assert (Ey2 : height p * (iy1 / ir) == height p * (iy / ir) + height p / ir)
    by (rewrite Sy; field; lra).
  unfold Xq, Yq. fold (Rq (width p * (ix / ic))). fold (Rq (width p * (ix1 / ic))).
  fold (Rq (ascent p - height p * (iy / ir))).
  fold (Rq (ascent p - height p * (iy1 / ir))).
  intros (Hx1 & Hx2 & Hy1 & Hy2). 
  destruct (interval_inside (Rq (width p * (ix / ic))) (Rq (width p * (ix1 / ic)))
              (Rq (width p * ix / ic + separationLeft p))
              (Rq (width p * ix1 / ic - separationRight p))
              (Rq (width p * (ix / ic))) (Rq (width p * (ix1 / ic))) (fst q))
    as [Kx1 Kx2]; try (apply Rq_le; lra); try (split; assumption).
  { apply Q.le_min_l. }
  { apply Q.le_max_r. }
  destruct (interval_inside (Rq (ascent p - height p * (iy / ir)))
              (Rq (ascent p - height p * (iy1 / ir)))
              (Rq (ascent p - height p * iy / ir - separationTop p))
              (Rq (ascent p - height p * iy1 / ir + separationBottom p))
              (Rq (ascent p - height p * (iy1 / ir)))
              (Rq (ascent p - height p * (iy / ir))) (snd q))
    as [Ky1 Ky2]; try (apply Rq_le; lra); try (split; assumption).
  { apply Q.le_min_r. }
  { apply Q.le_max_l. }
  tauto.
Qed.

Lemma sum_over_zero {A : Type} (w : A -> Z) (l : list A) :
  (forall a, In a l -> w a = 0%Z) -> sum_over w l = 0%Z.
Proof.
  induction l as [| a l IH]; intros H; [reflexivity |].
  change (sum_over w (a :: l)) with (w a + sum_over w l)%Z.
  rewrite (H a (or_introl eq_refl)), IH; [reflexivity |].
  intros b Hb. apply H. right. exact Hb.
Qed.

(** A sum with at most one term that is not zero. *)
Lemma sum_over_exclusive {A : Type} (w : A -> Z) (l : list A) :
  List.NoDup l ->
  (forall a b, In a l -> In b l -> w a <> 0%Z -> w b <> 0%Z -> a = b) ->
  (sum_over w l <> 0%Z <-> exists a, In a l /\ w a <> 0%Z).
Proof.
  induction l as [| a l IH]; intros N X.
  - cbn. split; [intros H; contradiction H; reflexivity | intros (a & [] & _)].
  - change (sum_over w (a :: l)) with (w a + sum_over w l)%Z.
    inversion N as [| ? ? Na Nl]; subst.
    destruct (Z.eq_dec (w a) 0%Z) as [Za | Nz].
    + rewrite Za, Z.add_0_l, IH; [| exact Nl |].
      * split.
        -- intros (b & Hb & Kb). exists b. split; [right; exact Hb | exact Kb].
        -- intros (b & [<- | Hb] & Kb); [contradiction |]. exists b. tauto.
      * intros b b' Hb Hb'. apply X; right; assumption.
    + rewrite (sum_over_zero w l), Z.add_0_r.
      * split; [| intros _; exact Nz].
        intros _. exists a. split; [left; reflexivity | exact Nz].
      * intros b Hb. destruct (Z.eq_dec (w b) 0%Z) as [E | Nb]; [exact E |].
        exfalso. apply Na.
        rewrite (X a b (or_introl eq_refl) (or_intror Hb) Nz Nb). exact Hb.
Qed.

Lemma sep_wind_box (p : Params) (rows cols : Z) (q : point) (c : Z * Z) :
  sep_wind p rows cols q c <> 0%Z <-> sep_box p rows cols (fst c) (snd c) q.
Proof. unfold sep_wind, sep_box. apply rect_wind_nonzero. Qed.

Lemma cell_wind_box (p : Params) (rows cols : Z) (q : point) (c : Z * Z) :
  (0 < rows)%Z -> (0 < cols)%Z ->
  cell_wind p rows cols q c <> 0%Z <-> sep_cell_box p rows cols (fst c) (snd c) q.
Proof.
  intros Hr Hc.
  assert (Ir : ~ inject_Z rows == 0).
  { change 0 with (inject_Z 0). rewrite inject_Z_injective. lia. }
  assert (Ic : ~ inject_Z cols == 0).
  { change 0 with (inject_Z 0). rewrite inject_Z_injective. lia. }
  unfold cell_wind, sep_cell_box, Xq, Yq. rewrite rect_wind_nonzero.
  fold (Rq (width p * (inject_Z (fst c) / inject_Z cols))).
  fold (Rq (width p * (inject_Z (fst c + 1) / inject_Z cols))).
  fold (Rq (ascent p - height p * (inject_Z (snd c) / inject_Z rows))).
  fold (Rq (ascent p - height p * (inject_Z (snd c + 1) / inject_Z rows))).
  rewrite (Rq_comp (width p * (inject_Z (fst c) / inject_Z cols))
             (width p * inject_Z (fst c) / inject_Z cols)) by (field; exact Ic).
  rewrite (Rq_comp (width p * (inject_Z (fst c + 1) / inject_Z cols))
             (width p * inject_Z (fst c + 1) / inject_Z cols)) by (field; exact Ic).
  rewrite (Rq_comp (ascent p - height p * (inject_Z (snd c) / inject_Z rows))
             (ascent p - height p * inject_Z (snd c) / inject_Z rows))
    by (field; exact Ir).
  rewrite (Rq_comp (ascent p - height p * (inject_Z (snd c + 1) / inject_Z rows))
             (ascent p - height p * inject_Z (snd c + 1) / inject_Z rows))
    by (field; exact Ir).
  reflexivity.
Qed.

(** X14.  [sepmap(rows, cols, n)] draws one rectangle for every set bit
    among the lowest [rows * cols] bits of [n], bit [y * cols + x] being
    cell [(x, y)], and nothing for the other bits.  The rectangle of a
    cell is the cell between the grid lines [width * x / cols],
    [width * (x + 1) / cols] and [ascent - height * y / rows],
    [ascent - height * (y + 1) / rows], moved in from each side by the
    padding of that side, corners rounded.  When no padding is negative
    or larger than a cell, each rectangle stays between its own grid
    lines, no two rectangles share a point, and the glyph fills exactly
    the rectangles of the set bits. *)
Theorem sepmap_draws_padded_cells (p : Params) (rows cols n : Z) (w : Q) :
  separations_fit p rows cols ->
  (forall g,
     sepmap p rows cols n g
     = fold_left (fun acc c => sep_rect p rows cols (fst c) (snd c) acc)
         (bitmap_cells rows cols n) g) /\
  (forall x y : Z,
     In (x, y) (bitmap_cells rows cols n) <->
     (0 <= x < cols)%Z /\ (0 <= y < rows)%Z /\
     Z.testbit n (y * cols + x) = true) /\
  (forall g, sepmap p rows cols (n mod 2 ^ (rows * cols)) g = sepmap p rows cols n g) /\
  (forall q,
     filled (g_layer (sepmap p rows cols n (blank_glyph w))) q <->
     exists x y : Z,
       (0 <= x < cols)%Z /\ (0 <= y < rows)%Z /\
       Z.testbit n (y * cols + x) = true /\
       sep_box p rows cols x y q) /\
  (forall (x y : Z) q,
     sep_box p rows cols x y q -> sep_cell_box p rows cols x y q) /\
  (forall (x y x' y' : Z) q,
     sep_box p rows cols x y q -> sep_box p rows cols x' y' q ->
     x = x' /\ y = y').
Proof.
  intros Fit. pose proof Fit as (Hr & Hc & _).
  assert (Di : forall a b q,
    sep_wind p rows cols q a <> 0%Z -> sep_wind p rows cols q b <> 0%Z -> a = b).
  { intros a b q Ka Kb.
    apply (cell_wind_disjoint p rows cols q a b Hr Hc);
      apply sep_inside_cell; assumption. }
  assert (Fm : forall q,
    filled (g_layer (sepmap p rows cols n (blank_glyph w))) q <->
    exists c, In c (bitmap_cells rows cols n) /\ sep_wind p rows cols q c <> 0%Z).
  { intros q.
    assert (E : wind (g_layer (sepmap p rows cols n (blank_glyph w))) q
                = Some (sum_over (sep_wind p rows cols q) (bitmap_cells rows cols n))).
    { rewrite sepmap_as_cells.
      rewrite (wind_fold (fun c g => sep_rect p rows cols (fst c) (snd c) g)
                 (sep_wind p rows cols q) q).
      - reflexivity.
      - intros [x y] g. apply wind_sep_rect. }
    rewrite (filled_some _ _ _ E).
    apply sum_over_exclusive; [apply NoDup_bitmap_cells |].
    intros a b _ _. apply Di. }
  split; [intros g; apply sepmap_as_cells |].
  split; [intros x y; apply (In_bitmap_cells rows cols n (x, y)) |].
  split; [| split; [| split]].
  - intros g. rewrite !sepmap_as_cells.
    rewrite bitmap_cells_low_bits by lia. reflexivity.
  - intros q. rewrite Fm. split.
    + intros (c & I & K). apply In_bitmap_cells in I. apply sep_wind_box in K.
      exists (fst c), (snd c). tauto.
    + intros (x & y & Hx & Hy & Hb & K). exists (x, y). split.
      * apply In_bitmap_cells. cbn [fst snd]. tauto.
      * apply sep_wind_box. exact K.
  - intros x y q K.
    apply (cell_wind_box p rows cols q (x, y) Hr Hc).
    apply sep_inside_cell; [exact Fit |].
    apply (sep_wind_box p rows cols q (x, y)). exact K.
  - intros x y x' y' q K K'.
    assert (E : (x, y) = (x', y')).
    { apply (Di (x, y) (x', y') q); apply sep_wind_box; assumption. }
    injection E as -> ->. split; reflexivity.
Qed.

Lemma sepmap_draws_padded_cells_witness :
  separations_fit default_params 3 2 /\
  forall q,
    filled (g_layer (sepmap default_params 3 2 5 (blank_glyph 1000))) q <->
    exists x y : Z,
      (0 <= x < 2)%Z /\ (0 <= y < 3)%Z /\
      Z.testbit 5 (y * 2 + x) = true /\
      sep_box default_params 3 2 x y q.
Proof.
  assert (Fit : separations_fit default_params 3 2).
  { unfold separations_fit. repeat split; try lia; vm_compute; discriminate. }
  split; [exact Fit |].
  exact (proj1 (proj2 (proj2 (proj2
           (sepmap_draws_padded_cells default_params 3 2 5 1000 Fit))))).
Defined.

(* ================================================================= *)
(** ** Re-drawing a glyph: [_stripcontrolpoints] *)

Lemma for_each_rawpoly_spec (polygons : list (list point)) (g0 : glyph) :
  match for_each polygons rawpoly g0 with
  | Ok g' =>
      Forall (fun pts => pts <> []) polygons /\
      g' = fold_left (fun acc pts =>
                        on_layer Simplify (pen_closed (List.map rounded pts) acc))
             polygons g0
  | Raise e => e = IndexError /\ Exists (fun pts => pts = []) polygons
  end.
Proof.
  revert g0. induction polygons as [| pts rest IH]; intros g0.
  - cbn. split; [constructor | reflexivity].
  - destruct pts as [| pt pts].
    + cbn. split; [reflexivity | left; reflexivity].
    + cbn [for_each rawpoly rbind fold_left].
      specialize (IH (on_layer Simplify (pen_closed (List.map rounded (pt :: pts)) g0))).
      destruct (for_each rest rawpoly
                  (on_layer Simplify (pen_closed (List.map rounded (pt :: pts)) g0)))
        as [g' | e].
      * destruct IH as [F E]. split; [constructor; [discriminate | exact F] | exact E].
      * destruct IH as [E X]. split; [exact E | right; exact X].
Qed.

Lemma redrawn_contours (polygons : list (list point)) (g0 : glyph) :
  drawn_contours
    (g_layer (fold_left (fun acc pts =>
                           on_layer Simplify (pen_closed (List.map rounded pts) acc))
                polygons g0))
  = drawn_contours (g_layer g0)
    ++ List.map (fun pts => List.map (fun q => (rounded q, true)) pts) polygons.
Proof.
  revert g0. induction polygons as [| pts rest IH]; intros g0.
  - cbn. rewrite app_nil_r. reflexivity.
  - cbn [fold_left List.map]. rewrite IH.
    cbn [on_layer pen_closed g_layer drawn_contours].
    rewrite <- app_assoc, List.map_map. reflexivity.
Qed.

Lemma redrawn_points (polygons : list (list point)) (g0 : glyph) :
  pen_points
    (g_layer (fold_left (fun acc pts =>
                           on_layer Simplify (pen_closed (List.map rounded pts) acc))
                polygons g0))
  = pen_points (g_layer g0) ++ flat_map (List.map rounded) polygons.
Proof.
  revert g0. induction polygons as [| pts rest IH]; intros g0.
  - cbn. rewrite app_nil_r. reflexivity.
  - cbn [fold_left flat_map]. rewrite IH.
    cbn [on_layer pen_closed g_layer pen_points].
    rewrite <- app_assoc. reflexivity.
Qed.

Lemma redrawn_width (polygons : list (list point)) (g0 : glyph) :
  g_width (fold_left (fun acc pts =>
                        on_layer Simplify (pen_closed (List.map rounded pts) acc))
             polygons g0)
  = g_width g0.
Proof.
  revert g0. induction polygons as [| pts rest IH]; intros g0; [reflexivity |].
  cbn [fold_left]. rewrite IH. reflexivity.
Qed.

Lemma rounded_idem (q : point) : rounded (rounded q) = rounded q.
Proof.
  unfold rounded. cbn [fst snd]. rewrite !py_round_inject_Z. reflexivity.
Qed.

Lemma redrawn_twice (polygons : list (list point)) (g0 : glyph) :
  fold_left (fun acc pts =>
               on_layer Simplify
                 (pen_closed (List.map rounded (List.map rounded pts)) acc))
    polygons g0
  = fold_left (fun acc pts =>
                 on_layer Simplify (pen_closed (List.map rounded pts) acc))
      polygons g0.
Proof.
  revert g0. induction polygons as [| pts rest IH]; intros g0; [reflexivity |].
  cbn [fold_left]. rewrite List.map_map.
  rewrite (map_ext _ rounded (fun q => rounded_idem q)).
  apply IH.
Qed.

Lemma rounded_integer (q : point) :
  is_integer (fst (rounded q)) /\ is_integer (snd (rounded q)).
Proof.
  unfold rounded, is_integer. cbn [fst snd]. rewrite !Qfloor_Z.
  split; reflexivity.
Qed.

Lemma on_curve_all (pts : list point) :
  on_curve_points (List.map (fun q => (q, true)) pts) = pts.
Proof.
  unfold on_curve_points.
  induction pts as [| q pts IH]; [reflexivity |].
  cbn. cbn in IH. rewrite IH. reflexivity.
Qed.

Lemma Forall_Exists_empty {A : Type} (l : list (list A)) :
  Forall (fun x => x <> []) l \/ Exists (fun x => x = []) l.
Proof.
  induction l as [| x l [F | X]].
  - left. constructor.
  - destruct x as [| a x].
    + right. left. reflexivity.
    + left. constructor; [discriminate | exact F].
  - right. right. exact X.
Qed.

Lemma stripcontrolpoints_raise (FF : FontForge) (p : Params) (g : glyph) (e : exn) :
  _stripcontrolpoints FF p g = Raise e -> e = IndexError.
Proof.
  unfold _stripcontrolpoints. intros H.
  pose proof (for_each_rawpoly_spec
                (List.map on_curve_points (contours_of FF (g_layer g)))
                (set_width (width p) (glyph_clear g))) as Sp.
  rewrite H in Sp. tauto.
Qed.

(** X15.  [_stripcontrolpoints] throws the glyph away and draws, for every
    contour FontForge reports, the closed polygon through its on-curve
    points, each rounded to integers; the glyph gets the advance width of
    the parameters.  It fails, with an [IndexError], exactly when some
    contour has no on-curve point.  Applied once more to its own result,
    read back as drawn, it changes nothing. *)
Theorem stripcontrolpoints_redraws_rounded (FF : FontForge) (p : Params) (g : glyph) :
  let cs := contours_of FF (g_layer g) in
  (_stripcontrolpoints FF p g = Raise IndexError <->
   Exists (fun c => on_curve_points c = []) cs) /\
  (forall e, _stripcontrolpoints FF p g = Raise e -> e = IndexError) /\
  (forall g', _stripcontrolpoints FF p g = Ok g' ->
     g_width g' = width p /\
     drawn_contours (g_layer g')
     = List.map (fun c => List.map (fun q => (rounded q, true)) (on_curve_points c)) cs /\
     Forall (fun q => is_integer (fst q) /\ is_integer (snd q))
       (pen_points (g_layer g')) /\
     _stripcontrolpoints plain_fontforge p g' = Ok g').
Proof.
  cbv zeta. unfold _stripcontrolpoints at 1 2 3.
  set (polygons := List.map on_curve_points (contours_of FF (g_layer g))).
  set (g0 := set_width (width p) (glyph_clear g)).
  pose proof (for_each_rawpoly_spec polygons g0) as Sp.
  assert (Ex : Exists (fun pts => pts = []) polygons <->
               Exists (fun c => on_curve_points c = []) (contours_of FF (g_layer g))).
  { unfold polygons. rewrite !List.Exists_exists. split.
    - intros (pts & I & E). apply in_map_iff in I. destruct I as (c & <- & I).
      exists c. tauto.
    - intros (c & I & E). exists (on_curve_points c). split; [| exact E].
      apply in_map_iff. exists c. tauto. }
  destruct (for_each polygons rawpoly g0) as [g1 | e].
  - destruct Sp as [F E]. split; [| split].
    + split; [discriminate |]. intros X. apply Ex in X. exfalso.
      apply List.Exists_exists in X. destruct X as (pts & I & Z).
      rewrite List.Forall_forall in F. exact (F pts I Z).
    + discriminate.
    + intros g' H. injection H as <-. subst g1.
      split; [rewrite redrawn_width; reflexivity |].
      split; [| split].
      * rewrite redrawn_contours. unfold polygons. rewrite List.map_map. reflexivity.
      * rewrite redrawn_points.
        change (pen_points (g_layer g0)) with (@nil point). cbn [app].
        apply List.Forall_forall. intros q I.
        apply in_flat_map in I. destruct I as (pts & _ & I).
        apply in_map_iff in I. destruct I as (q0 & <- & _).
        apply rounded_integer.
      * unfold _stripcontrolpoints. cbn [plain_fontforge contours_of].
        rewrite redrawn_contours.
        change (drawn_contours (g_layer g0)) with (@nil (list (point * bool))).
        cbn [app]. rewrite List.map_map.
        assert (Em : List.map (fun x => on_curve_points
                                 (List.map (fun q => (rounded q, true)) x)) polygons
                     = List.map (List.map rounded) polygons).
        { apply map_ext. intros pts.
          rewrite <- (List.map_map rounded (fun q => (q, true))).
          apply on_curve_all. }
        rewrite Em.
        pose proof (for_each_rawpoly_spec (List.map (List.map rounded) polygons)
                      (set_width (width p)
                         (glyph_clear
                            (fold_left (fun acc pts =>
                               on_layer Simplify (pen_closed (List.map rounded pts) acc))
                               polygons g0)))) as Sp'.
        destruct (for_each (List.map (List.map rounded) polygons) rawpoly _)
          as [g2 | e'].
        -- destruct Sp' as [_ ->]. f_equal.
           rewrite fold_left_map.
           change (set_width (width p) (glyph_clear _)) with g0.
           apply redrawn_twice.
        -- exfalso. destruct Sp' as [_ X].
           apply List.Exists_exists in X. destruct X as (pts & I & Z).
           apply in_map_iff in I. destruct I as (pts0 & <- & I).
           rewrite List.Forall_forall in F.
           apply (F pts0 I). destruct pts0; [reflexivity | discriminate].
  - destruct Sp as [-> X]. split; [| split].
    + split; [intros _; apply Ex; exact X | reflexivity].
    + intros e H. injection H as <-. reflexivity.
    + discriminate.
Qed.

(* ================================================================= *)
(** ** Errors of the diagonal fill and of the strokes *)

(** X16.  [diagfill] fails with a [ZeroDivisionError] exactly when the
    weights of stripe and gap add up to zero, whatever the angle.  So a
    weight of zero given for one of the two alone, which the other then
    takes over, makes every diagonal fill fail. *)
Theorem diagfill_fails_on_zero_weights (M : Math) (FF : FontForge) (p : Params)
    (angle : Q) (g : glyph) :
  (diagfill M FF p angle g = Raise ZeroDivisionError <->
   diagonalFillWeight p + diagonalSpaceWeight p == 0) /\
  (forall (kw : kwargs) (v : Q),
     v == 0 ->
     (kw_diagonalFillWeight kw = Some v /\ kw_diagonalSpaceWeight kw = None) \/
     (kw_diagonalFillWeight kw = None /\ kw_diagonalSpaceWeight kw = Some v) ->
     diagfill M FF (SLCParameters M kw) angle g = Raise ZeroDivisionError).
Proof.
  assert (A : forall p0 : Params,
    diagfill M FF p0 angle g = Raise ZeroDivisionError <->
    diagonalFillWeight p0 + diagonalSpaceWeight p0 == 0).
  { intros p0. unfold diagfill, diagfill_outline.
    destruct (py_div_cases (height p0 + width p0)
                (diagonalFillWeight p0 + diagonalSpaceWeight p0))
      as [[Z ->] | [N ->]]; cbn [rbind].
    - tauto.
    - match goal with
      | |- context [_stripcontrolpoints FF p0 ?o] =>
          pose proof (stripcontrolpoints_raise FF p0 o) as R;
          destruct (_stripcontrolpoints FF p0 o) as [g' | e]
      end.
      + split; [discriminate | contradiction].
      + rewrite (R e eq_refl). split; [discriminate | contradiction]. }
  split; [apply A |].
  intros kw v Zv H. apply A.
  destruct kw as [a d w ph pw an fw sw bl bh bg br bt tr st sr sb sl f].
  cbn in H. cbn.
  destruct H as [[-> ->] | [-> ->]]; cbn; lra.
Qed.

Lemma length_rev_cons2 {A : Type} (a b : A) (rest : list A) :
  exists d c tl', rev (a :: b :: rest) = d :: c :: tl'.
Proof.
  destruct (rev (a :: b :: rest)) as [| d [| c tl']] eqn:E.
  - apply (f_equal (@length A)) in E. rewrite length_rev in E. discriminate.
  - apply (f_equal (@length A)) in E. rewrite length_rev in E. discriminate.
  - exists d, c, tl'. reflexivity.
Qed.

Lemma extend_ends_none (line : list point) :
  extend_ends line = None <-> (length line < 2)%nat.
Proof.
  destruct line as [| a [| b rest]].
  - cbn. split; [lia | reflexivity].
  - cbn. split; [lia | reflexivity].
  - destruct (length_rev_cons2 a b rest) as (d & c & tl' & E).
    unfold extend_ends. rewrite E. cbn [length]. split; [discriminate | lia].
Qed.

Lemma for_each_raise {A St : Type} (body : A -> St -> result St) (e0 : exn)
    (xs : list A) :
  (forall x s e, body x s = Raise e -> e = e0) ->
  forall s e, for_each xs body s = Raise e -> e = e0.
Proof.
  intros Hb. induction xs as [| x xs IH]; intros s e H; [discriminate |].
  cbn in H. destruct (body x s) as [s' |] eqn:E.
  - exact (IH s' e H).
  - cbn in H. injection H as <-. exact (Hb x s _ E).
Qed.

Lemma boxdrawline_raise (FF : FontForge) (p : Params) (target : Z)
    (line : list point) (weight : Q) (truncate : bool) (fnt : font) (e : exn) :
  _boxdrawline FF p target line weight truncate fnt = Raise e -> e = IndexError.
Proof.
  intros H.
  pose proof (boxdrawline_effect FF p target line weight truncate fnt) as B.
  unfold stroked_line in B. destruct truncate.
  - destruct (extend_ends line).
    + destruct B as (fnt' & E & _). congruence.
    + congruence.
  - destruct line.
    + congruence.
    + destruct B as (fnt' & E & _). congruence.
Qed.

Lemma merge_strokes_raise (FF : FontForge) (p : Params) (target : Z) (fnt : font)
    (e : exn) :
  merge_strokes FF p target fnt = Raise e -> e = IndexError.
Proof.
  unfold merge_strokes, on_glyph. destruct (fnt !! target) as [g |]; [| discriminate].
  match goal with
  | |- context [_stripcontrolpoints FF p ?o] =>
      pose proof (stripcontrolpoints_raise FF p o) as R;
      destruct (_stripcontrolpoints FF p o) as [g' | e']
  end.
  - discriminate.
  - cbn. intros H. injection H as <-. apply R. reflexivity.
Qed.

(** X17.  A stroke needs enough points.  With truncation [_boxdrawline]
    fails exactly on lines of fewer than two points, without truncation
    exactly on the empty line; the failure is an [IndexError], and that
    is the only error the four box-drawing builders can end in. *)
Theorem boxdrawline_needs_enough_points (FF : FontForge) (p : Params) (target : Z)
    (weight : Q) (fnt : font) :
  (forall line,
     _boxdrawline FF p target line weight true fnt = Raise IndexError <->
     (length line < 2)%nat) /\
  (forall line,
     _boxdrawline FF p target line weight false fnt = Raise IndexError <->
     line = []) /\
  (forall line truncate e,
     _boxdrawline FF p target line weight truncate fnt = Raise e -> e = IndexError) /\
  (forall lines heavyLines e,
     (boxdrawlight FF p target lines fnt = Raise e -> e = IndexError) /\
     (boxdrawheavy FF p target lines fnt = Raise e -> e = IndexError) /\
     (boxdrawdiag FF p target lines fnt = Raise e -> e = IndexError) /\
     (boxdrawmixed FF p target lines heavyLines fnt = Raise e -> e = IndexError)).
Proof.
  split; [| split; [| split]].
  - intros line.
    pose proof (boxdrawline_effect FF p target line weight true fnt) as B.
    unfold stroked_line in B. rewrite <- extend_ends_none.
    destruct (extend_ends line).
    + destruct B as (fnt' & -> & _). split; discriminate.
    + rewrite B. tauto.
  - intros line.
    pose proof (boxdrawline_effect FF p target line weight false fnt) as B.
    unfold stroked_line in B. destruct line.
    + rewrite B. tauto.
    + destruct B as (fnt' & -> & _). split; discriminate.
  - intros line truncate e. apply boxdrawline_raise.
  - intros lines heavyLines e.
    assert (L : forall (ls : list (list point)) (wt : Q) (tr : bool) (f : font) e',
              for_each ls (fun line => _boxdrawline FF p target line wt tr) f = Raise e'
              -> e' = IndexError).
    { intros ls wt tr. apply for_each_raise.
      intros x s e'. apply boxdrawline_raise. }
    unfold boxdrawlight, boxdrawheavy, boxdrawdiag, boxdrawmixed.
    repeat split; intros H.
    + destruct (for_each lines _ fnt) as [f1 |] eqn:E1; cbn in H.
      * eapply merge_strokes_raise; exact H.
      * injection H as <-. eapply L; exact E1.
    + destruct (for_each lines _ fnt) as [f1 |] eqn:E1; cbn in H.
      * eapply merge_strokes_raise; exact H.
      * injection H as <-. eapply L; exact E1.
    + destruct (for_each lines _ fnt) as [f1 |] eqn:E1; cbn in H.
      * eapply merge_strokes_raise; exact H.
      * injection H as <-. eapply L; exact E1.
    + destruct (for_each lines _ fnt) as [f1 |] eqn:E1; cbn in H.
      * destruct (for_each heavyLines _ f1) as [f2 |] eqn:E2; cbn in H.
        -- eapply merge_strokes_raise; exact H.
        -- injection H as <-. eapply L; exact E2.
      * injection H as <-. eapply L; exact E1.
Qed.

(** X18.  The four box-drawing builders are one builder at different
    weights: [boxdrawmixed] with no heavy lines is [boxdrawlight], with
    no light lines it is [boxdrawheavy]; [boxdrawdiag] is [boxdrawlight]
    when lines are not truncated; and [boxdrawheavy] is [boxdrawlight]
    when the two weights are equal. *)
Theorem box_builders_agree (FF : FontForge) (p : Params) (target : Z)
    (lines : list (list point)) (fnt : font) :
  boxdrawmixed FF p target lines [] fnt = boxdrawlight FF p target lines fnt /\
  boxdrawmixed FF p target [] lines fnt = boxdrawheavy FF p target lines fnt /\
  (boxLineTruncate p = false ->
   boxdrawdiag FF p target lines fnt = boxdrawlight FF p target lines fnt) /\
  (boxHeavyWeight p = boxLightWeight p ->
   boxdrawheavy FF p target lines fnt = boxdrawlight FF p target lines fnt).
Proof.
  unfold boxdrawmixed, boxdrawlight, boxdrawheavy, boxdrawdiag.
  split; [| split; [| split]].
  - destruct (for_each lines _ fnt); reflexivity.
  - reflexivity.
  - intros ->. reflexivity.
  - intros ->. reflexivity.
Qed.

(* ================================================================= *)
(** ** Arcs *)

Lemma in_box_apart_x (x1 y1 x2 y2 x1' y1' x2' y2' : Q) (q : point) :
  Qmax x1 x2 <= Qmin x1' x2' \/ Qmax x1' x2' <= Qmin x1 x2 ->
  ~ (in_box x1 y1 x2 y2 q /\ in_box x1' y1' x2' y2' q).
Proof.
  unfold in_box. intros [H | H] [(A & B & _) (C & D & _)]; lra.
Qed.

Lemma in_box_apart_y (x1 y1 x2 y2 x1' y1' x2' y2' : Q) (q : point) :
  Qmax y1 y2 <= Qmin y1' y2' \/ Qmax y1' y2' <= Qmin y1 y2 ->
  ~ (in_box x1 y1 x2 y2 q /\ in_box x1' y1' x2' y2' q).
Proof.
  unfold in_box. intros [H | H] [(_ & _ & A & B) (_ & _ & C & D)]; lra.
Qed.

Lemma Qmax_le_Qmin (a b c : Q) : a <= b -> b <= c -> Qmax a b <= Qmin b c.
Proof.
  intros H1 H2. apply Q.max_lub; apply Q.min_glb; lra.
Qed.

Lemma Qmax_le_Qmin' (a b c : Q) : a <= b -> b <= c -> Qmax b a <= Qmin c b.
Proof.
  intros H1 H2. apply Q.max_lub; apply Q.min_glb; lra.
Qed.

(** X19.  [boxdrawarc(dx, dy)] is the ring of [rawellipse], cut to its
    clip rectangle, followed by at most two straight stubs, all merged
    and rounded.  A stub is drawn towards the left edge of the cell when
    [dx < 0] and the clip rectangle begins right of [0], towards the
    right edge when [dx > 0] and it ends left of [width], towards the
    upper edge when [dy < 0] and it ends below [ascent], towards the
    lower edge when [dy > 0] and it ends above [-descent]; it is as
    thick as a light line, lies about the middle line of the cell, and
    runs from the edge of the cell to the clip rectangle.  For a radius
    that is not negative no stub shares a point with the clip rectangle
    of the ring: the two meet along one edge of it. *)
Theorem arc_is_ring_and_stubs (p : Params) (dx dy : Q) :
  (forall g : glyph,
     boxdrawarc p dx dy g
     = on_layer RoundToInt (on_layer Simplify (on_layer RemoveOverlap
         (fold_left (fun acc b => rawrect_of b acc) (arc_stubs p dx dy)
            (arc_ring p dx dy g))))) /\
  (length (arc_stubs p dx dy) <= 2)%nat /\
  (0 <= boxArcRadius p ->
   forall (b : box) (q : point),
     In b (arc_stubs p dx dy) -> ~ (box_of b q /\ box_of (arc_clip p) q)).
Proof.
  split; [| split].
  - intros g. unfold boxdrawarc, arc_stubs, arc_ring. cbv zeta.
    destruct (Qltb dx 0 && Qltb 0 (width p / 2 - boxArcRadius p)),
             (Qltb 0 dx && Qltb (width p / 2 + boxArcRadius p) (width p)),
             (Qltb dy 0 && Qltb (ascent p - height p / 2 + boxArcRadius p) (ascent p)),
             (Qltb 0 dy && Qltb (- descent p)
                             (ascent p - height p / 2 - boxArcRadius p));
      reflexivity.
  - assert (Xd : Qltb dx 0 = true -> Qltb 0 dx = false).
    { intros H. apply Qltb_lt in H. apply Qltb_ge. lra. }
    assert (Yd : Qltb dy 0 = true -> Qltb 0 dy = false).
    { intros H. apply Qltb_lt in H. apply Qltb_ge. lra. }
    unfold arc_stubs. cbv zeta.
    destruct (Qltb dx 0) eqn:X1; [rewrite (Xd eq_refl) |];
      (destruct (Qltb dy 0) eqn:Y1; [rewrite (Yd eq_refl) |]);
      cbn [andb];
      repeat match goal with
             | |- context [if ?c then _ else _] => destruct c
             end;
      cbn [app length]; lia.
  - intros Hr b q I. unfold arc_stubs in I. cbv zeta in I.
    assert (Lo : width p / 2 - boxArcRadius p <= width p / 2 + boxArcRadius p)
      by lra.
    assert (Up : ascent p - height p / 2 - boxArcRadius p
                 <= ascent p - height p / 2 + boxArcRadius p) by lra.
    apply in_app_or in I. destruct I as [I | I].
    { destruct (Qltb dx 0); [| contradiction I]. cbn [andb] in I.
      destruct (Qltb 0 (width p / 2 - boxArcRadius p)) eqn:C; [| contradiction I].
      destruct I as [<- | []]. apply Qltb_lt in C.
      unfold box_of, arc_clip. apply in_box_apart_x. left.
      apply Qmax_le_Qmin; apply Rq_le; lra. }
    apply in_app_or in I. destruct I as [I | I].
    { destruct (Qltb 0 dx); [| contradiction I]. cbn [andb] in I.
      destruct (Qltb (width p / 2 + boxArcRadius p) (width p)) eqn:C;
        [| contradiction I].
      destruct I as [<- | []]. apply Qltb_lt in C.
      unfold box_of, arc_clip. apply in_box_apart_x. right.
      apply Qmax_le_Qmin; apply Rq_le; lra. }
    apply in_app_or in I. destruct I as [I | I].
    { destruct (Qltb dy 0); [| contradiction I]. cbn [andb] in I.
      destruct (Qltb (ascent p - height p / 2 + boxArcRadius p) (ascent p)) eqn:C;
        [| contradiction I].
      destruct I as [<- | []]. apply Qltb_lt in C.
      unfold box_of, arc_clip. apply in_box_apart_y. right.
      apply Qmax_le_Qmin'; apply Rq_le; lra. }
    { destruct (Qltb 0 dy); [| contradiction I]. cbn [andb] in I.
      destruct (Qltb (- descent p)
                  (ascent p - height p / 2 - boxArcRadius p)) eqn:C;
        [| contradiction I].
      destruct I as [<- | []]. apply Qltb_lt in C.
      unfold box_of, arc_clip. apply in_box_apart_y. left.
      apply Qmax_le_Qmin'; apply Rq_le; lra. }
Qed.

(** With [boxArcRadius=300] in the default cell, the arc that bends to
    the left and downwards gets a stub from the left edge, [x] from 0 to
    200, and one from the lower edge, [y] from -200 to 0. *)
Lemma arc_is_ring_and_stubs_witness :
  let p := SLCParameters approx_math kwargs_radius_300 in
  0 <= boxArcRadius p /\
  arc_stubs p (-1) 1
  = [(0, ascent p - height p / 2 + boxLightWeight p / 2,
      width p / 2 - boxArcRadius p,
      ascent p - height p / 2 - boxLightWeight p / 2);
     (width p / 2 - boxLightWeight p / 2,
      ascent p - height p / 2 - boxArcRadius p,
      width p / 2 + boxLightWeight p / 2, - descent p)] /\
  box_of (0, ascent p - height p / 2 + boxLightWeight p / 2,
          width p / 2 - boxArcRadius p,
          ascent p - height p / 2 - boxLightWeight p / 2) (100, 300) /\
  ~ box_of (arc_clip p) (100, 300).
Proof.
  cbv zeta. set (p := SLCParameters approx_math kwargs_radius_300).
  assert (Hr : 0 <= boxArcRadius p) by (vm_compute; discriminate).
  assert (Es : arc_stubs p (-1) 1
    = [(0, ascent p - height p / 2 + boxLightWeight p / 2,
        width p / 2 - boxArcRadius p,
        ascent p - height p / 2 - boxLightWeight p / 2);
       (width p / 2 - boxLightWeight p / 2,
        ascent p - height p / 2 - boxArcRadius p,
        width p / 2 + boxLightWeight p / 2, - descent p)]) by reflexivity.
  assert (Hb : box_of (0, ascent p - height p / 2 + boxLightWeight p / 2,
                       width p / 2 - boxArcRadius p,
                       ascent p - height p / 2 - boxLightWeight p / 2) (100, 300)).
  { vm_compute. intuition discriminate. }
  split; [exact Hr |]. split; [exact Es |]. split; [exact Hb |].
  intros Hc.
  assert (Ib : In (0, ascent p - height p / 2 + boxLightWeight p / 2,
                   width p / 2 - boxArcRadius p,
                   ascent p - height p / 2 - boxLightWeight p / 2)
                  (arc_stubs p (-1) 1)) by (rewrite Es; left; reflexivity).
  apply (proj2 (proj2 (arc_is_ring_and_stubs p (-1) 1)) Hr _ (100, 300) Ib).
  split; [exact Hb | exact Hc].
Defined.

(* ================================================================= *)
(** ** Invariants of the glyphs of a font *)

Section GlyphInvariant.
Variable M : Math.
Variable FF : FontForge.
Variable p : Params.

(** A property of glyphs that a blank glyph of the font's advance width
    has and that the drawing operations of the builders keep. *)
Variable I : glyph -> Prop.
Hypothesis I_blank : I (blank_glyph (width p)).
Hypothesis I_simplify : forall g, I g -> I (on_layer Simplify g).
Hypothesis I_round : forall g g',
  g_width g' = g_width g -> I g -> I (on_layer RoundToInt g').
Hypothesis I_closed : forall pts g, I g -> I (pen_closed (List.map rounded pts) g).

Lemma inv_rawrect (x1 y1 x2 y2 : Q) (g : glyph) : I g -> I (rawrect x1 y1 x2 y2 g).
Proof.
  intros H. unfold rawrect. apply I_simplify.
  exact (I_closed [(x1, y1); (x2, y1); (x2, y2); (x1, y2)] g H).
Qed.

Lemma inv_fold {A : Type} (paint : A -> glyph -> glyph) (l : list A) (g : glyph) :
  (forall a g0, I g0 -> I (paint a g0)) -> I g ->
  I (fold_left (fun acc a => paint a acc) l g).
Proof.
  intros Hp. revert g. induction l as [| a l IH]; intros g H; [exact H |].
  cbn [fold_left]. apply IH, Hp, H.
Qed.

Lemma inv_rawpoly (points : list point) (g g' : glyph) :
  I g -> rawpoly points g = Ok g' -> I g'.
Proof.
  intros H E. destruct points as [| q qs]; [discriminate |].
  cbn in E. injection E as <-. apply I_simplify, (I_closed (q :: qs)), H.
Qed.

Lemma inv_strip (g g' : glyph) : _stripcontrolpoints FF p g = Ok g' -> I g'.
Proof.
  unfold _stripcontrolpoints. intros E.
  apply (for_each_invariant I rawpoly _ (fun x s s' _ Hs Es => inv_rawpoly x s s' Hs Es)
           _ _ I_blank E).
Qed.

Lemma inv_rawellipse (cx cy orx ory irx iry bx1 by1 bx2 by2 : Q) (g : glyph) :
  I g -> I (rawellipse cx cy orx ory irx iry bx1 by1 bx2 by2 g).
Proof.
  intros H. unfold rawellipse. apply (I_round g); [| exact H].
  destruct (Qltb 0 irx && Qltb 0 iry), (Qltb 0 orx && Qltb 0 ory); reflexivity.
Qed.

Lemma inv_boxdrawarc (dx dy : Q) (g : glyph) : I g -> I (boxdrawarc p dx dy g).
Proof.
  intros H. unfold boxdrawarc, rawellipse. cbv zeta.
  apply (I_round g); [| exact H].
  repeat match goal with
         | |- context [if ?b then _ else _] => destruct b
         end;
    reflexivity.
Qed.

(** What a glyph builder does to the glyph it works on. *)
Lemma inv_on_glyph (target : Z) (f : glyph -> result glyph) (fnt fnt' : font) :
  (forall g g', I g -> f g = Ok g' -> I g') ->
  on_glyph target f fnt = Ok fnt' ->
  (forall g, fnt !! target = Some g -> I g) ->
  forall g', fnt' !! target = Some g' -> I g'.
Proof.
  intros Hf E Ht g' L. unfold on_glyph in E.
  destruct (fnt !! target) as [g |] eqn:Lg.
  - destruct (f g) as [g1 |] eqn:Ef; cbn in E; [| discriminate].
    injection E as <-. rewrite lookup_insert_eq in L. injection L as <-.
    exact (Hf g g1 (Ht g eq_refl) Ef).
  - injection E as <-. congruence.
Qed.

Lemma inv_merge (target : Z) (fnt fnt' : font) :
  merge_strokes FF p target fnt = Ok fnt' ->
  forall g', fnt' !! target = Some g' -> I g'.
Proof.
  intros E g' L. unfold merge_strokes, on_glyph in E.
  destruct (fnt !! target) as [g |] eqn:Lg.
  - match type of E with
    | context [_stripcontrolpoints FF p ?o] =>
        destruct (_stripcontrolpoints FF p o) as [g1 |] eqn:Es
    end; cbn in E; [| discriminate].
    injection E as <-. rewrite lookup_insert_eq in L. injection L as <-.
    exact (inv_strip _ _ Es).
  - injection E as <-. congruence.
Qed.

Lemma inv_run_step (target : Z) (st : step) (fnt fnt' : font) :
  run_step M FF p target st fnt = Ok fnt' ->
  (forall g, fnt !! target = Some g -> I g) ->
  forall g', fnt' !! target = Some g' -> I g'.
Proof.
  intros E Ht.
  destruct st; cbn [run_step] in E.
  - eapply inv_on_glyph; [| exact E | exact Ht].
    intros g g' Hg Eg. injection Eg as <-. apply inv_rawrect, Hg.
  - eapply inv_on_glyph; [| exact E | exact Ht].
    intros g g' Hg Eg. eapply inv_rawpoly; eauto.
  - eapply inv_on_glyph; [| exact E | exact Ht].
    intros g g' Hg Eg. injection Eg as <-. rewrite shade_as_cells.
    apply (inv_fold (fun c => cell p rows cols (fst c) (snd c))); [| exact Hg].
    intros c g0 H0. apply inv_rawrect, H0.
  - eapply inv_on_glyph; [| exact E | exact Ht].
    intros g g' Hg Eg. rewrite shadepart_as_outline in Eg.
    destruct (shadepart_outline p rows cols inverse points union g); cbn in Eg;
      [| discriminate].
    eapply inv_strip; exact Eg.
  - eapply inv_on_glyph; [| exact E | exact Ht].
    intros g g' Hg Eg. injection Eg as <-. rewrite ltshade_as_cells.
    apply (inv_fold (fun c => cell p rows cols (fst c) (snd c))); [| exact Hg].
    intros c g0 H0. apply inv_rawrect, H0.
  - eapply inv_on_glyph; [| exact E | exact Ht].
    intros g g' Hg Eg. eapply inv_strip; exact Eg.
  - eapply inv_on_glyph; [| exact E | exact Ht].
    intros g g' Hg Eg. unfold diagfill in Eg.
    destruct (diagfill_outline M p angle g); cbn in Eg; [| discriminate].
    eapply inv_strip; exact Eg.
  - eapply inv_on_glyph; [| exact E | exact Ht].
    intros g g' Hg Eg. rewrite bitmap_as_outline in Eg.
    eapply inv_strip; exact Eg.
  - eapply inv_on_glyph; [| exact E | exact Ht].
    intros g g' Hg Eg. injection Eg as <-. rewrite sepmap_as_cells.
    apply (inv_fold (fun c => sep_rect p rows cols (fst c) (snd c))); [| exact Hg].
    intros c g0 H0. apply inv_rawrect, H0.
  - unfold boxdrawlight in E.
    destruct (for_each lines _ fnt); cbn in E; [| discriminate].
    eapply inv_merge; exact E.
  - unfold boxdrawheavy in E.
    destruct (for_each lines _ fnt); cbn in E; [| discriminate].
    eapply inv_merge; exact E.
  - unfold boxdrawmixed in E.
    destruct (for_each lightLines _ fnt) as [f1 |]; cbn in E; [| discriminate].
    destruct (for_each heavyLines _ f1); cbn in E; [| discriminate].
    eapply inv_merge; exact E.
  - unfold boxdrawdiag in E.
    destruct (for_each lines _ fnt); cbn in E; [| discriminate].
    eapply inv_merge; exact E.
  - eapply inv_on_glyph; [| exact E | exact Ht].
    intros g g' Hg Eg. injection Eg as <-. apply inv_rawellipse, Hg.
  - eapply inv_on_glyph; [| exact E | exact Ht].
    intros g g' Hg Eg. injection Eg as <-. apply inv_boxdrawarc, Hg.
Qed.

Lemma inv_build_entry (e : entry) (fnt fnt' : font) :
  entry_codepoint e <> 32%Z -> space_is_blank p fnt ->
  (forall cp g, fnt !! cp = Some g -> I g) ->
  build_entry M FF p e fnt = Ok fnt' ->
  space_is_blank p fnt' /\ forall cp g, fnt' !! cp = Some g -> I g.
Proof.
  destruct e as [[name cp0] steps]. unfold entry_codepoint; cbn [fst snd].
  intros Hne Hs Hi E. unfold build_entry in E.
  apply (for_each_invariant
           (fun s => space_is_blank p s /\ forall cp g, s !! cp = Some g -> I g)
           (run_step M FF p cp0) steps)
    with (s := mkglyph FF p name cp0 fnt); [| | exact E].
  - intros st s s' _ [Ss Is] Es.
    destruct (run_step_frame M FF p cp0 st s s' Hne Ss Es) as [Ss' Fr].
    split; [exact Ss' |]. intros cp g L.
    destruct (Z.eq_dec cp cp0) as [-> | Nc].
    + exact (inv_run_step cp0 st s s' Es (Is cp0) g L).
    + destruct (Z.eq_dec cp 32%Z) as [-> | N32].
      * unfold space_is_blank in Ss'. rewrite Ss' in L. injection L as <-.
        exact I_blank.
      * rewrite (Fr cp Nc N32) in L. exact (Is cp g L).
  - split.
    + unfold space_is_blank. rewrite mkglyph_lookup_ne by assumption. exact Hs.
    + intros cp g L. destruct (Z.eq_dec cp0 cp) as [<- | Nc].
      * rewrite mkglyph_lookup in L. injection L as <-. exact I_blank.
      * rewrite mkglyph_lookup_ne in L by assumption. exact (Hi cp g L).
Qed.

Lemma inv_catalogue (entries : list entry) (fnt fnt' : font) :
  Forall (fun e => entry_codepoint e <> 32%Z) entries ->
  space_is_blank p fnt -> (forall cp g, fnt !! cp = Some g -> I g) ->
  for_each entries (build_entry M FF p) fnt = Ok fnt' ->
  space_is_blank p fnt' /\ forall cp g, fnt' !! cp = Some g -> I g.
Proof.
  intros Hc Hs Hi E.
  apply (for_each_invariant
           (fun s => space_is_blank p s /\ forall cp g, s !! cp = Some g -> I g)
           (build_entry M FF p) entries) with (s := fnt); [| | exact E].
  - intros e s s' He [Ss Is] Es.
    rewrite List.Forall_forall in Hc.
    exact (inv_build_entry e s s' (Hc e He) Ss Is Es).
  - split; assumption.
Qed.

Lemma inv_base_font : 
  space_is_blank p (base_font FF p) /\
  forall cp g, base_font FF p !! cp = Some g -> I g.
Proof.
  unfold base_font. split.
  - unfold space_is_blank. rewrite mkglyph_lookup_ne by discriminate.
    apply mkglyph_lookup.
  - intros cp g L.
    destruct (Z.eq_dec 160%Z cp) as [<- | N].
    + rewrite mkglyph_lookup in L. injection L as <-. exact I_blank.
    + rewrite mkglyph_lookup_ne in L by assumption.
      destruct (Z.eq_dec 32%Z cp) as [<- | N'].
      * rewrite mkglyph_lookup in L. injection L as <-. exact I_blank.
      * rewrite mkglyph_lookup_ne in L by assumption.
        rewrite lookup_empty in L. discriminate.
Qed.

End GlyphInvariant.

Lemma slcgen_run (M : Math) (FF : FontForge)
    (catalogue : Params -> Offsets -> list entry) (kw : kwargs) (fnt : font) :
  slcgen M FF catalogue kw = Ok fnt ->
  exists o,
    slcgen_offsets M (SLCParameters M kw) = Ok o /\
    for_each (catalogue (SLCParameters M kw) o)
      (build_entry M FF (SLCParameters M kw)) (base_font FF (SLCParameters M kw))
    = Ok fnt.
Proof.
  unfold slcgen. intros E.
  destruct (slcgen_offsets M (SLCParameters M kw)) as [o |]; cbn in E; [| discriminate].
  exists o. split; [reflexivity | exact E].
Qed.

(** X20.  The font is monospaced: every glyph of the font [slcgen] builds
    has the advance width of the parameters, whatever the catalogue
    draws. *)
Theorem every_glyph_has_the_font_width (M : Math) (FF : FontForge)
    (catalogue : Params -> Offsets -> list entry) (kw : kwargs) (fnt : font) :
  (forall p' o, Forall (fun e => entry_codepoint e <> 32%Z) (catalogue p' o)) ->
  slcgen M FF catalogue kw = Ok fnt ->
  forall cp g, fnt !! cp = Some g -> g_width g = width (SLCParameters M kw).
Proof.
  intros Hc E. apply slcgen_run in E. destruct E as (o & _ & E).
  set (p := SLCParameters M kw) in *.
  pose proof (inv_base_font FF p (fun g => g_width g = width p) eq_refl) as [Bs Bi].
  refine (proj2 (inv_catalogue M FF p (fun g => g_width g = width p)
                   eq_refl _ _ _ _ _ _ (Hc p o) Bs Bi E));
    try (intros; assumption).
  intros g g' Ew Hg. cbn [on_layer g_width]. congruence.
Qed.

(** X21.  Every glyph of the font [slcgen] builds is built on integer
    coordinates: its layer holds closed polygons drawn from points the
    builders rounded, and [simplify] calls, on an empty layer or on a
    layer that [round()] was applied to.  No glyph is left as a unit
    shape, an overlap removal, an intersection, a rotation or a stroke
    made it: each of these is followed by [round()] or by
    [_stripcontrolpoints], which draws the glyph again from rounded
    points. *)
Theorem every_glyph_is_built_on_integers (M : Math) (FF : FontForge)
    (catalogue : Params -> Offsets -> list entry) (kw : kwargs) (fnt : font) :
  (forall p' o, Forall (fun e => entry_codepoint e <> 32%Z) (catalogue p' o)) ->
  slcgen M FF catalogue kw = Ok fnt ->
  forall cp g, fnt !! cp = Some g -> integer_built (g_layer g).
Proof.
  intros Hc E. apply slcgen_run in E. destruct E as (o & _ & E).
  set (p := SLCParameters M kw) in *.
  assert (Ib : integer_built (g_layer (blank_glyph (width p)))) by exact Logic.I.
  pose proof (inv_base_font FF p (fun g => integer_built (g_layer g)) Ib) as [Bs Bi].
  refine (proj2 (inv_catalogue M FF p (fun g => integer_built (g_layer g))
                   Ib _ _ _ _ _ _ (Hc p o) Bs Bi E));
    try (intros; assumption); try (intros; exact Logic.I).
  intros pts g H. cbn [pen_closed on_layer g_layer integer_built].
  split; [| exact H].
    apply List.Forall_forall. intros q Iq.
    apply in_map_iff in Iq. destruct Iq as (q0 & <- & _). apply rounded_integer.
Qed.

(* ================================================================= *)
(** ** The glyphs of the font, one by one *)

Lemma on_glyph_present (target : Z) (f : glyph -> result glyph) (fnt fnt' : font)
    (g : glyph) :
  fnt !! target = Some g -> on_glyph target f fnt = Ok fnt' ->
  exists g', f g = Ok g' /\ fnt' !! target = Some g'.
Proof.
  intros L E. unfold on_glyph in E. rewrite L in E.
  destruct (f g) as [g' |]; cbn in E; [| discriminate].
  injection E as <-. exists g'. split; [reflexivity | apply lookup_insert_eq].
Qed.

Lemma strokes_present (FF : FontForge) (p : Params) (target : Z) (weight : Q)
    (truncate : bool) (lines : list (list point)) (fnt fnt1 : font) (g : glyph) :
  target <> 32%Z -> fnt !! target = Some g ->
  for_each lines (fun line => _boxdrawline FF p target line weight truncate) fnt
  = Ok fnt1 ->
  exists ss, all_strokes p lines weight truncate = Ok ss /\
             fnt1 !! target = Some (with_strokes ss g).
Proof.
  intros Hne L E.
  pose proof (strokes_effect FF p target weight truncate lines fnt) as H.
  destruct (all_strokes p lines weight truncate) as [ss | e].
  - destruct H as (fnt2 & E2 & _ & _ & _ & T).
    rewrite E in E2. injection E2 as <-.
    exists ss. split; [reflexivity |]. rewrite (T Hne), L. reflexivity.
  - rewrite E in H. discriminate.
Qed.

(** A builder call changes its glyph as [glyph_step] says. *)
Lemma run_step_glyph (M : Math) (FF : FontForge) (p : Params) (target : Z)
    (st : step) (fnt fnt' : font) (g : glyph) :
  target <> 32%Z -> fnt !! target = Some g ->
  run_step M FF p target st fnt = Ok fnt' ->
  exists g', glyph_step M FF p st g = Ok g' /\ fnt' !! target = Some g'.
Proof.
  intros Hne L E.
  destruct st; cbn [run_step] in E; cbn [glyph_step];
    try (exact (on_glyph_present target _ fnt fnt' g L E)).
  - unfold boxdrawlight in E.
    destruct (for_each lines _ fnt) as [f1 |] eqn:E1; cbn in E; [| discriminate].
    destruct (strokes_present FF p target _ _ _ _ _ g Hne L E1) as (ss & -> & L1).
    cbn [rbind]. exact (on_glyph_present target _ f1 fnt' _ L1 E).
  - unfold boxdrawheavy in E.
    destruct (for_each lines _ fnt) as [f1 |] eqn:E1; cbn in E; [| discriminate].
    destruct (strokes_present FF p target _ _ _ _ _ g Hne L E1) as (ss & -> & L1).
    cbn [rbind]. exact (on_glyph_present target _ f1 fnt' _ L1 E).
  - unfold boxdrawmixed in E.
    destruct (for_each lightLines _ fnt) as [f1 |] eqn:E1; cbn in E; [| discriminate].
    destruct (for_each heavyLines _ f1) as [f2 |] eqn:E2; cbn in E; [| discriminate].
    destruct (strokes_present FF p target _ _ _ _ _ g Hne L E1) as (ss & -> & L1).
    destruct (strokes_present FF p target _ _ _ _ _ _ Hne L1 E2) as (ts & -> & L2).
    cbn [rbind]. rewrite with_strokes_app in L2.
    exact (on_glyph_present target _ f2 fnt' _ L2 E).
  - unfold boxdrawdiag in E.
    destruct (for_each lines _ fnt) as [f1 |] eqn:E1; cbn in E; [| discriminate].
    destruct (strokes_present FF p target _ _ _ _ _ g Hne L E1) as (ss & -> & L1).
    cbn [rbind]. exact (on_glyph_present target _ f1 fnt' _ L1 E).
Qed.

Lemma steps_glyph (M : Math) (FF : FontForge) (p : Params) (target : Z)
    (steps : list step) (fnt fnt' : font) (g : glyph) :
  target <> 32%Z -> fnt !! target = Some g ->
  for_each steps (run_step M FF p target) fnt = Ok fnt' ->
  exists g', for_each steps (glyph_step M FF p) g = Ok g' /\
             fnt' !! target = Some g'.
Proof.
  intros Hne. revert fnt g. induction steps as [| st steps IH]; intros fnt g L E.
  - cbn in E. injection E as <-. exists g. split; [reflexivity | exact L].
  - cbn [for_each] in E.
    destruct (run_step M FF p target st fnt) as [f1 |] eqn:E1; cbn in E;
      [| discriminate].
    destruct (run_step_glyph M FF p target st fnt f1 g Hne L E1) as (g1 & G1 & L1).
    destruct (IH f1 g1 L1 E) as (g' & G' & L').
    exists g'. split; [| exact L']. cbn [for_each]. rewrite G1. exact G'.
Qed.

Lemma build_entry_glyph (M : Math) (FF : FontForge) (p : Params) (e : entry)
    (fnt fnt' : font) :
  entry_codepoint e <> 32%Z -> build_entry M FF p e fnt = Ok fnt' ->
  exists g, entry_glyph M FF p e = Ok g /\ fnt' !! entry_codepoint e = Some g.
Proof.
  destruct e as [[name cp] steps]. unfold entry_codepoint, entry_glyph; cbn [fst snd].
  intros Hne E. unfold build_entry in E.
  exact (steps_glyph M FF p cp steps _ fnt' _ Hne (mkglyph_lookup FF p name cp fnt) E).
Qed.

Lemma build_entry_others (M : Math) (FF : FontForge) (p : Params) (e : entry)
    (fnt fnt' : font) :
  entry_codepoint e <> 32%Z -> space_is_blank p fnt ->
  build_entry M FF p e fnt = Ok fnt' ->
  forall cp, cp <> entry_codepoint e -> cp <> 32%Z -> fnt' !! cp = fnt !! cp.
Proof.
  destruct e as [[name cp0] steps]. unfold entry_codepoint; cbn [fst snd].
  intros Hne Hs E. unfold build_entry in E.
  refine (proj2 (for_each_invariant
           (fun s => space_is_blank p s /\
                     forall cp, cp <> cp0 -> cp <> 32%Z -> s !! cp = fnt !! cp)
           (run_step M FF p cp0) steps _ (mkglyph FF p name cp0 fnt) fnt' _ E)).
  - intros st s s' _ [Ss Fs] Es.
    destruct (run_step_frame M FF p cp0 st s s' Hne Ss Es) as [Ss' Fr].
    split; [exact Ss' |]. intros cp N0 N32. rewrite (Fr cp N0 N32). auto.
  - split.
    + unfold space_is_blank. rewrite mkglyph_lookup_ne by assumption. exact Hs.
    + intros cp N0 N32. apply mkglyph_lookup_ne. congruence.
Qed.

Lemma catalogue_glyphs (M : Math) (FF : FontForge) (p : Params)
    (entries : list entry) (fnt fnt' : font) :
  Forall (fun e => entry_codepoint e <> 32%Z) entries ->
  space_is_blank p fnt ->
  for_each entries (build_entry M FF p) fnt = Ok fnt' ->
  space_is_blank p fnt' /\
  (forall cp, cp <> 32%Z -> ~ In cp (List.map entry_codepoint entries) ->
              fnt' !! cp = fnt !! cp) /\
  (forall cp, is_Some (fnt' !! cp) <->
              is_Some (fnt !! cp) \/ In cp (List.map entry_codepoint entries)) /\
  (List.NoDup (List.map entry_codepoint entries) ->
   forall e, In e entries ->
     exists g, entry_glyph M FF p e = Ok g /\ fnt' !! entry_codepoint e = Some g).
Proof.
  revert fnt. induction entries as [| e rest IH]; intros fnt Hc Hs E.
  - cbn in E. injection E as <-. split; [exact Hs |]. split; [reflexivity |].
    split; [cbn; tauto |]. intros _ e [].
  - inversion Hc as [| ? ? He Hr]; subst.
    cbn [for_each] in E.
    destruct (build_entry M FF p e fnt) as [f1 |] eqn:E1; cbn in E; [| discriminate].
    pose proof (build_entry_frame M FF p e fnt f1 He Hs E1) as S1.
    pose proof (build_entry_others M FF p e fnt f1 He Hs E1) as O1.
    destruct (build_entry_glyph M FF p e fnt f1 He E1) as (g & G & Lg).
    destruct (IH f1 Hr S1 E) as (S' & O' & D' & G').
    split; [exact S' |]. split; [| split].
    + intros cp N32 Nin. cbn in Nin.
      rewrite O' by tauto. apply O1; [intros ->; tauto | exact N32].
    + intros cp. rewrite D'. cbn [List.map In].
      destruct (Z.eq_dec cp (entry_codepoint e)) as [-> | Ne].
      * rewrite Lg. split; [intros _; right; left; reflexivity |].
        intros _. left. eexists; reflexivity.
      * destruct (Z.eq_dec cp 32%Z) as [-> | N32].
        -- unfold space_is_blank in Hs, S1. rewrite Hs, S1.
           split; [intros _; left; eexists; reflexivity |].
           intros _. left. eexists; reflexivity.
        -- rewrite (O1 cp Ne N32). split; [tauto |].
           intros [H | [H | H]]; [tauto | congruence | tauto].
    + intros Nd e' [<- | In']; cbn in Nd; inversion Nd as [| ? ? Nin Nd']; subst.
      * exists g. split; [exact G |]. rewrite (O' _ He Nin). exact Lg.
      * exact (G' Nd' e' In').
Qed.

Lemma slcgen_codepoints_distinct : List.NoDup slcgen_codepoints.
Proof.
  assert (E : nodup Z.eq_dec slcgen_codepoints = slcgen_codepoints)
    by (vm_compute; reflexivity).
  rewrite <- E. apply NoDup_nodup.
Qed.

(** X22.  Every glyph of the font is the work of its own catalogue line
    alone: when the code points of the catalogue differ from each other
    and from 32, the glyph at the code point of a line is what the
    builder calls of that line make of a blank glyph, whatever the other
    lines draw and however often the scratch glyph was used in between.
    The code points of the catalogue of the program do differ. *)
Theorem every_glyph_is_its_own_line (M : Math) (FF : FontForge)
    (catalogue : Params -> Offsets -> list entry) (kw : kwargs) (fnt : font) :
  (forall p' o, Forall (fun e => entry_codepoint e <> 32%Z) (catalogue p' o)) ->
  (forall p' o, List.NoDup (List.map entry_codepoint (catalogue p' o))) ->
  slcgen M FF catalogue kw = Ok fnt ->
  (exists o : Offsets,
     slcgen_offsets M (SLCParameters M kw) = Ok o /\
     forall e, In e (catalogue (SLCParameters M kw) o) ->
       exists g, entry_glyph M FF (SLCParameters M kw) e = Ok g /\
                 fnt !! entry_codepoint e = Some g) /\
  List.NoDup slcgen_codepoints.
Proof.
  intros Hc Hd E. split; [| exact slcgen_codepoints_distinct].
  apply slcgen_run in E. destruct E as (o & Eo & E).
  exists o. split; [exact Eo |].
  set (p := SLCParameters M kw) in *.
  assert (Bs : space_is_blank p (base_font FF p)).
  { unfold base_font, space_is_blank. rewrite mkglyph_lookup_ne by discriminate.
    apply mkglyph_lookup. }
  destruct (catalogue_glyphs M FF p (catalogue p o) _ fnt (Hc p o) Bs E)
    as (_ & _ & _ & G).
  exact (G (Hd p o)).
Qed.

Lemma base_font_present (FF : FontForge) (p : Params) (cp : Z) :
  is_Some (base_font FF p !! cp) <-> cp = 32%Z \/ cp = 160%Z.
Proof.
  unfold base_font.
  destruct (Z.eq_dec 160%Z cp) as [<- | N].
  - rewrite mkglyph_lookup. split; [intros _; right; reflexivity |].
    intros _. eexists; reflexivity.
  - rewrite mkglyph_lookup_ne by assumption.
    destruct (Z.eq_dec 32%Z cp) as [<- | N'].
    + rewrite mkglyph_lookup. split; [intros _; left; reflexivity |].
      intros _. eexists; reflexivity.
    + rewrite mkglyph_lookup_ne by assumption. rewrite lookup_empty.
      split; [intros [x Hx]; discriminate | intros [H | H]; congruence].
Qed.

(** X23.  The font holds a glyph at code point 32, at code point 160 and
    at the code point of every catalogue line, and nowhere else; the
    strokes, which go through slot 32, add no slot. *)
Theorem font_has_exactly_the_catalogue (M : Math) (FF : FontForge)
    (catalogue : Params -> Offsets -> list entry) (kw : kwargs) (fnt : font) :
  (forall p' o, Forall (fun e => entry_codepoint e <> 32%Z) (catalogue p' o)) ->
  slcgen M FF catalogue kw = Ok fnt ->
  exists o : Offsets,
    slcgen_offsets M (SLCParameters M kw) = Ok o /\
    forall cp : Z,
      is_Some (fnt !! cp) <->
      cp = 32%Z \/ cp = 160%Z \/
      In cp (List.map entry_codepoint (catalogue (SLCParameters M kw) o)).
Proof.
  intros Hc E. apply slcgen_run in E. destruct E as (o & Eo & E).
  exists o. split; [exact Eo |].
  set (p := SLCParameters M kw) in *.
  assert (Bs : space_is_blank p (base_font FF p)).
  { unfold base_font, space_is_blank. rewrite mkglyph_lookup_ne by discriminate.
    apply mkglyph_lookup. }
  destruct (catalogue_glyphs M FF p (catalogue p o) _ fnt (Hc p o) Bs E)
    as (_ & _ & D & _).
  intros cp. rewrite D, base_font_present. tauto.
Qed.

Lemma for_each_map {A B St : Type} (h : A -> B) (body : B -> St -> result St)
    (xs : list A) (s : St) :
  for_each (List.map h xs) body s = for_each xs (fun a => body (h a)) s.
Proof.
  revert s. induction xs as [| x xs IH]; intros s; [reflexivity |].
  cbn [List.map for_each]. destruct (body (h x) s); cbn; [apply IH | reflexivity].
Qed.

Lemma for_each_ext {A St : Type} (body body' : A -> St -> result St)
    (xs : list A) (s : St) :
  (forall a s0, body a s0 = body' a s0) ->
  for_each xs body s = for_each xs body' s.
Proof.
  intros H. revert s. induction xs as [| x xs IH]; intros s; [reflexivity |].
  cbn [for_each]. rewrite H. destruct (body' x s); cbn; [apply IH | reflexivity].
Qed.

(** X24.  The glyph names written in the catalogue never reach the font:
    [mkglyph] creates the glyph from the code point alone, so the same
    catalogue under any other names builds the same font. *)
Theorem glyph_names_have_no_effect (M : Math) (FF : FontForge)
    (catalogue : Params -> Offsets -> list entry) (kw : kwargs)
    (r : string -> string) :
  (forall (p : Params) (name name' : string) (cp : Z) (fnt : font),
     mkglyph FF p name cp fnt = mkglyph FF p name' cp fnt) /\
  slcgen M FF (fun p o => List.map (rename r) (catalogue p o)) kw
  = slcgen M FF catalogue kw.
Proof.
  split; [reflexivity |].
  unfold slcgen.
  destruct (slcgen_offsets M (SLCParameters M kw)) as [o |]; cbn [rbind];
    [| reflexivity].
  rewrite for_each_map. apply for_each_ext.
  intros [[name cp] steps] s. reflexivity.
Qed.

Lemma bars_catalogue_not_space (p' : Params) (o : Offsets) :
  Forall (fun e => entry_codepoint e <> 32%Z) (bars_catalogue p' o).
Proof. repeat constructor; discriminate. Qed.

Lemma bars_catalogue_distinct (p' : Params) (o : Offsets) :
  List.NoDup (List.map entry_codepoint (bars_catalogue p' o)).
Proof.
  cbn. repeat constructor; cbn; intuition discriminate.
Qed.

Lemma bars_run :
  exists fnt : font,
    slcgen approx_math plain_fontforge bars_catalogue no_kwargs = Ok fnt.
Proof.
  destruct (slcgen approx_math plain_fontforge bars_catalogue no_kwargs)
    as [fnt | e] eqn:E.
  - exists fnt. reflexivity.
  - exfalso. vm_compute in E. discriminate.
Qed.

Lemma every_glyph_has_the_font_width_witness :
  (forall p' o, Forall (fun e => entry_codepoint e <> 32%Z) (bars_catalogue p' o)) /\
  exists fnt : font,
    slcgen approx_math plain_fontforge bars_catalogue no_kwargs = Ok fnt /\
    forall cp g, fnt !! cp = Some g -> g_width g = width default_params.
Proof.
  split; [exact bars_catalogue_not_space |].
  destruct bars_run as [fnt E]. exists fnt. split; [exact E |].
  exact (every_glyph_has_the_font_width approx_math plain_fontforge bars_catalogue
           no_kwargs fnt bars_catalogue_not_space E).
Defined.

Lemma rounds_catalogue_not_space (p' : Params) (o : Offsets) :
  Forall (fun e => entry_codepoint e <> 32%Z) (rounds_catalogue p' o).
Proof. repeat constructor; discriminate. Qed.

Lemma rounds_run :
  exists fnt : font,
    slcgen approx_math plain_fontforge rounds_catalogue no_kwargs = Ok fnt.
Proof.
  destruct (slcgen approx_math plain_fontforge rounds_catalogue no_kwargs)
    as [fnt | e] eqn:E.
  - exists fnt. reflexivity.
  - exfalso. vm_compute in E. discriminate.
Qed.

Lemma every_glyph_is_built_on_integers_witness :
  (forall p' o, Forall (fun e => entry_codepoint e <> 32%Z) (rounds_catalogue p' o)) /\
  exists fnt : font,
    slcgen approx_math plain_fontforge rounds_catalogue no_kwargs = Ok fnt /\
    forall cp g, fnt !! cp = Some g -> integer_built (g_layer g).
Proof.
  split; [exact rounds_catalogue_not_space |].
  destruct rounds_run as [fnt E]. exists fnt. split; [exact E |].
  exact (every_glyph_is_built_on_integers approx_math plain_fontforge
           rounds_catalogue no_kwargs fnt rounds_catalogue_not_space E).
Defined.

Lemma every_glyph_is_its_own_line_witness :
  (forall p' o, Forall (fun e => entry_codepoint e <> 32%Z) (bars_catalogue p' o)) /\
  (forall p' o, List.NoDup (List.map entry_codepoint (bars_catalogue p' o))) /\
  exists (fnt : font) (o : Offsets),
    slcgen approx_math plain_fontforge bars_catalogue no_kwargs = Ok fnt /\
    forall e, In e (bars_catalogue default_params o) ->
      exists g, entry_glyph approx_math plain_fontforge default_params e = Ok g /\
                fnt !! entry_codepoint e = Some g.
Proof.
  split; [exact bars_catalogue_not_space |].
  split; [exact bars_catalogue_distinct |].
  destruct bars_run as [fnt E].
  destruct (every_glyph_is_its_own_line approx_math plain_fontforge bars_catalogue
              no_kwargs fnt bars_catalogue_not_space bars_catalogue_distinct E)
    as [(o & _ & G) _].
  exists fnt, o. split; [exact E | exact G].
Defined.

Lemma font_has_exactly_the_catalogue_witness :
  (forall p' o, Forall (fun e => entry_codepoint e <> 32%Z) (bars_catalogue p' o)) /\
  exists fnt : font,
    slcgen approx_math plain_fontforge bars_catalogue no_kwargs = Ok fnt /\
    forall cp : Z,
      is_Some (fnt !! cp) <->
      cp = 32%Z \/ cp = 160%Z \/ In cp [0x2500; 0x2501; 0x2572]%Z.
Proof.
  split; [exact bars_catalogue_not_space |].
  destruct bars_run as [fnt E]. exists fnt. split; [exact E |].
  destruct (font_has_exactly_the_catalogue approx_math plain_fontforge bars_catalogue
              no_kwargs fnt bars_catalogue_not_space E) as (o & _ & D).
  exact D.
Defined.
